(** * TSMonkey: lexer, Pratt parser and tree-walking evaluator

    A shallow embedding of the TypeScript sources ([token.ts], [lexer.ts],
    [ast.ts], [parser.ts], [objects.ts], [evaluator.ts]) together with the
    properties of the language pipeline that the specification states.

    Conventions of the embedding:
    - a JavaScript [number] is an IEEE 754 binary64 value, modelled by
      [spec_float] at precision 53 and maximal exponent 1024;
    - a JavaScript string is a [string]; a single character is a string of
      length one, and the lexer's [ZERO] is the empty string;
    - every JavaScript object has an identity: runtime objects live in a heap
      and are denoted by their address, [===] on objects compares addresses;
    - JavaScript arrays and the [Map] of an [Environment] are mutable and are
      kept in heaps of their own, so that aliasing is visible;
    - loops and recursion that are not structural take fuel; running out of
      fuel is the outcome [Timeout] and never a value. *)

From Stdlib Require Import ZArith String Ascii List Lia Bool.
From Stdlib Require Import Floats.SpecFloat.
From stdpp Require Import base option list gmap strings.

Local Open Scope string_scope.
Local Open Scope nat_scope.

(** ** Host primitives

    [String.prototype.toLowerCase], [String.prototype.toUpperCase] and
    [Number.prototype.toString] belong to the JavaScript runtime, not to the
    repository.  They are taken as an interface; [ascii_host] below
    implements it for ASCII text. *)

Definition number : Set := spec_float.

Class Host : Type := {
  toLowerCase : string → string;
  toUpperCase : string → string;
  numberToString : number → string;
  toLowerCase_empty : toLowerCase "" = "";
  toUpperCase_empty : toUpperCase "" = "";
}.

(** ** token.ts *)

Inductive TokenType : Set :=
  | ILLEGAL | EOF | ASSIGN | EQ | NOT_EQ | IDENT | INT | PLUS | COMMA
  | SEMICOLON | COLON | MINUS | BANG | SLASH | ASTERISK | LT | GT
  | LPAREN | RPAREN | LBRACE | RBRACE | LBRACKET | RBRACKET
  | FUNCTION | LET | TRUE_ | FALSE_ | IF | ELSE | RETURN | STRING.

Global Instance TokenType_eq_dec : EqDecision TokenType.
Proof. solve_decision. Defined.

(** The string value of each member of the [enum]. *)
Definition TokenType_value (t : TokenType) : string :=
  match t with
  | ILLEGAL => "ILLEGAL" | EOF => "EOF" | ASSIGN => "=" | EQ => "=="
  | NOT_EQ => "!=" | IDENT => "IDENT" | INT => "INT" | PLUS => "+"
  | COMMA => "," | SEMICOLON => ";" | COLON => ":" | MINUS => "-"
  | BANG => "!" | SLASH => "/" | ASTERISK => "*" | LT => "<" | GT => ">"
  | LPAREN => "(" | RPAREN => ")" | LBRACE => "{" | RBRACE => "}"
  | LBRACKET => "[" | RBRACKET => "]" | FUNCTION => "FUNCTION"
  | LET => "LET" | TRUE_ => "TRUE" | FALSE_ => "FALSE" | IF => "IF"
  | ELSE => "ELSE" | RETURN => "RETURN" | STRING => "STRING"
  end.

Definition KEYWORDS : list (string * TokenType) :=
  [ ("fn", FUNCTION); ("let", LET); ("true", TRUE_); ("false", FALSE_);
    ("if", IF); ("else", ELSE); ("return", RETURN) ].

Fixpoint assoc {A : Type} (key : string) (table : list (string * A)) : option A :=
  match table with
  | [] => None
  | (k, v) :: rest => if String.eqb k key then Some v else assoc key rest
  end.

(** [KEYWORDS[value]], read on the own properties of the table. *)
Definition lookupIdent (value : string) : TokenType :=
  match assoc value KEYWORDS with
  | None => IDENT
  | Some tokenType => tokenType
  end.

Record Token : Set := mkToken { tokenType : TokenType; literal : string }.

(** ** lexer.ts *)

Definition ZERO : string := "".
Definition DQUOTE : string := String (ascii_of_nat 34) "".
Definition WHITE_SPACES : list string :=
  [ " "; String (ascii_of_nat 9) ""; String (ascii_of_nat 10) "";
    String (ascii_of_nat 13) "" ].

Fixpoint includes (xs : list string) (x : string) : bool :=
  match xs with
  | [] => false
  | y :: ys => String.eqb y x || includes ys x
  end.

(** [/^\d$/.test(ch)] *)
Definition isDigit (ch : string) : bool :=
  match ch with
  | String c "" => (48 <=? nat_of_ascii c)%nat && (nat_of_ascii c <=? 57)%nat
  | _ => false
  end.

(** [s[i]]: the character at index [i] as a string ([undefined] never
    arises, the only use is guarded by the length test of [peakChar]). *)
Definition charAt (s : string) (i : nat) : string :=
  match String.get i s with
  | Some c => String c ""
  | None => ""
  end.

(** [s.substring(start, end)]: both indices are clamped to the length and
    swapped when [start > end]. *)
Definition js_substring (s : string) (start end_ : nat) : string :=
  let n := String.length s in
  let a := Nat.min start n in
  let b := Nat.min end_ n in
  String.substring (Nat.min a b) (Nat.max a b - Nat.min a b) s.

Record Lexer : Set := mkLexer {
  input : string;
  position : nat;
  readPosition : nat;
  ch : string;
}.

Definition peakChar (l : Lexer) : string :=
  if (String.length (input l) <=? readPosition l)%nat then ZERO
  else charAt (input l) (readPosition l).

Definition readChar (l : Lexer) : Lexer :=
  {| input := input l;
     ch := peakChar l;
     position := readPosition l;
     readPosition := S (readPosition l) |}.

(** [new Lexer(input)]: the field initialisers run, then [readChar()]. *)
Definition newLexer (input : string) : Lexer :=
  readChar {| input := input; position := 0; readPosition := 0; ch := ZERO |}.

Definition token (l : Lexer) (tokenType : TokenType) : Token :=
  mkToken tokenType (ch l).

Definition endsWithEqual (l : Lexer) (oneChar twoChars : TokenType)
    (duplicateChars : bool) : Token * Lexer :=
  if String.eqb (peakChar l) "=" then
    let currentChar := ch l in
    let l' := readChar l in
    let value := if duplicateChars then currentChar ++ currentChar
                 else currentChar ++ ch l' in
    (mkToken twoChars value, l')
  else (token l oneChar, l).

(** The number of characters that are still unread bounds every loop of the
    lexer: each iteration calls [readChar], and [readChar] past the end of
    the input leaves [ZERO] in [ch], on which every loop stops. *)
Definition remaining (l : Lexer) : nat :=
  String.length (input l) - readPosition l.

Fixpoint while_readChar (fuel : nat) (predicate : string → bool) (l : Lexer)
    : option Lexer :=
  if predicate (ch l) then
    match fuel with
    | O => None
    | S fuel' => while_readChar fuel' predicate (readChar l)
    end
  else Some l.

Definition skipWhitespace (l : Lexer) : option Lexer :=
  while_readChar (S (remaining l)) (includes WHITE_SPACES) l.

Section WithHost.
Context `{Host}.

Definition isIdentifier (value : string) : bool :=
  negb (String.eqb (toLowerCase value) (toUpperCase value))
  || String.eqb value "_".

Definition readValue (predicate : string → bool) (l : Lexer)
    : option (string * Lexer) :=
  let currentPosition := position l in
  l' ← while_readChar (S (remaining l)) predicate l;
  Some (js_substring (input l') currentPosition (position l'), l').

Definition readIdentifier (l : Lexer) : option (string * Lexer) :=
  readValue isIdentifier l.

Definition readNumber (l : Lexer) : option (string * Lexer) :=
  readValue isDigit l.

(** The loop of [readString]: [readChar()] until [ch] is the closing quote
    or [ZERO]. *)
Fixpoint readString_loop (fuel : nat) (l : Lexer) : option Lexer :=
  let l' := readChar l in
  if String.eqb (ch l') DQUOTE || String.eqb (ch l') ZERO then Some l'
  else match fuel with
       | O => None
       | S fuel' => readString_loop fuel' l'
       end.

Definition readString (l : Lexer) : option (string * Lexer) :=
  let start := position l + 1 in
  l' ← readString_loop (remaining l) l;
  Some (js_substring (input l') start (position l'), l').

(** The [switch] of [nextToken]; [None] stands for the [default] case. *)
Definition single_char_token (c : string) : option TokenType :=
  if String.eqb c ";" then Some SEMICOLON
  else if String.eqb c ":" then Some COLON
  else if String.eqb c "," then Some COMMA
  else if String.eqb c "(" then Some LPAREN
  else if String.eqb c ")" then Some RPAREN
  else if String.eqb c "{" then Some LBRACE
  else if String.eqb c "}" then Some RBRACE
  else if String.eqb c "[" then Some LBRACKET
  else if String.eqb c "]" then Some RBRACKET
  else if String.eqb c "+" then Some PLUS
  else if String.eqb c "-" then Some MINUS
  else if String.eqb c "*" then Some ASTERISK
  else if String.eqb c "/" then Some SLASH
  else if String.eqb c "<" then Some LT
  else if String.eqb c ">" then Some GT
  else None.

Definition nextToken (l0 : Lexer) : option (Token * Lexer) :=
  l ← skipWhitespace l0;
  if String.eqb (ch l) "=" then
    let '(token, l1) := endsWithEqual l ASSIGN EQ true in
    Some (token, readChar l1)
  else if String.eqb (ch l) "!" then
    let '(token, l1) := endsWithEqual l BANG NOT_EQ false in
    Some (token, readChar l1)
  else match single_char_token (ch l) with
  | Some tokenType => Some (token l tokenType, readChar l)
  | None =>
    if String.eqb (ch l) DQUOTE then
      '(s, l1) ← readString l;
      Some (mkToken STRING s, readChar l1)
    else if String.eqb (ch l) ZERO then
      Some (mkToken EOF "", readChar l)
    else if isIdentifier (ch l) then
      '(identifier, l1) ← readIdentifier l;
      Some (mkToken (lookupIdent identifier) identifier, l1)
    else if isDigit (ch l) then
      '(n, l1) ← readNumber l;
      Some (mkToken INT n, l1)
    else Some (mkToken ILLEGAL (ch l), l)
  end.

End WithHost.

(** ** ast.ts

    [Expression] is an alias of [Statement]: all nodes form one type.  A
    field of type [T | null] is an [option]. *)

Record Identifier : Set := mkIdentifier { id_token : Token; id_value : string }.

Local Unset Elimination Schemes.
Inductive Node : Set :=
  | Ident (i : Identifier)
  | StringLiteral (token : Token) (value : string)
  | LetStatement (token : Token) (name : Identifier) (value : option Node)
  | ExpressionStatement (token : Token) (expression : option Node)
  | ReturnStatement (token : Token) (returnValue : option Node)
  | IntegerLiteral (token : Token) (value : number)
  | BooleanLiteral (token : Token) (value : bool)
  | PrefixExpression (token : Token) (operator : string) (right : option Node)
  | InfixExpression (token : Token) (left : option Node) (operator : string)
      (right : option Node)
  | CallExpression (token : Token) (fun_ : option Node)
      (args : option (list (option Node)))
  | ArrayLiteral (token : Token) (elements : option (list (option Node)))
  | IndexExpression (token : Token) (left : option Node) (index : option Node)
  | Block (b : BlockStatement)
  | IfExpression (token : Token) (condition : option Node)
      (consequence : option BlockStatement) (alternative : option BlockStatement)
  | FunctionLiteral (token : Token) (parameters : option (list Identifier))
      (body : option BlockStatement) (name : string)
  | HashLiteral (token : Token) (pairs : list (Node * Node))
with BlockStatement : Set :=
  | mkBlockStatement (token : Token) (statements : option (list (option Node))).
Local Set Elimination Schemes.

Record Program : Set := mkProgram { program_statements : list Node }.

(** [xs.join(sep)] on strings. *)
Fixpoint join (sep : string) (xs : list string) : string :=
  match xs with
  | [] => ""
  | [x] => x
  | x :: rest => x ++ sep ++ join sep rest
  end.

(** A template literal prints [null] as the word null; [x?.toString()]
    of [null] is [undefined] and prints as that word; [join] prints a
    [null] element as the empty string. *)
Definition template (s : option string) : string := default "null" s.
Definition optional (s : option string) : string := default "undefined" s.
Definition element (s : option string) : string := default "" s.

Fixpoint Node_toString (n : Node) : string :=
  match n with
  | Ident i => id_value i
  | StringLiteral _ value => value
  | LetStatement token name value =>
      literal token ++ " " ++ id_value name ++ " = "
        ++ match value with Some v => Node_toString v | None => "" end
  | ExpressionStatement _ expression =>
      match expression with Some e => Node_toString e | None => "" end
  | ReturnStatement token returnValue =>
      literal token ++ " "
        ++ match returnValue with Some v => Node_toString v | None => "" end
  | IntegerLiteral token _ => literal token
  | BooleanLiteral token _ => literal token
  | PrefixExpression _ operator rhs =>
      "(" ++ operator ++ template (option_map Node_toString rhs) ++ ")"
  | InfixExpression _ lhs operator rhs =>
      "(" ++ template (option_map Node_toString lhs) ++ " " ++ operator ++ " "
        ++ template (option_map Node_toString rhs) ++ ")"
  | CallExpression _ fun_ args =>
      optional (option_map Node_toString fun_) ++ "("
        ++ optional (option_map
             (λ l, join ", " (map (λ a, element (option_map Node_toString a)) l))
             args)
        ++ ")"
  | ArrayLiteral _ elements =>
      "[" ++ optional (option_map
               (λ l, join ", " (map (λ a, element (option_map Node_toString a)) l))
               elements)
        ++ "]"
  | IndexExpression _ lhs index =>
      "(" ++ optional (option_map Node_toString lhs) ++ "["
        ++ optional (option_map Node_toString index) ++ "])"
  | Block b => BlockStatement_toString b
  | IfExpression _ condition consequence alternative =>
      "if " ++ template (option_map Node_toString condition) ++ " "
        ++ template (option_map BlockStatement_toString consequence) ++ " "
        ++ match alternative with
           | Some a => "else " ++ BlockStatement_toString a
           | None => ""
           end
  | FunctionLiteral token parameters body name =>
      literal token
        ++ (if (String.length name =? 0)%nat then "" else "<" ++ name ++ ">")
        ++ "(" ++ optional (option_map (λ l, join "" (map id_value l)) parameters)
        ++ ") " ++ template (option_map BlockStatement_toString body)
  | HashLiteral _ _ => "[object Object]"
  end
with BlockStatement_toString (b : BlockStatement) : string :=
  match b with
  | mkBlockStatement _ None => ""
  | mkBlockStatement _ (Some l) =>
      join "" (map (λ a, element (option_map Node_toString a)) l)
  end.

Definition Program_toString (p : Program) : string :=
  join "" (map Node_toString (program_statements p)).

(** ** Outcomes of effectful code

    A computation over a state [S] returns a value and a new state, throws a
    JavaScript exception, or runs out of fuel. *)

Inductive outcome (S A : Type) : Type :=
  | Ok (a : A) (s : S)
  | Throw (message : string)
  | Timeout.
Arguments Ok {S A} a s.
Arguments Throw {S A} message.
Arguments Timeout {S A}.

Definition M (S A : Type) : Type := S → outcome S A.

Global Instance M_ret {S} : MRet (M S) := λ A a s, Ok a s.
Global Instance M_bind {S} : MBind (M S) := λ A B k m s,
  match m s with
  | Ok a s' => k a s'
  | Throw e => Throw e
  | Timeout => Timeout
  end.

Definition get {S} : M S S := λ s, Ok s s.
Definition throw {S A} (message : string) : M S A := λ _, Throw message.
Definition timeout {S A} : M S A := λ _, Timeout.

(** ** parser.ts *)

Inductive Precedence : Set :=
  | LOWEST | EQUALS | LESS_GREATER | SUM | PRODUCT | PREFIX | CALL | INDEX.

(** The numeric value of each member of the [enum]. *)
Definition Precedence_value (p : Precedence) : nat :=
  match p with
  | LOWEST => 0 | EQUALS => 1 | LESS_GREATER => 2 | SUM => 3
  | PRODUCT => 4 | PREFIX => 5 | CALL => 6 | INDEX => 7
  end.

Definition precedences (t : TokenType) : option Precedence :=
  match t with
  | EQ | NOT_EQ => Some EQUALS
  | LT | GT => Some LESS_GREATER
  | PLUS | MINUS => Some SUM
  | SLASH | ASTERISK => Some PRODUCT
  | LPAREN => Some CALL
  | LBRACKET => Some INDEX
  | _ => None
  end.

(** The entries of [prefixParsers] and [infixParsers]. *)
Inductive PrefixParser : Set :=
  | parseIntegerLiteral_ | parseBooleanLiteral_ | parseIdentifier_
  | parsePrefixExpression_ | parseGroupExpression_ | parseArrayLiteral_
  | parseIfExpression_ | parseFunctionLiteral_ | parseStringLiteral_
  | parseHashLiteral_.

Inductive InfixParser : Set :=
  | parseInfixExpression_ | parseCallExpression_ | parseIndexExpression_.

Definition prefixParsers (t : TokenType) : option PrefixParser :=
  match t with
  | INT => Some parseIntegerLiteral_
  | TRUE_ | FALSE_ => Some parseBooleanLiteral_
  | IDENT => Some parseIdentifier_
  | BANG | MINUS => Some parsePrefixExpression_
  | LPAREN => Some parseGroupExpression_
  | LBRACKET => Some parseArrayLiteral_
  | IF => Some parseIfExpression_
  | FUNCTION => Some parseFunctionLiteral_
  | STRING => Some parseStringLiteral_
  | LBRACE => Some parseHashLiteral_
  | _ => None
  end.

Definition infixParsers (t : TokenType) : option InfixParser :=
  match t with
  | PLUS | MINUS | SLASH | ASTERISK | EQ | NOT_EQ | LT | GT =>
      Some parseInfixExpression_
  | LPAREN => Some parseCallExpression_
  | LBRACKET => Some parseIndexExpression_
  | _ => None
  end.

(** [parseInt] on decimal text: optional white space and sign, then the
    longest run of digits, rounded to the nearest [number]; [NaN] when there
    is no digit.  (The parser calls it on the literal of an [INT] token,
    which is a run of decimal digits.) *)
Definition prec : Z := 53.
Definition emax : Z := 1024.
Definition number_of_Z (z : Z) : number := binary_normalize prec emax z 0 false.
Definition NaN : number := S754_nan.
Definition isNaN (x : number) : bool :=
  match x with S754_nan => true | _ => false end.

Fixpoint digits_prefix (s : string) (acc : option Z) : option Z :=
  match s with
  | String c rest =>
      if isDigit (String c "") then
        digits_prefix rest
          (Some (10 * default 0%Z acc + Z.of_nat (nat_of_ascii c - 48))%Z)
      else acc
  | EmptyString => acc
  end.

Fixpoint trimStart (s : string) : string :=
  match s with
  | String c rest =>
      if includes WHITE_SPACES (String c "") then trimStart rest else s
  | EmptyString => s
  end.

Definition parseInt (s : string) : number :=
  match trimStart s with
  | String "-" rest =>
      match digits_prefix rest None with
      | Some z => SFopp (number_of_Z z)
      | None => NaN
      end
  | String "+" rest =>
      match digits_prefix rest None with
      | Some z => number_of_Z z
      | None => NaN
      end
  | s' =>
      match digits_prefix s' None with
      | Some z => number_of_Z z
      | None => NaN
      end
  end.

Record Parser : Set := mkParser {
  lexer : Lexer;
  _errors : list string;
  curToken : Token;
  peekToken : Token;
}.

Section ParserWithHost.
Context `{Host}.

Definition Parser_nextToken : M Parser unit := λ p,
  match nextToken (lexer p) with
  | Some (t, l) =>
      Ok tt {| lexer := l; _errors := _errors p;
               curToken := peekToken p; peekToken := t |}
  | None => Timeout
  end.

(** [this._errors.push(message)] *)
Definition pushError (message : string) : M Parser unit := λ p,
  Ok tt {| lexer := lexer p; _errors := _errors p ++ [message];
           curToken := curToken p; peekToken := peekToken p |}.

Definition getCurToken : M Parser Token := λ p, Ok (curToken p) p.

Definition peekTokenIs (t : TokenType) : M Parser bool := λ p,
  Ok (bool_decide (tokenType (peekToken p) = t)) p.

Definition curTokenIs (t : TokenType) : M Parser bool := λ p,
  Ok (bool_decide (tokenType (curToken p) = t)) p.

Definition peekError (t : TokenType) : M Parser unit :=
  p ← get;
  pushError ("Expected next token to be " ++ TokenType_value t ++ ", got "
             ++ TokenType_value (tokenType (peekToken p)) ++ " instead").

Definition expectPeek (t : TokenType) : M Parser bool :=
  b ← peekTokenIs t;
  if b : bool then Parser_nextToken;; mret true
  else peekError t;; mret false.

Definition noPrefixParserError (t : TokenType) : M Parser unit :=
  pushError ("No prefix parser for " ++ TokenType_value t ++ " function").

Definition findPrecedence (t : TokenType) : Precedence :=
  match precedences t with
  | None => LOWEST
  | Some pre => pre
  end.

Definition peekPrecedence : M Parser Precedence := λ p,
  Ok (findPrecedence (tokenType (peekToken p))) p.

Definition curPrecedence : M Parser Precedence := λ p,
  Ok (findPrecedence (tokenType (curToken p))) p.

Definition parseIntegerLiteral : M Parser (option Node) :=
  token ← getCurToken;
  let value := parseInt (literal token) in
  if isNaN value then
    pushError ("could not parse " ++ literal token ++ " as integer");; mret None
  else mret (Some (IntegerLiteral token value)).

Definition parseBooleanLiteral : M Parser (option Node) :=
  token ← getCurToken;
  b ← curTokenIs TRUE_;
  mret (Some (BooleanLiteral token b)).

Definition parseIdentifier : M Parser (option Node) :=
  token ← getCurToken;
  mret (Some (Ident (mkIdentifier token (literal token)))).

Definition parseStringLiteral : M Parser (option Node) :=
  token ← getCurToken;
  mret (Some (StringLiteral token (literal token))).

(** The [while] loop of [parseFunctionParameters]. *)
Fixpoint parseFunctionParameters_while (fuel : nat) (parameters : list Identifier)
    : M Parser (list Identifier) :=
  b ← peekTokenIs COMMA;
  if b : bool then
    match fuel with
    | O => timeout
    | S fuel' =>
        Parser_nextToken;;
        Parser_nextToken;;
        innerToken ← getCurToken;
        parseFunctionParameters_while fuel'
          (parameters ++ [mkIdentifier innerToken (literal innerToken)])
    end
  else mret parameters.

Definition parseFunctionParameters (fuel : nat) : M Parser (option (list Identifier)) :=
  b ← peekTokenIs RPAREN;
  if b : bool then Parser_nextToken;; mret (Some [])
  else
    Parser_nextToken;;
    token ← getCurToken;
    parameters ← parseFunctionParameters_while fuel [mkIdentifier token (literal token)];
    ok ← expectPeek RPAREN;
    if ok : bool then mret (Some parameters) else mret None.

(** The [while] loop at the end of [parseReturnStatement]. *)
Fixpoint skipSemicolons (fuel : nat) : M Parser unit :=
  b ← peekTokenIs SEMICOLON;
  if b : bool then
    match fuel with
    | O => timeout
    | S fuel' => Parser_nextToken;; skipSemicolons fuel'
    end
  else mret tt.

(** The recursive descent proper.  [parseExpression] and [parseStatement]
    call each other through the sub-parsers; the sub-parsers are written
    against [self], the two entry points at the fuel below, and the knot is
    tied by [parser_at].  Each [while] loop takes the fuel as its bound. *)
Record ParserFns : Type := {
  self_parseExpression : Precedence → M Parser (option Node);
  self_parseStatement : M Parser (option Node);
}.

Section Descent.
Variable fuel : nat.
Variable self : ParserFns.

Definition parsePrefixExpression : M Parser (option Node) :=
  token ← getCurToken;
  let operator := literal token in
  Parser_nextToken;;
  rhs ← self_parseExpression self PREFIX;
  mret (Some (PrefixExpression token operator rhs)).

Definition parseGroupExpression : M Parser (option Node) :=
  Parser_nextToken;;
  exp ← self_parseExpression self LOWEST;
  ok ← expectPeek RPAREN;
  if ok : bool then mret exp else mret None.

Fixpoint parseExpressionList_while (n : nat) (args : list (option Node))
    : M Parser (list (option Node)) :=
  b ← peekTokenIs COMMA;
  if b : bool then
    match n with
    | O => timeout
    | S n' =>
        Parser_nextToken;;
        Parser_nextToken;;
        e ← self_parseExpression self LOWEST;
        parseExpressionList_while n' (args ++ [e])
    end
  else mret args.

Definition parseExpressionList (end_ : TokenType)
    : M Parser (option (list (option Node))) :=
  b ← peekTokenIs end_;
  if b : bool then Parser_nextToken;; mret (Some [])
  else
    Parser_nextToken;;
    first ← self_parseExpression self LOWEST;
    args ← parseExpressionList_while fuel [first];
    ok ← expectPeek end_;
    if negb ok then mret None else mret (Some args).

Definition parseArrayLiteral : M Parser (option Node) :=
  token ← getCurToken;
  elements ← parseExpressionList RBRACKET;
  mret (Some (ArrayLiteral token elements)).

Fixpoint parseBlockStatement_while (n : nat) (statements : list (option Node))
    : M Parser (list (option Node)) :=
  rb ← curTokenIs RBRACE;
  eof ← curTokenIs EOF;
  if negb rb && negb eof then
    match n with
    | O => timeout
    | S n' =>
        statement ← self_parseStatement self;
        Parser_nextToken;;
        parseBlockStatement_while n'
          (match statement with
           | Some st => statements ++ [Some st]
           | None => statements
           end)
    end
  else mret statements.

Definition parseBlockStatement : M Parser BlockStatement :=
  token ← getCurToken;
  Parser_nextToken;;
  statements ← parseBlockStatement_while fuel [];
  mret (mkBlockStatement token (Some statements)).

Definition parseIfExpression : M Parser (option Node) :=
  token ← getCurToken;
  ok ← expectPeek LPAREN;
  if negb ok then mret None else
  Parser_nextToken;;
  condition ← self_parseExpression self LOWEST;
  ok ← expectPeek RPAREN;
  if negb ok then mret None else
  ok ← expectPeek LBRACE;
  if negb ok then mret None else
  consequence ← parseBlockStatement;
  els ← peekTokenIs ELSE;
  if els : bool then
    Parser_nextToken;;
    ok ← expectPeek LBRACE;
    if negb ok then mret None else
    alternative ← parseBlockStatement;
    mret (Some (IfExpression token condition (Some consequence) (Some alternative)))
  else mret (Some (IfExpression token condition (Some consequence) None)).

Definition parseFunctionLiteral : M Parser (option Node) :=
  token ← getCurToken;
  ok ← expectPeek LPAREN;
  if negb ok then mret None else
  parameters ← parseFunctionParameters fuel;
  ok ← expectPeek LBRACE;
  if negb ok then mret None else
  body ← parseBlockStatement;
  mret (Some (FunctionLiteral token parameters (Some body) "")).

(** The [while] loop of [parseHashLiteral], with the [expectPeek] that
    follows it. *)
Fixpoint parseHashLiteral_while (n : nat) (token : Token)
    (pairs : list (Node * Node)) : M Parser (option Node) :=
  close ← peekTokenIs RBRACE;
  if close : bool then
    ok ← expectPeek RBRACE;
    if negb ok then mret None else mret (Some (HashLiteral token pairs))
  else
    match n with
    | O => timeout
    | S n' =>
        Parser_nextToken;;
        key ← self_parseExpression self LOWEST;
        ok ← expectPeek COLON;
        if negb ok then mret None else
        Parser_nextToken;;
        value ← self_parseExpression self LOWEST;
        match key, value with
        | Some k, Some v =>
            close ← peekTokenIs RBRACE;
            if close : bool then parseHashLiteral_while n' token (pairs ++ [(k, v)])
            else
              ok ← expectPeek COMMA;
              if negb ok then mret None
              else parseHashLiteral_while n' token (pairs ++ [(k, v)])
        | _, _ =>
            throw ("key:" ++ template (option_map Node_toString key)
                   ++ " or value:" ++ template (option_map Node_toString value)
                   ++ " are null")
        end
    end.

Definition parseHashLiteral : M Parser (option Node) :=
  token ← getCurToken;
  parseHashLiteral_while fuel token [].

Definition parseInfixExpression (lhs : option Node) : M Parser (option Node) :=
  token ← getCurToken;
  let operator := literal token in
  precedence ← curPrecedence;
  Parser_nextToken;;
  rhs ← self_parseExpression self precedence;
  mret (Some (InfixExpression token lhs operator rhs)).

Definition parseCallExpression (expression : option Node) : M Parser (option Node) :=
  token ← getCurToken;
  args ← parseExpressionList RPAREN;
  mret (Some (CallExpression token expression args)).

Definition parseIndexExpression (lhs : option Node) : M Parser (option Node) :=
  token ← getCurToken;
  Parser_nextToken;;
  index ← self_parseExpression self LOWEST;
  ok ← expectPeek RBRACKET;
  if negb ok then mret None
  else mret (Some (IndexExpression token lhs index)).

Definition applyPrefix (prefix : PrefixParser) : M Parser (option Node) :=
  match prefix with
  | parseIntegerLiteral_ => parseIntegerLiteral
  | parseBooleanLiteral_ => parseBooleanLiteral
  | parseIdentifier_ => parseIdentifier
  | parseStringLiteral_ => parseStringLiteral
  | parsePrefixExpression_ => parsePrefixExpression
  | parseGroupExpression_ => parseGroupExpression
  | parseArrayLiteral_ => parseArrayLiteral
  | parseIfExpression_ => parseIfExpression
  | parseFunctionLiteral_ => parseFunctionLiteral
  | parseHashLiteral_ => parseHashLiteral
  end.

Definition applyInfix (infix : InfixParser) (lhs : option Node)
    : M Parser (option Node) :=
  match infix with
  | parseInfixExpression_ => parseInfixExpression lhs
  | parseCallExpression_ => parseCallExpression lhs
  | parseIndexExpression_ => parseIndexExpression lhs
  end.

(** The [while] loop of [parseExpression]. *)
Fixpoint parseExpression_while (n : nat) (precedence : Precedence)
    (lhs : option Node) : M Parser (option Node) :=
  semi ← peekTokenIs SEMICOLON;
  pp ← peekPrecedence;
  if negb semi && (Precedence_value precedence <? Precedence_value pp)%nat then
    p ← get;
    match infixParsers (tokenType (peekToken p)) with
    | None => mret lhs
    | Some infix =>
        match n with
        | O => timeout
        | S n' =>
            Parser_nextToken;;
            lhs' ← applyInfix infix lhs;
            parseExpression_while n' precedence lhs'
        end
    end
  else mret lhs.

Definition parseExpression_body (precedence : Precedence) : M Parser (option Node) :=
  p ← get;
  match prefixParsers (tokenType (curToken p)) with
  | None => noPrefixParserError (tokenType (curToken p));; mret None
  | Some prefix =>
      lhs ← applyPrefix prefix;
      parseExpression_while fuel precedence lhs
  end.

Definition parseLetStatement : M Parser (option Node) :=
  token ← getCurToken;
  ok ← expectPeek IDENT;
  if negb ok then mret None else
  nameToken ← getCurToken;
  let name := mkIdentifier nameToken (literal nameToken) in
  ok ← expectPeek ASSIGN;
  if negb ok then mret None else
  Parser_nextToken;;
  value ← self_parseExpression self LOWEST;
  semi ← peekTokenIs SEMICOLON;
  (if semi : bool then Parser_nextToken else mret tt);;
  mret (Some (LetStatement token name value)).

Definition parseExpressionStatement : M Parser Node :=
  token ← getCurToken;
  expression ← self_parseExpression self LOWEST;
  semi ← peekTokenIs SEMICOLON;
  (if semi : bool then Parser_nextToken else mret tt);;
  mret (ExpressionStatement token expression).

Definition parseReturnStatement : M Parser Node :=
  token ← getCurToken;
  Parser_nextToken;;
  returnValue ← self_parseExpression self LOWEST;
  skipSemicolons fuel;;
  mret (ReturnStatement token returnValue).

Definition parseStatement_body : M Parser (option Node) :=
  p ← get;
  match tokenType (curToken p) with
  | LET => parseLetStatement
  | RETURN => st ← parseReturnStatement; mret (Some st)
  | _ => st ← parseExpressionStatement; mret (Some st)
  end.

End Descent.

Fixpoint parser_at (fuel : nat) : ParserFns :=
  match fuel with
  | O => {| self_parseExpression := λ _, timeout; self_parseStatement := timeout |}
  | S fuel' =>
      let self := parser_at fuel' in
      {| self_parseExpression := parseExpression_body fuel' self;
         self_parseStatement := parseStatement_body fuel' self |}
  end.

Definition parseExpression (fuel : nat) : Precedence → M Parser (option Node) :=
  self_parseExpression (parser_at fuel).
Definition parseStatement (fuel : nat) : M Parser (option Node) :=
  self_parseStatement (parser_at fuel).

(** The [while] loop of [parseProgram]. *)
Fixpoint parseProgram_while (fuel n : nat) (statements : list Node)
    : M Parser (list Node) :=
  eof ← curTokenIs EOF;
  if eof : bool then mret statements
  else
    match n with
    | O => timeout
    | S n' =>
        statement ← parseStatement fuel;
        Parser_nextToken;;
        parseProgram_while fuel n'
          (match statement with
           | Some st => statements ++ [st]
           | None => statements
           end)
    end.

Definition parseProgram (fuel : nat) : M Parser Program :=
  statements ← parseProgram_while fuel fuel [];
  mret (mkProgram statements).

(** [new Parser(lexer)]: the field initialisers, then two [nextToken()]. *)
Definition newParser (lexer : Lexer) : outcome Parser unit :=
  (Parser_nextToken;; Parser_nextToken)
    {| lexer := lexer; _errors := [];
       curToken := mkToken ILLEGAL ""; peekToken := mkToken ILLEGAL "" |}.

(** [new Parser(new Lexer(input)).parseProgram()], with the errors the
    parser has collected. *)
Definition parse (fuel : nat) (input : string) : outcome Parser (Program * list string) :=
  match newParser (newLexer input) with
  | Ok _ p =>
      match parseProgram fuel p with
      | Ok program p' => Ok (program, _errors p') p'
      | Throw e => Throw e
      | Timeout => Timeout
      end
  | Throw e => Throw e
  | Timeout => Timeout
  end.

End ParserWithHost.

(** ** An ASCII host *)

Definition ascii_lower (c : ascii) : ascii :=
  let n := nat_of_ascii c in
  if (65 <=? n)%nat && (n <=? 90)%nat then ascii_of_nat (n + 32) else c.
Definition ascii_upper (c : ascii) : ascii :=
  let n := nat_of_ascii c in
  if (97 <=? n)%nat && (n <=? 122)%nat then ascii_of_nat (n - 32) else c.

Fixpoint string_map (f : ascii → ascii) (s : string) : string :=
  match s with
  | EmptyString => EmptyString
  | String c rest => String (f c) (string_map f rest)
  end.

Definition digit_char (d : Z) : ascii := ascii_of_nat (48 + Z.to_nat d).

(** The decimal digits of [z >= 0] in front of [acc]; with [pad], exactly
    [fuel] digits are written. *)
Fixpoint Z_digits (pad : bool) (fuel : nat) (z : Z) (acc : string) : string :=
  match fuel with
  | O => acc
  | S fuel' =>
      let acc' := String (digit_char (z mod 10)) acc in
      if negb pad && (z / 10 =? 0)%Z then acc'
      else Z_digits pad fuel' (z / 10) acc'
  end.

Definition Z_toString (z : Z) : string :=
  Z_digits false (S (Z.to_nat (Z.log2 z))) z "".

Fixpoint strip_zeros (rev_digits : list ascii) : list ascii :=
  match rev_digits with
  | c :: rest => if Ascii.eqb c "0" then strip_zeros rest else rev_digits
  | [] => []
  end.

(** Decimal rendering of a [number]: an integer prints its digits, any other
    finite value prints its exact decimal expansion.  This is what
    [Number.prototype.toString] yields on the integers below 10^21 and on the
    fractions whose shortest decimal form is exact, such as 3.5. *)
Definition ascii_numberToString (x : number) : string :=
  match x with
  | S754_nan => "NaN"
  | S754_infinity false => "Infinity"
  | S754_infinity true => "-Infinity"
  | S754_zero _ => "0"
  | S754_finite s m e =>
      (if s then "-" else "") ++
      match e with
      | Zneg k =>
          let d := Z.pow 2 (Zpos k) in
          let ip := (Zpos m / d)%Z in
          let fr := ((Zpos m mod d) * Z.pow 5 (Zpos k))%Z in
          let frac := rev (strip_zeros (rev (list_ascii_of_string
                        (Z_digits true (Pos.to_nat k) fr "")))) in
          match frac with
          | [] => Z_toString ip
          | _ => Z_toString ip ++ "." ++ string_of_list_ascii frac
          end
      | _ => Z_toString (Zpos m * Z.pow 2 e)
      end
  end.

Definition ascii_host : Host := {|
  toLowerCase := string_map ascii_lower;
  toUpperCase := string_map ascii_upper;
  numberToString := ascii_numberToString;
  toLowerCase_empty := eq_refl;
  toUpperCase_empty := eq_refl;
|}.

(** ** objects.ts

    A value of type [MObject | null] is [null], [undefined] (what an array
    or a [Map] yields where it has no entry), or a reference to an object of
    the heap.  The object at an address records its class and its fields. *)

Definition loc : Set := nat.

Inductive value : Set :=
  | JSnull
  | JSundefined
  | Ref (l : loc).

Global Instance value_eq_dec : EqDecision value.
Proof. solve_decision. Defined.

(** The native functions of the [builtins] table. *)
Inductive BuiltinFunction : Set := LEN | PUSH | FIRST | LAST | REST.

Record HashPair : Set := mkHashPair { key : loc; pair_value : value }.

Inductive MObject : Type :=
  | MInteger (value : number)
  | MBoolean (value : bool)
  | MString (value : string)
  | MNull
  | MReturnValue (value : loc)
  | MError (message : string)
  | MFunction (parameters : option (list Identifier))
      (body : option BlockStatement) (env : loc)
  | MArray (elements : loc)
  | MHash (pairs : gmap string HashPair)
  | MBuiltinFunction (fn : BuiltinFunction).

(** [class Environment] of evaluator.ts: the [store] and the [outer] scope. *)
Record Environment : Type := mkEnvironment {
  store : gmap string value;
  outer : option loc;
}.

(** The heap: objects, JavaScript arrays, and environments, each addressed
    by position.  Nothing is ever freed. *)
Record Heap : Type := mkHeap {
  objects : list MObject;
  arrays : list (list value);
  environments : list Environment;
}.

(** The objects that exist once objects.ts and evaluator.ts are loaded:
    [M_NULL], the five entries of [builtins], [TRUE] and [FALSE]. *)
Definition NULL : loc := 0.
Definition TRUE : loc := 6.
Definition FALSE : loc := 7.
Definition M_NULL : loc := NULL.

Definition builtins : list (string * loc) :=
  [ ("len", 1); ("push", 2); ("first", 3); ("last", 4); ("rest", 5) ].

Definition initial_heap : Heap := {|
  objects := [ MNull;
               MBuiltinFunction LEN; MBuiltinFunction PUSH;
               MBuiltinFunction FIRST; MBuiltinFunction LAST;
               MBuiltinFunction REST;
               MBoolean true; MBoolean false ];
  arrays := [];
  environments := [];
|}.

(** An address without an object cannot arise; the evaluation is then
    stuck, which is reported as an exception of the model's own. *)
Definition stuck {S A} : M S A := throw "model: dangling address".

(** [new C(...)] for a class [C] of objects.ts. *)
Definition new_object (o : MObject) : M Heap value := λ h,
  Ok (Ref (length (objects h)))
     {| objects := objects h ++ [o]; arrays := arrays h;
        environments := environments h |}.

(** A fresh JavaScript array. *)
Definition new_array (elements : list value) : M Heap loc := λ h,
  Ok (length (arrays h))
     {| objects := objects h; arrays := arrays h ++ [elements];
        environments := environments h |}.

Definition new_environment (e : Environment) : M Heap loc := λ h,
  Ok (length (environments h))
     {| objects := objects h; arrays := arrays h;
        environments := environments h ++ [e] |}.

Definition object_at (l : loc) : M Heap MObject := λ h,
  match objects h !! l with
  | Some o => Ok o h
  | None => stuck h
  end.

Definition array_at (a : loc) : M Heap (list value) := λ h,
  match arrays h !! a with
  | Some elements => Ok elements h
  | None => stuck h
  end.

Definition environment_at (e : loc) : M Heap Environment := λ h,
  match environments h !! e with
  | Some env => Ok env h
  | None => stuck h
  end.

(** The object behind a value, if the value is one. *)
Definition deref (v : value) : M Heap (option MObject) :=
  match v with
  | Ref l => o ← object_at l; mret (Some o)
  | _ => mret None
  end.

(** [constructor.name] *)
Definition className (o : MObject) : string :=
  match o with
  | MInteger _ => "MInteger"
  | MBoolean _ => "MBoolean"
  | MString _ => "MString"
  | MNull => "MNull"
  | MReturnValue _ => "MReturnValue"
  | MError _ => "MError"
  | MFunction _ _ _ => "MFunction"
  | MArray _ => "MArray"
  | MHash _ => "MHash"
  | MBuiltinFunction _ => "MBuiltinFunction"
  end.

Definition typeDesc (mObject : value) : M Heap string :=
  o ← deref mObject;
  match o with
  | None => mret "null"
  | Some o => mret (className o)
  end.

Section ObjectsWithHost.
Context `{Host}.

(** [toString()] of the three subclasses of [MValue]; [None] for an object
    that is no [MValue]. *)
Definition MValue_toString (o : MObject) : option string :=
  match o with
  | MInteger value => Some ("MInteger(value=" ++ numberToString value ++ ")")
  | MBoolean value =>
      Some ("MBoolean(value=" ++ (if value then "true" else "false") ++ ")")
  | MString value => Some ("MString(value=" ++ value ++ ")")
  | _ => None
  end.

Definition hashKey (o : MObject) : option string := MValue_toString o.

End ObjectsWithHost.

Definition number_of_nat (n : nat) : number := number_of_Z (Z.of_nat n).

(** [`${n}`] for a length [n]. *)
Definition length_toString (n : nat) : string := Z_toString (Z.of_nat n).

Definition argSizeCheck (expectedSize : nat) (args : list value)
    (body : list value → M Heap value) : M Heap value :=
  let length := length args in
  if negb (length =? expectedSize)%nat then
    new_object (MError ("wrong number of arguments. got=" ++ length_toString length
                        ++ ", want=" ++ length_toString expectedSize))
  else body args.

(** [args[i]] *)
Definition nth_value (args : list value) (i : nat) : value :=
  default JSundefined (args !! i).

Definition arrayCheck (builtinName : string) (args : list value)
    (body : loc → nat → M Heap value) : M Heap value :=
  let first := nth_value args 0 in
  o ← deref first;
  match o with
  | Some (MArray elements) =>
      els ← array_at elements;
      body elements (length els)
  | _ =>
      t ← typeDesc first;
      new_object (MError ("argument to '" ++ builtinName ++ "' must be ARRAY, got " ++ t))
  end.

(** [elements.push(x)] on the array at address [a]. *)
Definition array_push (a : loc) (x : value) : M Heap unit := λ h,
  match arrays h !! a with
  | Some elements =>
      Ok tt {| objects := objects h;
               arrays := <[a := (elements ++ [x])%list]> (arrays h);
               environments := environments h |}
  | None => stuck h
  end.

Definition builtin_len (args : list value) : M Heap value :=
  argSizeCheck 1 args (λ it,
    let arg := nth_value it 0 in
    o ← deref arg;
    match o with
    | Some (MString value) => new_object (MInteger (number_of_nat (String.length value)))
    | Some (MArray elements) =>
        els ← array_at elements;
        new_object (MInteger (number_of_nat (length els)))
    | _ =>
        t ← typeDesc arg;
        new_object (MError ("argument to 'len' not supported, got " ++ t))
    end).

Definition builtin_push (args : list value) : M Heap value :=
  argSizeCheck 2 args (λ it,
    arrayCheck "push" it (λ elements _,
      array_push elements (nth_value args 1);;
      new_object (MArray elements))).

Definition builtin_first (args : list value) : M Heap value :=
  argSizeCheck 1 args (λ it,
    arrayCheck "first" it (λ elements length,
      if (0 <? length)%nat then
        els ← array_at elements; mret (nth_value els 0)
      else mret (Ref M_NULL))).

Definition builtin_last (args : list value) : M Heap value :=
  argSizeCheck 1 args (λ it,
    arrayCheck "last" it (λ elements length,
      if (0 <? length)%nat then
        els ← array_at elements; mret (nth_value els (length - 1))
      else mret (Ref M_NULL))).

Definition builtin_rest (args : list value) : M Heap value :=
  argSizeCheck 1 args (λ it,
    arrayCheck "rest" it (λ elements length,
      if (0 <? length)%nat then
        els ← array_at elements;
        sliced ← new_array (drop 1 els);
        new_object (MArray sliced)
      else mret (Ref M_NULL))).

(** [fn(args)] for the native function of a [MBuiltinFunction]. *)
Definition call_builtin (fn : BuiltinFunction) (args : list value) : M Heap value :=
  match fn with
  | LEN => builtin_len args
  | PUSH => builtin_push args
  | FIRST => builtin_first args
  | LAST => builtin_last args
  | REST => builtin_rest args
  end.

(** ** evaluator.ts *)

Definition newEnvironment : M Heap loc :=
  new_environment {| store := ∅; outer := None |}.

Definition newEnclosedEnvironment (outer : loc) : M Heap loc :=
  new_environment {| store := ∅; outer := Some outer |}.

(** [env.set(name, value)]: the [store] of the environment at [env] is
    updated in place. *)
Definition Environment_set (env : loc) (name : string) (v : value) : M Heap unit := λ h,
  match environments h !! env with
  | Some e =>
      Ok tt {| objects := objects h; arrays := arrays h;
               environments :=
                 <[env := {| store := <[name := v]> (store e); outer := outer e |}]>
                   (environments h) |}
  | None => stuck h
  end.

Definition Environment_put (env : loc) (name : string) (v : value) : M Heap value :=
  Environment_set env name v;; mret v.

(** [env.get(name)]: the chain of [outer] scopes is followed; [n] bounds
    its length. *)
Fixpoint Environment_get_chain (n : nat) (env : loc) (name : string) : M Heap value :=
  e ← environment_at env;
  let obj := default JSundefined (store e !! name) in
  match obj, outer e with
  | JSundefined, Some outer =>
      match n with
      | O => timeout
      | S n' => Environment_get_chain n' outer name
      end
  | JSundefined, None => mret JSnull
  | _, _ => mret obj
  end.

Definition Environment_get (env : loc) (name : string) : M Heap value :=
  h ← get;
  Environment_get_chain (length (environments h)) env name.

(** A value is an instance of a class when it refers to an object of it. *)
Definition isError (obj : value) : M Heap bool :=
  o ← deref obj;
  match o with
  | Some (MError _) => mret true
  | _ => mret false
  end.

Definition ifNotError (obj : value) (body : loc → M Heap value) : M Heap value :=
  match obj with
  | Ref l =>
      o ← object_at l;
      match o with
      | MError _ => mret obj
      | _ => body l
      end
  | _ => mret obj
  end.

Definition toMonkey (b : bool) : value := if b then Ref TRUE else Ref FALSE.

Definition evalBangOperatorExpression (rhs : loc) : value :=
  if decide (rhs = TRUE) then Ref FALSE
  else if decide (rhs = FALSE) then Ref TRUE
  else if decide (rhs = NULL) then Ref TRUE
  else Ref FALSE.

Definition evalMinusPrefixOperatorExpression (rhs : loc) : M Heap value :=
  o ← object_at rhs;
  match o with
  | MInteger value => new_object (MInteger (SFopp value))
  | _ => new_object (MError ("unknown operator: -" ++ className o))
  end.

Definition evalIntegerInfixExpression (operator : string) (l r : number) : M Heap value :=
  if String.eqb operator "+" then new_object (MInteger (SFadd prec emax l r))
  else if String.eqb operator "-" then new_object (MInteger (SFsub prec emax l r))
  else if String.eqb operator "*" then new_object (MInteger (SFmul prec emax l r))
  else if String.eqb operator "/" then new_object (MInteger (SFdiv prec emax l r))
  else if String.eqb operator "<" then mret (toMonkey (SFltb l r))
  else if String.eqb operator ">" then mret (toMonkey (SFltb r l))
  else if String.eqb operator "==" then mret (toMonkey (SFeqb l r))
  else if String.eqb operator "!=" then mret (toMonkey (negb (SFeqb l r)))
  else new_object (MError ("unknown operator: MInteger " ++ operator ++ " MInteger")).

Definition evalInfixExpression (operator : string) (lhs rhs : loc) : M Heap value :=
  l ← object_at lhs;
  r ← object_at rhs;
  match l, r with
  | MInteger lv, MInteger rv => evalIntegerInfixExpression operator lv rv
  | _, _ =>
      if String.eqb operator "==" then mret (toMonkey (bool_decide (lhs = rhs)))
      else if String.eqb operator "!=" then mret (toMonkey (negb (bool_decide (lhs = rhs))))
      else if negb (String.eqb (className l) (className r)) then
        new_object (MError ("type mismatch: " ++ className l ++ " " ++ operator
                            ++ " " ++ className r))
      else
        match l, r with
        | MString lv, MString rv =>
            if String.eqb operator "+" then new_object (MString (lv ++ rv))
            else new_object (MError ("unknown operator: " ++ className l ++ " "
                                     ++ operator ++ " " ++ className r))
        | _, _ =>
            new_object (MError ("unknown operator: " ++ className l ++ " "
                                ++ operator ++ " " ++ className r))
        end
  end.

(** An integral [number] as an array index; [None] when [elements[i]] reads
    a property that an array does not have. *)
Definition array_index (i : number) : option nat :=
  match i with
  | S754_zero _ => Some 0
  | S754_finite false m (Zneg k) =>
      if (Zpos m mod Z.pow 2 (Zpos k) =? 0)%Z
      then Some (Z.to_nat (Zpos m / Z.pow 2 (Zpos k)))
      else None
  | S754_finite false m e => Some (Z.to_nat (Zpos m * Z.pow 2 e))
  | _ => None
  end.

(** [elements[i]] *)
Definition array_get (elements : list value) (i : number) : value :=
  match array_index i with
  | Some n => nth_value elements n
  | None => JSundefined
  end.

Definition evalArrayIndexExpression (array : loc) (index : number) : M Heap value :=
  elements ← array_at array;
  let i := index in
  let max := SFsub prec emax (number_of_nat (length elements)) (number_of_Z 1) in
  if SFltb i (number_of_Z 0) || SFltb max i then mret (Ref NULL)
  else mret (array_get elements i).

Definition isTruthy (condition : loc) : bool :=
  if decide (condition = NULL) then false
  else if decide (condition = TRUE) then true
  else negb (bool_decide (condition = FALSE)).

Definition lookup_builtin (name : string) : option loc := assoc name builtins.

Section EvaluatorWithHost.
Context `{Host}.

Definition evalHashIndexExpression (pairs : gmap string HashPair) (index : value)
    : M Heap value :=
  o ← deref index;
  match o ≫= hashKey with
  | Some k =>
      match pairs !! k with
      | Some p => mret (pair_value p)
      | None => mret (Ref NULL)
      end
  | None =>
      t ← typeDesc index;
      new_object (MError ("unusable as a hash key: " ++ t))
  end.

(** The functions below call [evaluateNode] on sub-nodes: they are written
    against the evaluator at the fuel below, and [evaluateNode] ties the
    knot. *)
Section Eval.
Variable evaluateNode : option Node → loc → M Heap value.

Fixpoint evalStatements (statements : list (option Node)) (env : loc)
    (result : value) : M Heap value :=
  match statements with
  | [] => mret result
  | statement :: rest =>
      result ← evaluateNode statement env;
      o ← deref result;
      match o with
      | Some (MReturnValue _) | Some (MError _) => mret result
      | _ => evalStatements rest env result
      end
  end.

Definition evalBlockStatement (node : BlockStatement) (env : loc) : M Heap value :=
  match node with
  | mkBlockStatement _ (Some statements) => evalStatements statements env JSnull
  | mkBlockStatement _ None => mret JSnull
  end.

(** The loop of [evalExpressions]; [evalList] holds what has been pushed. *)
Fixpoint evalExpressions_for (args : list (option Node)) (env : loc)
    (evalList : list value) : M Heap (list value) :=
  match args with
  | [] => mret evalList
  | argument :: rest =>
      evaluated ← evaluateNode argument env;
      e ← isError evaluated;
      if e : bool then mret [evaluated]
      else evalExpressions_for rest env (evalList ++ [evaluated])
  end.

Definition evalExpressions (args : option (list (option Node))) (env : loc)
    : M Heap (list value) :=
  match args with
  | Some args => evalExpressions_for args env []
  | None => throw "TypeError: args is not iterable"
  end.

(** [parameters.forEach((identifier, i) => env.set(identifier.value, args[i]))] *)
Fixpoint bindParameters (env : loc) (parameters : list Identifier) (i : nat)
    (args : list value) : M Heap unit :=
  match parameters with
  | [] => mret tt
  | identifier :: rest =>
      Environment_set env (id_value identifier) (nth_value args i);;
      bindParameters env rest (S i) args
  end.

Definition extendFunctionEnv (fun_env : loc) (parameters : option (list Identifier))
    (args : list value) : M Heap loc :=
  env ← newEnclosedEnvironment fun_env;
  match parameters with
  | Some ps => bindParameters env ps 0 args
  | None => mret tt
  end;;
  mret env.

Definition applyFunction (fun_ : loc) (args : list value) : M Heap value :=
  f ← object_at fun_;
  match f with
  | MFunction parameters body env =>
      extendEnv ← extendFunctionEnv env parameters args;
      evaluated ← evaluateNode (option_map Block body) extendEnv;
      o ← deref evaluated;
      match o with
      | Some (MReturnValue v) => mret (Ref v)
      | _ => mret evaluated
      end
  | MBuiltinFunction fn =>
      result ← call_builtin fn args;
      match result with
      | JSnull => mret (Ref NULL)
      | _ => mret result
      end
  | _ => new_object (MError ("not a function: " ++ className f))
  end.

(** The loop of the [HashLiteral] case. *)
Fixpoint evalHashLiteral_for (node_pairs : list (Node * Node)) (env : loc)
    (pairs : gmap string HashPair) : M Heap value :=
  match node_pairs with
  | [] => new_object (MHash pairs)
  | (keyNode, valueNode) :: rest =>
      key ← evaluateNode (Some keyNode) env;
      e ← isError key;
      if e : bool then mret key else
      o ← deref key;
      match key, o ≫= hashKey with
      | Ref k, Some hk =>
          v ← evaluateNode (Some valueNode) env;
          e ← isError v;
          if e : bool then mret v else
          evalHashLiteral_for rest env (<[hk := mkHashPair k v]> pairs)
      | _, _ =>
          t ← typeDesc key;
          new_object (MError ("unusable as hash key: " ++ t))
      end
  end.

Definition evaluateNode_body (node : option Node) (env : loc) : M Heap value :=
  match node with
  | Some (Ident i) =>
      v ← Environment_get env (id_value i);
      match v with
      | JSnull =>
          match lookup_builtin (id_value i) with
          | Some builtin => mret (Ref builtin)
          | None => new_object (MError ("identifier not found: " ++ id_value i))
          end
      | _ => mret v
      end
  | Some (IntegerLiteral _ v) => new_object (MInteger v)
  | Some (InfixExpression _ lhs operator rhs) =>
      l ← evaluateNode lhs env;
      ifNotError l (λ l,
        r ← evaluateNode rhs env;
        ifNotError r (λ r, evalInfixExpression operator l r))
  | Some (Block b) => evalBlockStatement b env
  | Some (ExpressionStatement _ expression) => evaluateNode expression env
  | Some (IfExpression _ condition consequence alternative) =>
      c ← evaluateNode condition env;
      ifNotError c (λ c,
        if isTruthy c then evaluateNode (option_map Block consequence) env
        else match alternative with
             | Some a => evalBlockStatement a env
             | None => mret (Ref NULL)
             end)
  | Some (CallExpression _ fun_ args) =>
      f ← evaluateNode fun_ env;
      ifNotError f (λ f,
        args ← evalExpressions args env;
        match args with
        | [a] =>
            e ← isError a;
            if e : bool then mret a else applyFunction f args
        | _ => applyFunction f args
        end)
  | Some (ReturnStatement _ returnValue) =>
      v ← evaluateNode returnValue env;
      ifNotError v (λ v, new_object (MReturnValue v))
  | Some (PrefixExpression _ operator rhs) =>
      r ← evaluateNode rhs env;
      ifNotError r (λ r,
        if String.eqb operator "!" then mret (evalBangOperatorExpression r)
        else if String.eqb operator "-" then evalMinusPrefixOperatorExpression r
        else
          t ← typeDesc (Ref r);
          new_object (MError ("Unknown operator: " ++ operator ++ t)))
  | Some (BooleanLiteral _ v) => mret (toMonkey v)
  | Some (LetStatement _ name v) =>
      v ← evaluateNode v env;
      ifNotError v (λ v, Environment_put env (id_value name) (Ref v))
  | Some (FunctionLiteral _ parameters body _) =>
      new_object (MFunction parameters body env)
  | Some (StringLiteral _ v) => new_object (MString v)
  | Some (IndexExpression _ lhs index) =>
      l ← evaluateNode lhs env;
      e ← isError l;
      if e : bool then mret l else
      i ← evaluateNode index env;
      e ← isError i;
      if e : bool then mret i else
      lo ← deref l;
      io ← deref i;
      match lo, io with
      | Some (MArray elements), Some (MInteger iv) =>
          evalArrayIndexExpression elements iv
      | Some (MHash pairs), _ => evalHashIndexExpression pairs i
      | _, _ =>
          t ← typeDesc l;
          new_object (MError ("index operator not supported: " ++ t))
      end
  | Some (HashLiteral _ node_pairs) => evalHashLiteral_for node_pairs env ∅
  | Some (ArrayLiteral _ elements) =>
      elements ← evalExpressions elements env;
      match elements with
      | [a] =>
          e ← isError a;
          if e : bool then mret a
          else arr ← new_array elements; new_object (MArray arr)
      | _ => arr ← new_array elements; new_object (MArray arr)
      end
  | None => throw "Error: undefined => undefined"
  end.

End Eval.

Fixpoint evaluateNode (fuel : nat) : option Node → loc → M Heap value :=
  match fuel with
  | O => λ _ _, timeout
  | S fuel' => evaluateNode_body (evaluateNode fuel')
  end.

(** The loop of [evaluate]. *)
Fixpoint evaluate_for (fuel : nat) (statements : list Node) (env : loc)
    (result : value) : M Heap value :=
  match statements with
  | [] => mret result
  | statement :: rest =>
      result ← evaluateNode fuel (Some statement) env;
      o ← deref result;
      match o with
      | Some (MReturnValue v) => mret (Ref v)
      | Some (MError _) => mret result
      | _ => evaluate_for fuel rest env result
      end
  end.

Definition evaluate (fuel : nat) (program : Program) (env : loc) : M Heap value :=
  evaluate_for fuel (program_statements program) env JSnull.

(** The test helper [testEval]: parse, then evaluate in a fresh environment
    on the heap [h]. *)
Definition testEval (fuel : nat) (input : string) (h : Heap) : outcome Heap value :=
  match parse fuel input with
  | Ok (program, _) _ => (env ← newEnvironment; evaluate fuel program env) h
  | Throw e => Throw e
  | Timeout => Timeout
  end.

End EvaluatorWithHost.

(** [n] successive calls of [nextToken], with the tokens they return. *)
Fixpoint nextTokens `{Host} (n : nat) (l : Lexer) : option (list Token * Lexer) :=
  match n with
  | O => Some ([], l)
  | S n' =>
      '(t, l1) ← nextToken l;
      '(ts, l2) ← nextTokens n' l1;
      Some (t :: ts, l2)
  end.

(** The lexer's state between two calls: [ch] is the character at
    [position], or [ZERO] past the end, and [readPosition] is one ahead. *)
Definition lexer_wf (l : Lexer) : Prop :=
  readPosition l = S (position l) ∧
  ch l = if (String.length (input l) <=? position l)%nat then ZERO
         else charAt (input l) (position l).

(** The source text of the comparison of two string literals, and a heap
    with one array of one element, used as concrete inputs below. *)
Definition string_comparison_source : string :=
  DQUOTE ++ "a" ++ DQUOTE ++ " == " ++ DQUOTE ++ "a" ++ DQUOTE.

Definition heap_with_array : Heap := {|
  objects := objects initial_heap ++ [MInteger (number_of_Z 1); MArray 0];
  arrays := [[Ref 8]];
  environments := [];
|}.

(** Left-to-right evaluation of the arguments [args] from the heap [h],
    none of which is an error: the values are [vs] and the heap is then [h']. *)
Fixpoint evaluated_in_order (ev : option Node → loc → M Heap value) (env : loc)
    (args : list (option Node)) (h : Heap) (vs : list value) (h' : Heap) : Prop :=
  match args, vs with
  | [], [] => h' = h
  | argument :: rest, v :: vs' =>
      ∃ h1, ev argument env h = Ok v h1 ∧ isError v h1 = Ok false h1 ∧
            evaluated_in_order ev env rest h1 vs' h'
  | _, _ => False
  end.

(** The call [len(1, nope, 2)], whose second argument is an unbound
    identifier, and a heap with one empty environment. *)
Definition example_callee : Node := Ident (mkIdentifier (mkToken IDENT "len") "len").
Definition example_one : Node := IntegerLiteral (mkToken INT "1") (number_of_Z 1).
Definition example_unbound : Node := Ident (mkIdentifier (mkToken IDENT "nope") "nope").
Definition example_two : Node := IntegerLiteral (mkToken INT "2") (number_of_Z 2).
Definition heap_with_environment : Heap := {|
  objects := objects initial_heap;
  arrays := [];
  environments := [ {| store := ∅; outer := None |} ];
|}.

(** [TRUE], [FALSE] and [NULL] are the only Boolean and Null objects of a
    heap. *)
Definition is_Boolean_or_Null (o : MObject) : Prop :=
  match o with
  | MBoolean _ | MNull => True
  | _ => False
  end.

Definition canonical (h : Heap) : Prop :=
  ∀ l o, objects h !! l = Some o →
    match o with
    | MBoolean b => Ref l = toMonkey b
    | MNull => l = NULL
    | _ => True
    end.

(** [h'] has the objects of [h] and, after them, new objects none of which
    is a Boolean or a Null. *)
Definition extends (h h' : Heap) : Prop :=
  ∃ fresh, objects h' = (objects h ++ fresh)%list ∧
           Forall (λ o, ¬ is_Boolean_or_Null o) fresh.

Definition allocates_no_Boolean_or_Null {A} (m : M Heap A) : Prop :=
  ∀ h a h', m h = Ok a h' → extends h h'.

(** The program [!true; 5 == 5;] as the parser builds it. *)
Definition example_program : Program := mkProgram
  [ ExpressionStatement (mkToken BANG "!")
      (Some (PrefixExpression (mkToken BANG "!") "!"
               (Some (BooleanLiteral (mkToken TRUE_ "true") true))));
    ExpressionStatement (mkToken INT "5")
      (Some (InfixExpression (mkToken EQ "==")
               (Some (IntegerLiteral (mkToken INT "5") (number_of_Z 5))) "=="
               (Some (IntegerLiteral (mkToken INT "5") (number_of_Z 5))))) ].

(** The integer that a [number] is, if it is one.  [-0] is the integer 0;
    infinities, [NaN] and fractions are no integers. *)
Definition integer_value (x : number) : option Z :=
  match x with
  | S754_zero _ => Some 0%Z
  | S754_finite s m (Zneg k) =>
      if (Zpos m mod 2 ^ Zpos k =? 0)%Z
      then Some (cond_Zopp s (Zpos m / 2 ^ Zpos k))
      else None
  | S754_finite s m e => Some (cond_Zopp s (Zpos m * 2 ^ e))
  | _ => None
  end.

(** The value of a finite [number] with mantissa [m] and exponent [e],
    scaled by 2^1074 (the least exponent is -1074). *)
Definition scaled (m : positive) (e : Z) : Z := (Zpos m * 2 ^ (e + 1074))%Z.

(** Mantissa and exponent of the [number] of a positive integer of at most
    53 bits: the integer shifted left to 53 bits. *)
Definition normal_mantissa (p : positive) : positive :=
  match (53 - Zpos (digits2_pos p))%Z with
  | Zpos k => Pos.iter xO p k
  | _ => p
  end.
Definition normal_exponent (p : positive) : Z := (Zpos (digits2_pos p) - 53)%Z.

(** The index expression [[1, 2][1]]. *)
Definition example_array : Node :=
  ArrayLiteral (mkToken LBRACKET "[") (Some [Some example_one; Some example_two]).

(** [m'] has the outcome of [m] wherever [m] does not run out of fuel. *)
Definition refines {S A} (m m' : M S A) : Prop :=
  ∀ s, m s = Timeout ∨ m s = m' s.

Definition fns_refines (a b : ParserFns) : Prop :=
  (∀ p, refines (self_parseExpression a p) (self_parseExpression b p)) ∧
  refines (self_parseStatement a) (self_parseStatement b).

(** The object that an evaluation returns, if it returns one. *)
Definition result_object (o : outcome Heap value) : option MObject :=
  match o with
  | Ok (Ref l) h => objects h !! l
  | _ => None
  end.

(** Source texts of the test suite that contain string literals. *)
Definition hash_index_source : string :=
  "{" ++ DQUOTE ++ "name" ++ DQUOTE ++ ": " ++ DQUOTE ++ "Monkey" ++ DQUOTE
    ++ "}[fn(x) {x}];".
Definition concatenation_source : string :=
  DQUOTE ++ "Hello" ++ DQUOTE ++ " + " ++ DQUOTE ++ " " ++ DQUOTE ++ " + "
    ++ DQUOTE ++ "World!" ++ DQUOTE.

(** ** Further definitions used in statements *)

(** A parser whose current and next token are both the token [t], over a
    lexer that returns [t] again and again. *)
Definition stuck_parser `{Host} (t : Token) (p : Parser) : Prop :=
  curToken p = t ∧ peekToken p = t ∧ nextToken (lexer p) = Some (t, lexer p).

(** Every [outer] scope was created before the scope that it encloses. *)
Definition scopes_wf (h : Heap) : Prop :=
  ∀ env e o, environments h !! env = Some e → outer e = Some o → o < env.

(** A heap with a global scope that binds [x] and [len], and a scope
    enclosed by it that binds [y]. *)
Definition global_scope : Environment :=
  {| store := {[ "x" := Ref 8; "len" := Ref 8 ]}; outer := None |}.
Definition inner_scope : Environment :=
  {| store := {[ "y" := Ref 9 ]}; outer := Some 0 |}.
Definition heap_with_scopes : Heap := {|
  objects := objects initial_heap ++ [MInteger (number_of_Z 1); MInteger (number_of_Z 2)];
  arrays := [];
  environments := [ global_scope; inner_scope ];
|}.

(** A value after which a block or a program goes on to its next
    statement: no [MReturnValue] and no [MError]. *)
Definition goes_on (v : value) (h : Heap) : Prop :=
  match v with
  | Ref l =>
      ∃ o, objects h !! l = Some o ∧
           match o with MReturnValue _ | MError _ => False | _ => True end
  | _ => True
  end.

(** The statements evaluate one after the other from the heap [h], each to
    a value after which the evaluation goes on; the last value is [result']
    ([result] when there is no statement) and the heap is then [h']. *)
Fixpoint statements_go_on (ev : option Node → loc → M Heap value) (env : loc)
    (statements : list (option Node)) (h : Heap) (result : value)
    (h' : Heap) (result' : value) : Prop :=
  match statements with
  | [] => h' = h ∧ result' = result
  | statement :: rest =>
      ∃ v h1, ev statement env h = Ok v h1 ∧ goes_on v h1 ∧
              statements_go_on ev env rest h1 v h' result'
  end.

(** The statements [1;] and [return 2;], and the expression [nope]. *)
Definition example_statement : Node :=
  ExpressionStatement (mkToken INT "1") (Some example_one).
Definition example_return : Node :=
  ReturnStatement (mkToken RETURN "return") (Some example_two).
Definition example_failure : Node :=
  ExpressionStatement (mkToken IDENT "nope") (Some example_unbound).

(** The entries of the [builtins] table: the name under which each native
    function is registered, which is also the name its messages carry, and
    the size it passes to [argSizeCheck]. *)
Definition builtin_name (fn : BuiltinFunction) : string :=
  match fn with
  | LEN => "len" | PUSH => "push" | FIRST => "first" | LAST => "last" | REST => "rest"
  end.

Definition builtin_arity (fn : BuiltinFunction) : nat :=
  match fn with
  | PUSH => 2
  | _ => 1
  end.

(** The heap [h] with one more object. *)
Definition with_object (h : Heap) (o : MObject) : Heap :=
  {| objects := objects h ++ [o]; arrays := arrays h; environments := environments h |}.

(** The [store] after [parameters.forEach(...)] of [extendFunctionEnv]: the
    parameters from position [i] on are set, one after the other, to the
    arguments at their positions. *)
Fixpoint bound_store (parameters : list Identifier) (i : nat) (args : list value)
    (s : gmap string value) : gmap string value :=
  match parameters with
  | [] => s
  | identifier :: rest =>
      bound_store rest (S i) args (<[id_value identifier := nth_value args i]> s)
  end.

(** The parameters [x, y] and the string literal [a]. *)
Definition example_parameters : list Identifier :=
  [ mkIdentifier (mkToken IDENT "x") "x"; mkIdentifier (mkToken IDENT "y") "y" ].
Definition example_string : Node := StringLiteral (mkToken STRING "a") "a".

(** A complete node: no child is [null], but for the alternative of an
    [if], which may be missing. *)
Fixpoint complete (n : Node) : bool :=
  let present := λ child : option Node,
    match child with Some c => complete c | None => false end in
  let all_present := λ children : option (list (option Node)),
    match children with Some l => forallb present l | None => false end in
  let present_block := λ block : option BlockStatement,
    match block with Some b => complete_block b | None => false end in
  match n with
  | Ident _ | StringLiteral _ _ | IntegerLiteral _ _ | BooleanLiteral _ _ => true
  | LetStatement _ _ value => present value
  | ExpressionStatement _ expression => present expression
  | ReturnStatement _ returnValue => present returnValue
  | PrefixExpression _ _ rhs => present rhs
  | InfixExpression _ lhs _ rhs => present lhs && present rhs
  | CallExpression _ fun_ args => present fun_ && all_present args
  | ArrayLiteral _ elements => all_present elements
  | IndexExpression _ lhs index => present lhs && present index
  | Block b => complete_block b
  | IfExpression _ condition consequence alternative =>
      present condition && present_block consequence
      && match alternative with Some a => complete_block a | None => true end
  | FunctionLiteral _ parameters body _ =>
      match parameters with Some _ => true | None => false end && present_block body
  | HashLiteral _ pairs => forallb (λ kv, complete (fst kv) && complete (snd kv)) pairs
  end
with complete_block (b : BlockStatement) : bool :=
  match b with
  | mkBlockStatement _ (Some statements) =>
      forallb (λ child, match child with Some c => complete c | None => false end)
        statements
  | mkBlockStatement _ None => false
  end.

Definition present (child : option Node) : bool :=
  match child with Some c => complete c | None => false end.

(** The parser [m] only appends to the list of errors, and what it returns
    when it has appended none satisfies [P]. *)
Definition reports {A} (m : M Parser A) (P : A → Prop) : Prop :=
  ∀ p a p', m p = Ok a p' →
    ∃ more, _errors p' = (_errors p ++ more)%list ∧ (more = [] → P a).

Definition fns_report (self : ParserFns) : Prop :=
  (∀ precedence, reports (self_parseExpression self precedence) (λ r, present r = true)) ∧
  reports (self_parseStatement self) (λ r, present r = true).

(** ** Well-formed heaps

    A value is valid in a heap when it is no dangling reference.  In a
    well-formed heap the objects of the initial heap exist, every address
    held by an object, an array or a scope is valid, every function has a
    complete body, and every [outer] scope is older than the scope it
    encloses. *)
Definition valid (h : Heap) (v : value) : Prop :=
  match v with
  | Ref l => l < length (objects h)
  | _ => True
  end.

Definition object_wf (h : Heap) (o : MObject) : Prop :=
  match o with
  | MReturnValue v => v < length (objects h)
  | MFunction _ body env =>
      env < length (environments h) ∧
      match body with Some b => complete_block b = true | None => False end
  | MArray a => a < length (arrays h)
  | MHash pairs => map_Forall (λ _ p, valid h (pair_value p)) pairs
  | _ => True
  end.

Definition heap_wf (h : Heap) : Prop :=
  length (objects initial_heap) ≤ length (objects h) ∧
  Forall (object_wf h) (objects h) ∧
  Forall (Forall (valid h)) (arrays h) ∧
  (∀ i e, environments h !! i = Some e →
     map_Forall (λ _ v, valid h v) (store e) ∧ ∀ o, outer e = Some o → o < i).

(** [h'] has at least the addresses of [h]. *)
Definition sizes_le (h h' : Heap) : Prop :=
  length (objects h) ≤ length (objects h') ∧
  length (arrays h) ≤ length (arrays h') ∧
  length (environments h) ≤ length (environments h').

(** From the well-formed heap [h] the computation [m] does not throw; when
    it returns, the heap is well formed, has the addresses of [h], and [Q]
    holds. *)
Definition safe_at {A} (h : Heap) (m : M Heap A) (Q : A → Heap → Prop) : Prop :=
  heap_wf h →
  match m h with
  | Ok a h' => heap_wf h' ∧ sizes_le h h' ∧ Q a h'
  | Throw _ => False
  | Timeout => True
  end.

(** An evaluator that is safe on every present node. *)
Definition evaluator_safe (ev : option Node → loc → M Heap value) : Prop :=
  ∀ node env h, present node = true → env < length (environments h) →
    safe_at h (ev node env) (λ v h', valid h' v).

(** * Properties *)

Local Open Scope list_scope.

(** ** The lexer *)

Section LexerFacts.
Context `{Host}.

Lemma readChar_wf l : lexer_wf (readChar l).
Proof. split; reflexivity. Qed.

Lemma newLexer_wf s : lexer_wf (newLexer s).
Proof. split; reflexivity. Qed.

Lemma readChar_past_end l :
  String.length (input l) ≤ readPosition l → ch (readChar l) = ZERO.
Proof.
  intros Hle. unfold readChar, peakChar; simpl.
  destruct (Nat.leb_spec (String.length (input l)) (readPosition l)); [done | lia].
Qed.

Lemma remaining_readChar l :
  readPosition l < String.length (input l) →
  S (remaining (readChar l)) = remaining l.
Proof. unfold remaining; simpl. lia. Qed.

(** A [while (predicate(ch)) readChar()] loop ends within the characters
    that remain, for a predicate that rejects [ZERO]. *)
Lemma while_readChar_total predicate :
  predicate ZERO = false →
  ∀ fuel l, remaining l < fuel ∨ ch l = ZERO →
    ∃ l', while_readChar fuel predicate l = Some l' ∧ input l' = input l
          ∧ (lexer_wf l → lexer_wf l').
Proof.
  intros Hzero fuel. induction fuel as [|fuel IH]; intros l Hl.
  - destruct Hl as [Hl | Hl]; [lia |].
    exists l. simpl. rewrite Hl, Hzero. auto.
  - simpl. destruct (predicate (ch l)) eqn:Hp; [| by exists l].
    assert (Hne : ch l ≠ ZERO) by (intros E; rewrite E, Hzero in Hp; done).
    destruct Hl as [Hl | Hl]; [| done].
    destruct (IH (readChar l)) as (l' & Heq & Hin & Hwf).
    { destruct (Nat.le_gt_cases (String.length (input l)) (readPosition l)) as [Hle | Hlt].
      - right. by apply readChar_past_end.
      - left. pose proof (remaining_readChar l Hlt). lia. }
    exists l'. split; [done|]. split; [done|].
    intros _. apply Hwf, readChar_wf.
Qed.

Lemma readString_loop_total fuel :
  ∀ l, remaining l ≤ fuel →
    ∃ l', readString_loop fuel l = Some l' ∧ input l' = input l ∧ lexer_wf l'.
Proof.
  induction fuel as [|fuel IH]; intros l Hl; cbn [readString_loop].
  - rewrite readChar_past_end by (unfold remaining in Hl; lia).
    rewrite orb_true_r. eexists; split; [done|]. split; [done|]. apply readChar_wf.
  - destruct (String.eqb (ch (readChar l)) DQUOTE || String.eqb (ch (readChar l)) ZERO) eqn:E.
    + eexists; split; [done|]. split; [done|]. apply readChar_wf.
    + destruct (Nat.le_gt_cases (String.length (input l)) (readPosition l)) as [Hle | Hlt].
      * rewrite readChar_past_end in E by done. by rewrite orb_true_r in E.
      * destruct (IH (readChar l)) as (l' & Heq & Hin & Hwf).
        { pose proof (remaining_readChar l Hlt). lia. }
        exists l'. by rewrite Heq, Hin.
Qed.

Lemma isIdentifier_ZERO : isIdentifier ZERO = false.
Proof.
  unfold isIdentifier, ZERO. by rewrite toLowerCase_empty, toUpperCase_empty.
Qed.

Lemma skipWhitespace_total l :
  ∃ l', skipWhitespace l = Some l' ∧ input l' = input l
        ∧ (lexer_wf l → lexer_wf l').
Proof.
  apply (while_readChar_total (includes WHITE_SPACES) eq_refl). left; lia.
Qed.

Lemma readValue_total predicate l :
  predicate ZERO = false →
  ∃ s l', readValue predicate l = Some (s, l') ∧ input l' = input l
          ∧ (lexer_wf l → lexer_wf l').
Proof.
  intros Hzero. unfold readValue.
  destruct (while_readChar_total predicate Hzero (S (remaining l)) l)
    as (l' & Heq & ? & ?); [left; lia|].
  rewrite Heq. simpl. eauto 10.
Qed.

Lemma readString_total l :
  ∃ s l', readString l = Some (s, l') ∧ input l' = input l ∧ lexer_wf l'.
Proof.
  unfold readString.
  destruct (readString_loop_total (remaining l) l) as (l' & Heq & ? & ?); [lia|].
  rewrite Heq. simpl. eauto.
Qed.

(** [nextToken] returns a token from every state, and keeps the state
    well formed over the same input. *)
Lemma nextToken_returns l :
  ∃ t l', nextToken l = Some (t, l') ∧ input l' = input l
          ∧ (lexer_wf l → lexer_wf l').
Proof.
  unfold nextToken.
  destruct (skipWhitespace_total l) as (l1 & -> & Hin & Hwf). simpl.
  pose proof readChar_wf as Hrc.
  destruct (String.eqb (ch l1) "=").
  { unfold endsWithEqual. destruct (String.eqb (peakChar l1) "=");
      eexists _, _; (split; [reflexivity|]); simpl; auto. }
  destruct (String.eqb (ch l1) "!").
  { unfold endsWithEqual. destruct (String.eqb (peakChar l1) "=");
      eexists _, _; (split; [reflexivity|]); simpl; auto. }
  destruct (single_char_token (ch l1)).
  { eexists _, _; split; [reflexivity|]. simpl. auto. }
  destruct (String.eqb (ch l1) DQUOTE).
  { destruct (readString_total l1) as (s & l2 & -> & Hin2 & Hwf2). simpl.
    eexists _, _; split; [reflexivity|]. simpl. split; [congruence | auto]. }
  destruct (String.eqb (ch l1) ZERO).
  { eexists _, _; split; [reflexivity|]. simpl. auto. }
  destruct (isIdentifier (ch l1)).
  { destruct (readValue_total isIdentifier l1 isIdentifier_ZERO)
      as (s & l2 & Heq & Hin2 & Hwf2).
    unfold readIdentifier. rewrite Heq. simpl.
    eexists _, _; split; [reflexivity|]. split; [congruence | auto]. }
  destruct (isDigit (ch l1)).
  { destruct (readValue_total isDigit l1 eq_refl) as (s & l2 & Heq & Hin2 & Hwf2).
    unfold readNumber. rewrite Heq. simpl.
    eexists _, _; split; [reflexivity|]. split; [congruence | auto]. }
  eexists _, _; split; [reflexivity|]. auto.
Qed.

(** Past the end of the input the token is [(EOF, "")], and the lexer stays
    past the end. *)
Lemma nextToken_at_end l :
  lexer_wf l → String.length (input l) ≤ position l →
  nextToken l = Some (mkToken EOF "", readChar l).
Proof.
  intros [Hrp Hch] Hend.
  assert (Hz : ch l = ZERO).
  { rewrite Hch. by destruct (Nat.leb_spec (String.length (input l)) (position l)); [|lia]. }
  assert (Hskip : skipWhitespace l = Some l).
  { unfold skipWhitespace. cbn [while_readChar]. by rewrite Hz. }
  unfold nextToken. rewrite Hskip. cbn [mbind option_bind]. by rewrite Hz.
Qed.

Lemma nextTokens_at_end k :
  ∀ l, lexer_wf l → String.length (input l) ≤ position l →
  ∃ l', nextTokens k l = Some (repeat (mkToken EOF "") k, l').
Proof.
  induction k as [|k IH]; intros l Hwf Hend; simpl.
  - eauto.
  - rewrite nextToken_at_end by done. simpl.
    destruct (IH (readChar l)) as (l' & ->).
    + apply readChar_wf.
    + destruct Hwf as [Hrp _]. simpl. lia.
    + simpl. eauto.
Qed.

Lemma nextTokens_returns n :
  ∀ l, ∃ ts l', nextTokens n l = Some (ts, l') ∧ input l' = input l
                ∧ (lexer_wf l → lexer_wf l').
Proof.
  induction n as [|n IH]; intros l; simpl.
  - eauto.
  - destruct (nextToken_returns l) as (t & l1 & -> & Hin & Hwf). simpl.
    destruct (IH l1) as (ts & l2 & -> & Hin2 & Hwf2). simpl.
    eexists _, _; split; [reflexivity|]. split; [congruence | auto].
Qed.

End LexerFacts.

(** C7.  [Lexer.nextToken()] is total: from every lexer state it returns a
    token, so any number of calls on any input all return.  Once the input
    is exhausted (the position has reached the length of the input), every
    further call returns the token [(EOF, "")], however many calls follow. *)
Theorem nextToken_total_EOF_forever `{Host} (source : string) :
  (∀ l : Lexer, ∃ t l', nextToken l = Some (t, l')) ∧
  (∀ n : nat, ∃ ts l, nextTokens n (newLexer source) = Some (ts, l) ∧
     (String.length source ≤ position l →
      ∀ k : nat, ∃ l', nextTokens k l = Some (repeat (mkToken EOF "") k, l'))).
Proof.
  split.
  - intros l. destruct (nextToken_returns l) as (t & l' & ? & _). eauto.
  - intros n.
    destruct (nextTokens_returns n (newLexer source)) as (ts & l & Heq & Hin & Hwf).
    exists ts, l. split; [done|]. intros Hend k.
    apply nextTokens_at_end; [apply Hwf, newLexer_wf |].
    by rewrite Hin.
Qed.

Lemma nextToken_total_EOF_forever_witness :
  ∃ ts l,
    nextTokens (H := ascii_host) 1 (newLexer "a") = Some (ts, l) ∧
    ∃ l', nextTokens (H := ascii_host) 3 l = Some (repeat (mkToken EOF "") 3, l').
Proof.
  destruct (proj2 (nextToken_total_EOF_forever (H := ascii_host) "a") 1)
    as (ts & l & Heq & Hend).
  exists ts, l. split; [exact Heq|]. apply Hend.
  vm_compute in Heq. injection Heq as <- <-. simpl. lia.
Defined.

(** ** Fuel

    More fuel never changes an outcome other than [Timeout]. *)

Lemma refines_refl {S A} (m : M S A) : refines m m.
Proof. intros s. by right. Qed.

Lemma refines_timeout {S A} (m : M S A) : refines timeout m.
Proof. intros s. by left. Qed.

Lemma refines_bind {S A B} (m m' : M S A) (k k' : A → M S B) :
  refines m m' → (∀ a, refines (k a) (k' a)) → refines (m ≫= k) (m' ≫= k').
Proof.
  intros Hm Hk s. unfold mbind, M_bind.
  destruct (Hm s) as [-> | ->]; [by left|].
  destruct (m' s); [apply Hk | by right | by right].
Qed.

Lemma refines_Ok {S A} (m m' : M S A) s a s' :
  refines m m' → m s = Ok a s' → m' s = Ok a s'.
Proof. intros Hm Heq. destruct (Hm s) as [E | E]; congruence. Qed.

(** Structural steps of a refinement proof: binds, conditionals and
    matches on the same scrutinee. *)
Ltac refines_step :=
  first
    [ apply refines_refl
    | apply refines_timeout
    | solve [auto 2]
    | apply refines_bind; [| intros ?]
    | match goal with
      | |- refines (if ?b then _ else _) (if ?b then _ else _) => destruct b
      | |- refines (match ?x with _ => _ end) (match ?x with _ => _ end) =>
          destruct x
      end ].
Ltac refines_auto := repeat refines_step.

Section ParserFuel.
Context `{Host}.

Lemma parseFunctionParameters_while_mono n :
  ∀ n' ps, n ≤ n' →
  refines (parseFunctionParameters_while n ps) (parseFunctionParameters_while n' ps).
Proof.
  induction n as [|n IH]; intros [|n'] ps Hle; try lia; simpl; refines_auto.
  apply IH; lia.
Qed.

Lemma skipSemicolons_mono n :
  ∀ n', n ≤ n' → refines (skipSemicolons n) (skipSemicolons n').
Proof.
  induction n as [|n IH]; intros [|n'] Hle; try lia; simpl; refines_auto.
  apply IH; lia.
Qed.

Section Step.
Variables (n n' : nat) (self self' : ParserFns).
Hypothesis Hn : n ≤ n'.
Hypothesis Hself : fns_refines self self'.

Lemma self_parseExpression_mono p :
  refines (self_parseExpression self p) (self_parseExpression self' p).
Proof. apply Hself. Qed.

Lemma self_parseStatement_mono :
  refines (self_parseStatement self) (self_parseStatement self').
Proof. apply Hself. Qed.

Hint Resolve self_parseExpression_mono self_parseStatement_mono : core.

Ltac mono := refines_auto; auto.

Lemma parseExpressionList_while_mono k :
  ∀ k' args, k ≤ k' →
  refines (parseExpressionList_while self k args)
          (parseExpressionList_while self' k' args).
Proof.
  induction k as [|k IH]; intros [|k'] args Hle; try lia; simpl; mono.
  apply IH; lia.
Qed.

Lemma parseExpressionList_mono e :
  refines (parseExpressionList n self e) (parseExpressionList n' self' e).
Proof.
  unfold parseExpressionList. mono. by apply parseExpressionList_while_mono.
Qed.

Lemma parseBlockStatement_while_mono k :
  ∀ k' sts, k ≤ k' →
  refines (parseBlockStatement_while self k sts)
          (parseBlockStatement_while self' k' sts).
Proof.
  induction k as [|k IH]; intros [|k'] sts Hle; try lia; simpl; mono;
    apply IH; lia.
Qed.

Lemma parseBlockStatement_mono :
  refines (parseBlockStatement n self) (parseBlockStatement n' self').
Proof.
  unfold parseBlockStatement. mono. by apply parseBlockStatement_while_mono.
Qed.

Lemma parseHashLiteral_while_mono k :
  ∀ k' token pairs, k ≤ k' →
  refines (parseHashLiteral_while self k token pairs)
          (parseHashLiteral_while self' k' token pairs).
Proof.
  induction k as [|k IH]; intros [|k'] token pairs Hle; try lia; simpl; mono;
    apply IH; lia.
Qed.

Lemma applyPrefix_mono prefix :
  refines (applyPrefix n self prefix) (applyPrefix n' self' prefix).
Proof.
  pose proof parseExpressionList_mono. pose proof parseBlockStatement_mono.
  destruct prefix; simpl; try apply refines_refl.
  - unfold parsePrefixExpression. mono.
  - unfold parseGroupExpression. mono.
  - unfold parseArrayLiteral. mono.
  - unfold parseIfExpression. mono.
  - unfold parseFunctionLiteral. mono. by apply parseFunctionParameters_while_mono.
  - unfold parseHashLiteral. mono. by apply parseHashLiteral_while_mono.
Qed.

Lemma applyInfix_mono infix lhs :
  refines (applyInfix n self infix lhs) (applyInfix n' self' infix lhs).
Proof.
  pose proof parseExpressionList_mono.
  destruct infix; simpl.
  - unfold parseInfixExpression. mono.
  - unfold parseCallExpression. mono.
  - unfold parseIndexExpression. mono.
Qed.

Lemma parseExpression_while_mono k :
  ∀ k' precedence lhs, k ≤ k' →
  refines (parseExpression_while n self k precedence lhs)
          (parseExpression_while n' self' k' precedence lhs).
Proof.
  pose proof applyInfix_mono.
  induction k as [|k IH]; intros [|k'] precedence lhs Hle; try lia; simpl; mono;
    apply IH; lia.
Qed.

Lemma parseExpression_body_mono precedence :
  refines (parseExpression_body n self precedence)
          (parseExpression_body n' self' precedence).
Proof.
  pose proof applyPrefix_mono.
  unfold parseExpression_body. mono. by apply parseExpression_while_mono.
Qed.

Lemma parseStatement_body_mono :
  refines (parseStatement_body n self) (parseStatement_body n' self').
Proof.
  unfold parseStatement_body, parseLetStatement, parseReturnStatement,
    parseExpressionStatement.
  mono; by apply skipSemicolons_mono.
Qed.

End Step.

Lemma parser_at_mono n : ∀ n', n ≤ n' → fns_refines (parser_at n) (parser_at n').
Proof.
  induction n as [|n IH]; intros n' Hle.
  - split; intros; apply refines_timeout.
  - destruct n' as [|n']; [lia|]. simpl. split; simpl.
    + intros p. apply parseExpression_body_mono; [lia | apply IH; lia].
    + apply parseStatement_body_mono; [lia | apply IH; lia].
Qed.

Lemma parseProgram_while_mono k :
  ∀ n n' k' sts, n ≤ n' → k ≤ k' →
  refines (parseProgram_while n k sts) (parseProgram_while n' k' sts).
Proof.
  induction k as [|k IH]; intros n n' [|k'] sts Hn Hk; try lia; simpl; refines_auto;
    try (by apply parser_at_mono); apply IH; lia.
Qed.

Lemma parse_mono n n' source r p :
  n ≤ n' → parse n source = Ok r p → parse n' source = Ok r p.
Proof.
  intros Hle. unfold parse. destruct (newParser (newLexer source)) as [[] p0| |]; try done.
  assert (Hr : refines (parseProgram n) (parseProgram n')).
  { unfold parseProgram. refines_auto. by apply parseProgram_while_mono. }
  destruct (Hr p0) as [-> | ->]; done.
Qed.

End ParserFuel.

Section EvaluatorFuel.
Context `{Host}.

Lemma ifNotError_mono obj (k k' : loc → M Heap value) :
  (∀ l, refines (k l) (k' l)) → refines (ifNotError obj k) (ifNotError obj k').
Proof. intros Hk. unfold ifNotError. refines_auto. Qed.

Section Step.
Variables ev ev' : option Node → loc → M Heap value.
Hypothesis Hev : ∀ node env, refines (ev node env) (ev' node env).

Hint Resolve Hev : core.

Lemma evalStatements_mono statements :
  ∀ env result,
  refines (evalStatements ev statements env result)
          (evalStatements ev' statements env result).
Proof. induction statements as [|st rest IH]; intros; simpl; refines_auto. Qed.

Lemma evalBlockStatement_mono node env :
  refines (evalBlockStatement ev node env) (evalBlockStatement ev' node env).
Proof.
  pose proof evalStatements_mono.
  destruct node as [? [?|]]; simpl; refines_auto.
Qed.

Lemma evalExpressions_for_mono args :
  ∀ env evalList,
  refines (evalExpressions_for ev args env evalList)
          (evalExpressions_for ev' args env evalList).
Proof. induction args as [|a rest IH]; intros; simpl; refines_auto. Qed.

Lemma evalExpressions_mono args env :
  refines (evalExpressions ev args env) (evalExpressions ev' args env).
Proof.
  pose proof evalExpressions_for_mono.
  destruct args; simpl; refines_auto.
Qed.

Lemma applyFunction_mono f args :
  refines (applyFunction ev f args) (applyFunction ev' f args).
Proof. unfold applyFunction. refines_auto. Qed.

Lemma evalHashLiteral_for_mono node_pairs :
  ∀ env pairs,
  refines (evalHashLiteral_for ev node_pairs env pairs)
          (evalHashLiteral_for ev' node_pairs env pairs).
Proof.
  induction node_pairs as [|[k v] rest IH]; intros; simpl; refines_auto.
Qed.

Lemma evaluateNode_body_mono node env :
  refines (evaluateNode_body ev node env) (evaluateNode_body ev' node env).
Proof.
  pose proof evalBlockStatement_mono. pose proof evalExpressions_mono.
  pose proof applyFunction_mono. pose proof evalHashLiteral_for_mono.
  destruct node as [[]|]; simpl;
    repeat first [ apply ifNotError_mono; intros ? | refines_step ].
Qed.

End Step.

Lemma evaluateNode_mono n :
  ∀ n' node env, n ≤ n' → refines (evaluateNode n node env) (evaluateNode n' node env).
Proof.
  induction n as [|n IH]; intros [|n'] node env Hle; try lia; simpl.
  - apply refines_refl.
  - apply refines_timeout.
  - apply evaluateNode_body_mono. intros. apply IH. lia.
Qed.

Lemma evaluate_mono n n' program env :
  n ≤ n' → refines (evaluate n program env) (evaluate n' program env).
Proof.
  intros Hle. unfold evaluate. generalize JSnull.
  induction (program_statements program) as [|st rest IH]; intros result; simpl;
    refines_auto.
  by apply evaluateNode_mono.
Qed.

Lemma testEval_mono n n' source h v h' :
  n ≤ n' → testEval n source h = Ok v h' → testEval n' source h = Ok v h'.
Proof.
  intros Hle. unfold testEval.
  destruct (parse n source) as [[program errs] p| |] eqn:Hp; try done.
  rewrite (parse_mono n n' _ _ _ Hle Hp).
  apply refines_Ok. refines_auto. by apply evaluate_mono.
Qed.

End EvaluatorFuel.

(** ** The parser *)

(** C9.  Parsing [a + b * c + d / e - f] yields a program without errors
    whose [toString()] is [(((a + (b * c)) + (d / e)) - f)]: infix operators
    associate to the left, and [*] and [/] bind tighter than [+] and [-].
    Any fuel from 20 on gives this result. *)
Theorem parse_operator_precedence (fuel : nat) :
  20 ≤ fuel →
  ∃ program p,
    parse (H := ascii_host) fuel "a + b * c + d / e - f" = Ok (program, []) p ∧
    Program_toString program = "(((a + (b * c)) + (d / e)) - f)".
Proof.
  intros Hfuel.
  destruct (parse (H := ascii_host) 20 "a + b * c + d / e - f")
    as [[program errs] p| |] eqn:Hp; try (vm_compute in Hp; discriminate).
  exists program, p. rewrite (parse_mono _ _ _ _ _ Hfuel Hp).
  vm_compute in Hp. injection Hp as <- <- <-. split; reflexivity.
Qed.

Lemma parse_operator_precedence_witness :
  ∃ program p,
    parse (H := ascii_host) 20 "a + b * c + d / e - f" = Ok (program, []) p ∧
    Program_toString program = "(((a + (b * c)) + (d / e)) - f)".
Proof. apply (parse_operator_precedence 20). lia. Defined.

(** ** The evaluator on concrete programs *)

(** C1, at the inputs of the claim.  [7 / 2] evaluates to an [MInteger]
    whose value [x] is three and a half ([x + x] is 7), not the quotient 3
    truncated toward zero; [-7 / 2] likewise evaluates to minus three and a
    half, not to -3. *)
Theorem integer_division_yields_fraction (fuel : nat) :
  20 ≤ fuel →
  (∃ l h x,
     testEval (H := ascii_host) fuel "7 / 2" initial_heap = Ok (Ref l) h ∧
     objects h !! l = Some (MInteger x) ∧
     SFadd prec emax x x = number_of_Z 7 ∧ x ≠ number_of_Z (Z.quot 7 2)) ∧
  (∃ l h x,
     testEval (H := ascii_host) fuel "-7 / 2" initial_heap = Ok (Ref l) h ∧
     objects h !! l = Some (MInteger x) ∧
     SFadd prec emax x x = number_of_Z (-7) ∧ x ≠ number_of_Z (Z.quot (-7) 2)).
Proof.
  intros Hfuel. split.
  - destruct (testEval (H := ascii_host) 20 "7 / 2" initial_heap)
      as [v h| |] eqn:He; try (vm_compute in He; discriminate).
    rewrite (testEval_mono _ _ _ _ _ _ Hfuel He).
    vm_compute in He. injection He as <- <-.
    eexists _, _, _. split; [reflexivity|]. split; [reflexivity|].
    split; [reflexivity | discriminate].
  - destruct (testEval (H := ascii_host) 20 "-7 / 2" initial_heap)
      as [v h| |] eqn:He; try (vm_compute in He; discriminate).
    rewrite (testEval_mono _ _ _ _ _ _ Hfuel He).
    vm_compute in He. injection He as <- <-.
    eexists _, _, _. split; [reflexivity|]. split; [reflexivity|].
    split; [reflexivity | discriminate].
Qed.

Lemma integer_division_yields_fraction_witness :
  ∃ l h x,
    testEval (H := ascii_host) 20 "7 / 2" initial_heap = Ok (Ref l) h ∧
    objects h !! l = Some (MInteger x) ∧
    SFadd prec emax x x = number_of_Z 7 ∧ x ≠ number_of_Z (Z.quot 7 2).
Proof. apply (integer_division_yields_fraction 20). lia. Defined.

(** C5, at a program that parses without errors.  The top-level statement
    [return if (true) { return 1; };] evaluates to a [ReturnValue] whose
    payload is itself a [ReturnValue]; [evaluate] unwraps one envelope and
    returns the inner [MReturnValue]. *)
Theorem evaluate_returns_MReturnValue (fuel : nat) :
  20 ≤ fuel →
  (∃ program p,
     parse (H := ascii_host) fuel "return if (true) { return 1; };"
       = Ok (program, []) p) ∧
  ∃ l h payload,
    testEval (H := ascii_host) fuel "return if (true) { return 1; };" initial_heap
      = Ok (Ref l) h ∧
    objects h !! l = Some (MReturnValue payload) ∧
    objects h !! payload = Some (MInteger (number_of_Z 1)).
Proof.
  intros Hfuel. split.
  - destruct (parse (H := ascii_host) 20 "return if (true) { return 1; };")
      as [[program errs] p| |] eqn:Hp; try (vm_compute in Hp; discriminate).
    exists program, p. rewrite (parse_mono _ _ _ _ _ Hfuel Hp).
    vm_compute in Hp. by injection Hp as <- <- <-.
  - destruct (testEval (H := ascii_host) 20 "return if (true) { return 1; };"
                initial_heap) as [v h| |] eqn:He; try (vm_compute in He; discriminate).
    rewrite (testEval_mono _ _ _ _ _ _ Hfuel He).
    vm_compute in He. injection He as <- <-.
    eexists _, _, _. split; [reflexivity|]. split; reflexivity.
Qed.

Lemma evaluate_returns_MReturnValue_witness :
  ∃ l h payload,
    testEval (H := ascii_host) 20 "return if (true) { return 1; };" initial_heap
      = Ok (Ref l) h ∧
    objects h !! l = Some (MReturnValue payload) ∧
    objects h !! payload = Some (MInteger (number_of_Z 1)).
Proof. apply (evaluate_returns_MReturnValue 20). lia. Defined.

(** C3, at a hash literal whose key is a function.  The error of the
    [HashLiteral] case reads [unusable as hash key: MFunction], without the
    article that the message of the index expression has. *)
Theorem hash_literal_key_error_message (fuel : nat) :
  20 ≤ fuel →
  ∃ l h,
    testEval (H := ascii_host) fuel "{fn(x){x}: 1}" initial_heap = Ok (Ref l) h ∧
    objects h !! l = Some (MError "unusable as hash key: MFunction") ∧
    objects h !! l ≠ Some (MError "unusable as a hash key: MFunction").
Proof.
  intros Hfuel.
  destruct (testEval (H := ascii_host) 20 "{fn(x){x}: 1}" initial_heap)
    as [v h| |] eqn:He; try (vm_compute in He; discriminate).
  rewrite (testEval_mono _ _ _ _ _ _ Hfuel He).
  vm_compute in He. injection He as <- <-.
  eexists _, _. split; [reflexivity|]. split; [reflexivity | discriminate].
Qed.

Lemma hash_literal_key_error_message_witness :
  ∃ l h,
    testEval (H := ascii_host) 20 "{fn(x){x}: 1}" initial_heap = Ok (Ref l) h ∧
    objects h !! l = Some (MError "unusable as hash key: MFunction") ∧
    objects h !! l ≠ Some (MError "unusable as a hash key: MFunction").
Proof. apply (hash_literal_key_error_message 20). lia. Defined.

(** ** The embedding on the repository's tests

    Cases of [evaluator.test.ts], run through the embedded lexer, parser
    and evaluator. *)

Example test_integer_expression :
  result_object (testEval (H := ascii_host) 100
                   "(5 + 10 * 2 + 15 / 3) * 2 + -10" initial_heap)
  = Some (MInteger (number_of_Z 50)).
Proof. vm_compute. reflexivity. Qed.

Example test_error_handling :
  result_object (testEval (H := ascii_host) 100 "5 + true; 5;" initial_heap)
  = Some (MError "type mismatch: MInteger + MBoolean").
Proof. vm_compute. reflexivity. Qed.

Example test_hash_index_error :
  result_object (testEval (H := ascii_host) 100 hash_index_source initial_heap)
  = Some (MError "unusable as a hash key: MFunction").
Proof. vm_compute. reflexivity. Qed.

Example test_return_statement :
  result_object (testEval (H := ascii_host) 100
                   "if (10 > 1) { if (10 > 1) { return 10; } return 1; }" initial_heap)
  = Some (MInteger (number_of_Z 10)).
Proof. vm_compute. reflexivity. Qed.

Example test_enclosing_environments :
  result_object (testEval (H := ascii_host) 100
    "let first = 10; let second = 10; let third = 10; let ourFunction = fn(first) { let second = 20; first + second + third; }; ourFunction(20) + first + second;"
    initial_heap)
  = Some (MInteger (number_of_Z 70)).
Proof. vm_compute. reflexivity. Qed.

Example test_closure :
  result_object (testEval (H := ascii_host) 100
    "let newAdder = fn(x) { fn(y) { x + y } }; let addTwo = newAdder(2); addTwo(3);"
    initial_heap)
  = Some (MInteger (number_of_Z 5)).
Proof. vm_compute. reflexivity. Qed.

Example test_string_concatenation :
  result_object (testEval (H := ascii_host) 100 concatenation_source initial_heap)
  = Some (MString "Hello World!").
Proof. vm_compute. reflexivity. Qed.

Example test_builtin_len :
  result_object (testEval (H := ascii_host) 100 "len(1)" initial_heap)
  = Some (MError "argument to 'len' not supported, got MInteger").
Proof. vm_compute. reflexivity. Qed.

Example test_recursive_fibonacci :
  result_object (testEval (H := ascii_host) 200
    "let fibonacci = fn(x) { if (x == 0) { return 0; } else { if (x == 1) { return 1; } else { fibonacci(x - 1) + fibonacci(x - 2); } } }; fibonacci(10);"
    initial_heap)
  = Some (MInteger (number_of_Z 55)).
Proof. vm_compute. reflexivity. Qed.

(** ** Steps of the heap monad *)

Lemma bind_Ok {S A B} (m : M S A) (k : A → M S B) s a s' :
  m s = Ok a s' → (m ≫= k) s = k a s'.
Proof. intros Hm. unfold mbind, M_bind. by rewrite Hm. Qed.

Lemma object_at_Ok h l o : objects h !! l = Some o → object_at l h = Ok o h.
Proof. intros Hl. unfold object_at. by rewrite Hl. Qed.

Lemma deref_Ok h l o : objects h !! l = Some o → deref (Ref l) h = Ok (Some o) h.
Proof. intros Hl. unfold deref. by rewrite (bind_Ok _ _ _ _ _ (object_at_Ok _ _ _ Hl)). Qed.

Lemma array_at_Ok h a elements :
  arrays h !! a = Some elements → array_at a h = Ok elements h.
Proof. intros Ha. unfold array_at. by rewrite Ha. Qed.

Lemma isError_Ok_false h l o :
  objects h !! l = Some o → (∀ m, o ≠ MError m) → isError (Ref l) h = Ok false h.
Proof.
  intros Hl Hne. unfold isError. rewrite (bind_Ok _ _ _ _ _ (deref_Ok _ _ _ Hl)).
  destruct o; try reflexivity. by destruct (Hne message).
Qed.

Lemma lookup_new_object h o :
  objects (mkHeap (objects h ++ [o]) (arrays h) (environments h))
    !! length (objects h) = Some o.
Proof. cbn [objects]. by rewrite lookup_app_r, Nat.sub_diag by lia. Qed.

Lemma ifNotError_Ok h l o (k : loc → M Heap value) :
  objects h !! l = Some o → (∀ m, o ≠ MError m) →
  ifNotError (Ref l) k h = k l h.
Proof.
  intros Hl Hne. unfold ifNotError.
  rewrite (bind_Ok _ _ _ _ _ (object_at_Ok _ _ _ Hl)).
  destruct o; try reflexivity. by destruct (Hne message).
Qed.

(** Whatever the hash literal, a first key that evaluates to an object
    without a hash key ends the evaluation with the message of the
    [HashLiteral] case. *)
Lemma hash_literal_unhashable_key `{Host} (ev : option Node → loc → M Heap value)
    keyNode valueNode rest env pairs h l h1 o :
  ev (Some keyNode) env h = Ok (Ref l) h1 →
  objects h1 !! l = Some o → hashKey o = None → (∀ m, o ≠ MError m) →
  evalHashLiteral_for ev ((keyNode, valueNode) :: rest) env pairs h
  = new_object (MError ("unusable as hash key: " ++ className o)%string) h1.
Proof.
  intros Hk Hl Hkey Hne. cbn [evalHashLiteral_for].
  rewrite (bind_Ok _ _ _ _ _ Hk).
  rewrite (bind_Ok _ _ _ _ _ (isError_Ok_false _ _ _ Hl Hne)).
  rewrite (bind_Ok _ _ _ _ _ (deref_Ok _ _ _ Hl)).
  cbn [mbind option_bind]. rewrite Hkey.
  assert (Ht : typeDesc (Ref l) h1 = Ok (className o) h1).
  { unfold typeDesc. by rewrite (bind_Ok _ _ _ _ _ (deref_Ok _ _ _ Hl)). }
  by rewrite (bind_Ok _ _ _ _ _ Ht).
Qed.

(** [evaluate] removes one envelope: when a top-level statement evaluates
    to a [ReturnValue], its payload is returned, whatever the payload is. *)
Lemma evaluate_unwraps_one_envelope `{Host} fuel statement rest env h l v h1 :
  evaluateNode fuel (Some statement) env h = Ok (Ref l) h1 →
  objects h1 !! l = Some (MReturnValue v) →
  evaluate fuel (mkProgram (statement :: rest)) env h = Ok (Ref v) h1.
Proof.
  intros He Hl. unfold evaluate. cbn [program_statements evaluate_for].
  rewrite (bind_Ok _ _ _ _ _ He).
  by rewrite (bind_Ok _ _ _ _ _ (deref_Ok _ _ _ Hl)).
Qed.

(** ** Equality of strings *)

(** C2, as stated, fails: evaluating the comparison of the string literal
    [a] with the string literal [a] yields [FALSE], not [TRUE]. *)
Lemma string_literals_compare_unequal :
  (∃ h, testEval (H := ascii_host) 20 string_comparison_source initial_heap
        = Ok (Ref FALSE) h) ∧
  ¬ (∃ h, testEval (H := ascii_host) 20 string_comparison_source initial_heap
          = Ok (Ref TRUE) h).
Proof.
  split.
  - eexists. vm_compute. reflexivity.
  - intros [h Hh]. vm_compute in Hh. discriminate.
Qed.

(** C2, amended.  On two [String] objects [==] yields [TRUE] exactly when
    they are the same object, whatever their text, and [!=] yields the
    negation; the heap is left as it was.  Every evaluation of a string
    literal makes a new object, so the comparison of two string literals
    yields [FALSE], also when they have equal text. *)
Theorem string_equality_is_identity `{Host} :
  (∀ (h : Heap) (l1 l2 : loc) (s1 s2 : string),
     objects h !! l1 = Some (MString s1) →
     objects h !! l2 = Some (MString s2) →
     evalInfixExpression "==" l1 l2 h = Ok (toMonkey (bool_decide (l1 = l2))) h ∧
     evalInfixExpression "!=" l1 l2 h
       = Ok (toMonkey (negb (bool_decide (l1 = l2)))) h) ∧
  (∀ (fuel : nat) (token t1 t2 : Token) (s1 s2 : string) (env : loc) (h : Heap),
     2 ≤ fuel →
     ∃ h', evaluateNode fuel
             (Some (InfixExpression token (Some (StringLiteral t1 s1)) "=="
                      (Some (StringLiteral t2 s2)))) env h
           = Ok (Ref FALSE) h').
Proof.
  split.
  - intros h l1 l2 s1 s2 H1 H2.
    unfold evalInfixExpression, mbind, M_bind, object_at. rewrite H1, H2.
    split; reflexivity.
  - intros fuel token t1 t2 s1 s2 env h Hfuel.
    destruct fuel as [|[|fuel]]; try lia.
    set (h1 := mkHeap (objects h ++ [MString s1]) (arrays h) (environments h)).
    set (h2 := mkHeap (objects h1 ++ [MString s2]) (arrays h1) (environments h1)).
    assert (H1 : objects h1 !! length (objects h) = Some (MString s1))
      by apply lookup_new_object.
    assert (H2 : objects h2 !! length (objects h1) = Some (MString s2))
      by apply lookup_new_object.
    assert (H1' : objects h2 !! length (objects h) = Some (MString s1)).
    { cbn [h2 objects]. rewrite lookup_app_l; [done|]. by eapply lookup_lt_Some. }
    exists h2.
    change (evaluateNode (S (S fuel))) with (evaluateNode_body (evaluateNode (S fuel))).
    cbn [evaluateNode_body].
    rewrite (bind_Ok _ _ h _ h1) by reflexivity.
    rewrite (ifNotError_Ok h1 _ _ _ H1) by done.
    rewrite (bind_Ok _ _ h1 _ h2) by reflexivity.
    rewrite (ifNotError_Ok h2 _ _ _ H2) by done.
    unfold evalInfixExpression.
    rewrite (bind_Ok _ _ _ _ _ (object_at_Ok _ _ _ H1')).
    rewrite (bind_Ok _ _ _ _ _ (object_at_Ok _ _ _ H2)).
    cbn [String.eqb Ascii.eqb Bool.eqb].
    rewrite bool_decide_eq_false_2; [done|].
    cbn [h1 objects]. rewrite length_app. simpl. lia.
Qed.

Lemma string_equality_is_identity_witness :
  evalInfixExpression "==" 8 8
      (mkHeap (objects initial_heap ++ [MString "a"; MString "a"]) [] [])
    = Ok (Ref TRUE) (mkHeap (objects initial_heap ++ [MString "a"; MString "a"]) [] []) ∧
  evalInfixExpression "==" 8 9
      (mkHeap (objects initial_heap ++ [MString "a"; MString "a"]) [] [])
    = Ok (Ref FALSE) (mkHeap (objects initial_heap ++ [MString "a"; MString "a"]) [] []).
Proof.
  split.
  - apply (proj1 (string_equality_is_identity (H := ascii_host)) _ 8 8 "a" "a");
      reflexivity.
  - apply (proj1 (string_equality_is_identity (H := ascii_host)) _ 8 9 "a" "a");
      reflexivity.
Defined.

(** ** The builtin [push] *)

(** C10.  [push(arr, x)] appends [x] to the elements array of [arr] itself:
    after the call that array is one longer and ends with [x], [arr] still
    refers to it, and the returned object is a new [MArray] that refers to
    the same elements array.  Nothing else in the heap changes. *)
Theorem push_mutates_in_place (h : Heap) (arr a : loc) (x : value)
    (elements : list value) :
  objects h !! arr = Some (MArray a) →
  arrays h !! a = Some elements →
  ∃ (r : loc) (h' : Heap),
    call_builtin PUSH [Ref arr; x] h = Ok (Ref r) h' ∧
    arrays h' !! a = Some (elements ++ [x]) ∧
    objects h' !! arr = Some (MArray a) ∧
    objects h' !! r = Some (MArray a) ∧ r ≠ arr ∧
    objects h' = objects h ++ [MArray a] ∧
    (∀ b, b ≠ a → arrays h' !! b = arrays h !! b) ∧
    environments h' = environments h.
Proof.
  intros Harr Ha.
  exists (length (objects h)),
    {| objects := objects h ++ [MArray a];
       arrays := <[a := elements ++ [x]]> (arrays h);
       environments := environments h |}.
  split.
  - unfold call_builtin, builtin_push, argSizeCheck, arrayCheck.
    cbn [length Nat.eqb negb nth_value lookup list_lookup default].
    rewrite (bind_Ok _ _ _ _ _ (deref_Ok _ _ _ Harr)).
    rewrite (bind_Ok _ _ _ _ _ (array_at_Ok _ _ _ Ha)).
    unfold mbind, M_bind, array_push, new_object. by rewrite Ha.
  - cbn [objects arrays environments].
    pose proof (lookup_lt_Some _ _ _ Harr) as Hlt.
    pose proof (lookup_lt_Some _ _ _ Ha) as Hlta.
    split; [by apply list_lookup_insert_eq|].
    split; [by rewrite lookup_app_l|].
    split; [by rewrite lookup_app_r, Nat.sub_diag by lia|].
    split; [lia|]. split; [done|]. split; [|done].
    intros b Hb. by apply list_lookup_insert_ne.
Qed.

Lemma push_mutates_in_place_witness :
  ∃ (r : loc) (h' : Heap),
    call_builtin PUSH [Ref 9; Ref TRUE] heap_with_array = Ok (Ref r) h' ∧
    arrays h' !! 0 = Some [Ref 8; Ref TRUE] ∧
    objects h' !! 9 = Some (MArray 0) ∧
    objects h' !! r = Some (MArray 0) ∧ r ≠ 9 ∧
    objects h' = objects heap_with_array ++ [MArray 0] ∧
    (∀ b, b ≠ 0 → arrays h' !! b = arrays heap_with_array !! b) ∧
    environments h' = environments heap_with_array.
Proof.
  apply (push_mutates_in_place heap_with_array 9 0 (Ref TRUE) [Ref 8]); reflexivity.
Defined.

(** ** Call arguments *)

Section CallArguments.
Context `{Host}.
Variable ev : option Node → loc → M Heap value.

Lemma evalExpressions_for_error a post env evalList h e h' :
  ev a env h = Ok e h' → isError e h' = Ok true h' →
  evalExpressions_for ev (a :: post) env evalList h = Ok [e] h'.
Proof.
  intros Ha He. cbn [evalExpressions_for].
  rewrite (bind_Ok _ _ _ _ _ Ha). by rewrite (bind_Ok _ _ _ _ _ He).
Qed.

Lemma evalExpressions_for_prefix pre :
  ∀ rest env evalList h vs h',
  evaluated_in_order ev env pre h vs h' →
  evalExpressions_for ev (pre ++ rest) env evalList h
    = evalExpressions_for ev rest env (evalList ++ vs) h'.
Proof.
  induction pre as [|a pre IH]; intros rest env evalList h vs h' Hpre.
  - destruct vs; [|done]. simpl in Hpre. subst. by rewrite app_nil_r.
  - destruct vs as [|v vs]; [done|].
    destruct Hpre as (h1 & Ha & He & Hrest).
    cbn [app evalExpressions_for].
    rewrite (bind_Ok _ _ _ _ _ Ha). rewrite (bind_Ok _ _ _ _ _ He).
    rewrite (IH _ _ _ _ _ _ Hrest). by rewrite <- app_assoc.
Qed.

Lemma call_short_circuit token fun_ pre a post env h0 h1 h2 h3 f callee vs e :
  ev fun_ env h0 = Ok (Ref f) h1 →
  objects h1 !! f = Some callee → (∀ m, callee ≠ MError m) →
  evaluated_in_order ev env pre h1 vs h2 →
  ev a env h2 = Ok e h3 →
  isError e h3 = Ok true h3 →
  evaluateNode_body ev (Some (CallExpression token fun_ (Some (pre ++ a :: post)))) env h0
    = Ok e h3.
Proof.
  intros Hf Hcallee Hne Hpre Ha He. cbn [evaluateNode_body].
  rewrite (bind_Ok _ _ _ _ _ Hf).
  rewrite (ifNotError_Ok _ _ _ _ Hcallee Hne).
  assert (Hargs : evalExpressions ev (Some (pre ++ a :: post)) env h1 = Ok [e] h3).
  { cbn [evalExpressions]. rewrite (evalExpressions_for_prefix _ _ _ _ _ _ _ Hpre).
    by apply evalExpressions_for_error. }
  rewrite (bind_Ok _ _ _ _ _ Hargs). by rewrite (bind_Ok _ _ _ _ _ He).
Qed.

End CallArguments.

(** C4.  In a call whose callee evaluates to an object that is no error,
    let the arguments [pre] evaluate, left to right, to values that are no
    errors, and let the next argument [a] evaluate to an [Error] [e],
    leaving the heap [h3].  Then the call evaluates to [e] and leaves the
    heap [h3], whatever the arguments [post] to the right of [a] are: none
    of them is evaluated and the callee is not applied, so no effect on the
    heap (a binding, a new environment, a new object) follows the
    evaluation of [a]. *)
Theorem call_argument_error_short_circuits `{Host} (fuel : nat) (token : Token)
    (fun_ : option Node) (pre : list (option Node)) (a : option Node)
    (env : loc) (h0 h1 h2 h3 : Heap) (f : loc) (callee : MObject)
    (vs : list value) (e : value) :
  evaluateNode fuel fun_ env h0 = Ok (Ref f) h1 →
  objects h1 !! f = Some callee → (∀ m, callee ≠ MError m) →
  evaluated_in_order (evaluateNode fuel) env pre h1 vs h2 →
  evaluateNode fuel a env h2 = Ok e h3 →
  isError e h3 = Ok true h3 →
  ∀ post : list (option Node),
    evaluateNode (S fuel)
      (Some (CallExpression token fun_ (Some (pre ++ a :: post)))) env h0
    = Ok e h3.
Proof.
  intros Hf Hcallee Hne Hpre Ha He post.
  change (evaluateNode (S fuel)) with (evaluateNode_body (evaluateNode fuel)).
  by eapply call_short_circuit.
Qed.

Lemma call_argument_error_short_circuits_witness :
  ∃ l h3,
    evaluateNode (H := ascii_host) 2
      (Some (CallExpression (mkToken LPAREN "(") (Some example_callee)
         (Some ([Some example_one] ++ Some example_unbound :: [Some example_two]))))
      0 heap_with_environment
    = Ok (Ref l) h3 ∧
    objects h3 !! l = Some (MError "identifier not found: nope") ∧
    length (objects h3) = 10.
Proof.
  eexists _, _. split.
  - apply (call_argument_error_short_circuits (H := ascii_host) 1
             (mkToken LPAREN "(") (Some example_callee) [Some example_one]
             (Some example_unbound) 0 heap_with_environment heap_with_environment
             (mkHeap (objects initial_heap ++ [MInteger (number_of_Z 1)]) []
                [ {| store := ∅; outer := None |} ])
             (mkHeap (objects initial_heap ++ [MInteger (number_of_Z 1);
                                        MError "identifier not found: nope"]) []
                [ {| store := ∅; outer := None |} ])
             1 (MBuiltinFunction LEN) [Ref 8] (Ref 9)).
    + reflexivity.
    + reflexivity.
    + intros m. discriminate.
    + eexists. split; [reflexivity|]. split; reflexivity.
    + reflexivity.
    + reflexivity.
  - split; reflexivity.
Defined.

(** ** Canonical Booleans and Null *)

Lemma extends_refl h : extends h h.
Proof. exists []. by rewrite app_nil_r. Qed.

Lemma extends_trans h1 h2 h3 : extends h1 h2 → extends h2 h3 → extends h1 h3.
Proof.
  intros (f1 & E1 & F1) (f2 & E2 & F2). exists (f1 ++ f2). split.
  - by rewrite E2, E1, app_assoc.
  - by apply Forall_app.
Qed.

Lemma extends_same_objects h h' : objects h' = objects h → extends h h'.
Proof. intros E. exists []. by rewrite app_nil_r. Qed.

Lemma extends_canonical h h' : extends h h' → canonical h → canonical h'.
Proof.
  intros (fresh & E & Hfresh) Hc l o Hl. rewrite E in Hl.
  apply lookup_app_Some in Hl as [Hl | [_ Hl]]; [by apply Hc|].
  apply list_elem_of_lookup_2 in Hl.
  pose proof (proj1 (Forall_forall _ _) Hfresh _ Hl) as Hno.
  by destruct o; try done; destruct Hno.
Qed.

Lemma initial_heap_canonical : canonical initial_heap.
Proof.
  intros l o Hl. cbn [objects initial_heap] in Hl.
  do 8 (destruct l as [|l]; [injection Hl as <-; done|]). done.
Qed.

Section NoFreshBooleans.

Lemma anb_ret {A} (a : A) : allocates_no_Boolean_or_Null (mret a).
Proof. intros h ? h' [= <- <-]. apply extends_refl. Qed.

Lemma anb_throw {A} e : allocates_no_Boolean_or_Null (throw e : M Heap A).
Proof. intros h ? h' [=]. Qed.

Lemma anb_timeout {A} : allocates_no_Boolean_or_Null (timeout : M Heap A).
Proof. intros h ? h' [=]. Qed.

Lemma anb_get : allocates_no_Boolean_or_Null get.
Proof. intros h ? h' [= <- <-]. apply extends_refl. Qed.

Lemma anb_bind {A B} (m : M Heap A) (k : A → M Heap B) :
  allocates_no_Boolean_or_Null m →
  (∀ a, allocates_no_Boolean_or_Null (k a)) →
  allocates_no_Boolean_or_Null (m ≫= k).
Proof.
  intros Hm Hk h b h'. unfold mbind, M_bind.
  destruct (m h) as [a h1| |] eqn:E; try done.
  intros Hb. eapply extends_trans; [by eapply Hm | by eapply Hk].
Qed.

Lemma anb_new_object o :
  ¬ is_Boolean_or_Null o → allocates_no_Boolean_or_Null (new_object o).
Proof.
  intros Ho h ? h' [= <- <-]. exists [o]. split; [done|]. by constructor.
Qed.

Lemma anb_new_array els : allocates_no_Boolean_or_Null (new_array els).
Proof. intros h ? h' [= <- <-]. by apply extends_same_objects. Qed.

Lemma anb_new_environment e : allocates_no_Boolean_or_Null (new_environment e).
Proof. intros h ? h' [= <- <-]. by apply extends_same_objects. Qed.

Lemma anb_object_at l : allocates_no_Boolean_or_Null (object_at l).
Proof.
  intros h o h'. unfold object_at. destruct (objects h !! l); [|done].
  intros [= <- <-]. apply extends_refl.
Qed.

Lemma anb_array_at a : allocates_no_Boolean_or_Null (array_at a).
Proof.
  intros h o h'. unfold array_at. destruct (arrays h !! a); [|done].
  intros [= <- <-]. apply extends_refl.
Qed.

Lemma anb_environment_at e : allocates_no_Boolean_or_Null (environment_at e).
Proof.
  intros h o h'. unfold environment_at. destruct (environments h !! e); [|done].
  intros [= <- <-]. apply extends_refl.
Qed.

Lemma anb_array_push a x : allocates_no_Boolean_or_Null (array_push a x).
Proof.
  intros h o h'. unfold array_push. destruct (arrays h !! a); [|done].
  intros [= <- <-]. by apply extends_same_objects.
Qed.

Lemma anb_Environment_set env name v :
  allocates_no_Boolean_or_Null (Environment_set env name v).
Proof.
  intros h o h'. unfold Environment_set. destruct (environments h !! env); [|done].
  intros [= <- <-]. by apply extends_same_objects.
Qed.

End NoFreshBooleans.

(** Structural steps: binds, conditionals, matches, and the operations on
    the heap.  An allocation is accepted only when its object is visibly
    neither a Boolean nor a Null. *)
Ltac anb_step :=
  first
    [ apply anb_ret | apply anb_throw | apply anb_timeout | apply anb_get
    | apply anb_object_at | apply anb_array_at | apply anb_environment_at
    | apply anb_array_push | apply anb_Environment_set
    | apply anb_new_array | apply anb_new_environment
    | apply anb_new_object; exact (λ x : False, x)
    | solve [auto 2]
    | apply anb_bind; [| intros ?]
    | match goal with
      | |- allocates_no_Boolean_or_Null (if ?b then _ else _) => destruct b
      | |- allocates_no_Boolean_or_Null (match ?x with _ => _ end) => destruct x
      | |- allocates_no_Boolean_or_Null (let '_ := ?x in _) => destruct x
      end ].
Ltac anb_auto := repeat anb_step.

Section NoFreshBooleansEvaluator.
Context `{Host}.

Lemma anb_deref v : allocates_no_Boolean_or_Null (deref v).
Proof. unfold deref. anb_auto. Qed.

Lemma anb_typeDesc v : allocates_no_Boolean_or_Null (typeDesc v).
Proof. pose proof anb_deref. unfold typeDesc. anb_auto. Qed.

Lemma anb_isError v : allocates_no_Boolean_or_Null (isError v).
Proof. pose proof anb_deref. unfold isError. anb_auto. Qed.

Lemma anb_ifNotError obj (k : loc → M Heap value) :
  (∀ l, allocates_no_Boolean_or_Null (k l)) →
  allocates_no_Boolean_or_Null (ifNotError obj k).
Proof. intros Hk. unfold ifNotError. anb_auto. Qed.

Lemma anb_call_builtin fn args : allocates_no_Boolean_or_Null (call_builtin fn args).
Proof.
  pose proof anb_deref. pose proof anb_typeDesc.
  destruct fn; unfold call_builtin, builtin_len, builtin_push, builtin_first,
    builtin_last, builtin_rest, argSizeCheck, arrayCheck; anb_auto.
Qed.

Lemma anb_Environment_get_chain n :
  ∀ env name, allocates_no_Boolean_or_Null (Environment_get_chain n env name).
Proof. induction n as [|n IH]; intros; simpl; anb_auto. Qed.

Lemma anb_Environment_get env name :
  allocates_no_Boolean_or_Null (Environment_get env name).
Proof. pose proof anb_Environment_get_chain. unfold Environment_get. anb_auto. Qed.

Lemma anb_evalIntegerInfixExpression op l r :
  allocates_no_Boolean_or_Null (evalIntegerInfixExpression op l r).
Proof. unfold evalIntegerInfixExpression. anb_auto. Qed.

Lemma anb_evalInfixExpression op l r :
  allocates_no_Boolean_or_Null (evalInfixExpression op l r).
Proof.
  pose proof anb_evalIntegerInfixExpression.
  unfold evalInfixExpression. anb_auto.
Qed.

Lemma anb_evalMinusPrefixOperatorExpression r :
  allocates_no_Boolean_or_Null (evalMinusPrefixOperatorExpression r).
Proof. unfold evalMinusPrefixOperatorExpression. anb_auto. Qed.

Lemma anb_evalArrayIndexExpression a i :
  allocates_no_Boolean_or_Null (evalArrayIndexExpression a i).
Proof. unfold evalArrayIndexExpression. anb_auto. Qed.

Lemma anb_evalHashIndexExpression pairs i :
  allocates_no_Boolean_or_Null (evalHashIndexExpression pairs i).
Proof.
  pose proof anb_deref. pose proof anb_typeDesc.
  unfold evalHashIndexExpression. anb_auto.
Qed.

Lemma anb_bindParameters env ps :
  ∀ i args, allocates_no_Boolean_or_Null (bindParameters env ps i args).
Proof. induction ps as [|p ps IH]; intros; simpl; anb_auto. Qed.

Lemma anb_extendFunctionEnv fenv ps args :
  allocates_no_Boolean_or_Null (extendFunctionEnv fenv ps args).
Proof.
  pose proof anb_bindParameters.
  unfold extendFunctionEnv, newEnclosedEnvironment. anb_auto.
Qed.

Section Step.
Variable ev : option Node → loc → M Heap value.
Hypothesis Hev : ∀ node env, allocates_no_Boolean_or_Null (ev node env).

Hint Resolve Hev anb_deref anb_typeDesc anb_isError anb_call_builtin
  anb_Environment_get anb_evalInfixExpression
  anb_evalMinusPrefixOperatorExpression anb_evalArrayIndexExpression
  anb_evalHashIndexExpression anb_extendFunctionEnv : core.

Lemma anb_evalStatements statements :
  ∀ env result, allocates_no_Boolean_or_Null (evalStatements ev statements env result).
Proof. induction statements as [|st rest IH]; intros; simpl; anb_auto. Qed.

Lemma anb_evalBlockStatement node env :
  allocates_no_Boolean_or_Null (evalBlockStatement ev node env).
Proof.
  pose proof anb_evalStatements. destruct node as [? [?|]]; simpl; anb_auto.
Qed.

Lemma anb_evalExpressions_for args :
  ∀ env evalList,
  allocates_no_Boolean_or_Null (evalExpressions_for ev args env evalList).
Proof. induction args as [|a rest IH]; intros; simpl; anb_auto. Qed.

Lemma anb_evalExpressions args env :
  allocates_no_Boolean_or_Null (evalExpressions ev args env).
Proof.
  pose proof anb_evalExpressions_for. destruct args; simpl; anb_auto.
Qed.

Lemma anb_applyFunction f args :
  allocates_no_Boolean_or_Null (applyFunction ev f args).
Proof. unfold applyFunction. anb_auto. Qed.

Lemma anb_evalHashLiteral_for node_pairs :
  ∀ env pairs,
  allocates_no_Boolean_or_Null (evalHashLiteral_for ev node_pairs env pairs).
Proof. induction node_pairs as [|[k v] rest IH]; intros; simpl; anb_auto. Qed.

Lemma anb_evaluateNode_body node env :
  allocates_no_Boolean_or_Null (evaluateNode_body ev node env).
Proof.
  pose proof anb_evalBlockStatement. pose proof anb_evalExpressions.
  pose proof anb_applyFunction. pose proof anb_evalHashLiteral_for.
  destruct node as [[]|]; simpl; unfold Environment_put;
    repeat first [ apply anb_ifNotError; intros ? | anb_step ].
Qed.

End Step.

Lemma anb_evaluateNode fuel :
  ∀ node env, allocates_no_Boolean_or_Null (evaluateNode fuel node env).
Proof.
  induction fuel as [|fuel IH]; intros node env; simpl.
  - apply anb_timeout.
  - by apply anb_evaluateNode_body.
Qed.

Lemma anb_evaluate fuel program env :
  allocates_no_Boolean_or_Null (evaluate fuel program env).
Proof.
  pose proof anb_deref. pose proof (anb_evaluateNode fuel).
  unfold evaluate. generalize JSnull.
  induction (program_statements program) as [|st rest IH]; intros result; simpl;
    anb_auto.
Qed.

End NoFreshBooleansEvaluator.

(** C6.  Evaluation only adds objects to the heap, and none of the objects
    it adds is an [MBoolean] or an [MNull]: no branch of the evaluator makes
    one.  So when [TRUE], [FALSE] and [NULL] are the only Boolean and Null
    objects before [evaluate] runs (as in the heap the modules set up),
    they are the only ones afterwards as well, and a Boolean or Null that
    [evaluate] returns is [TRUE], [FALSE] or [NULL] itself. *)
Theorem booleans_and_null_are_canonical `{Host} (fuel : nat) (program : Program)
    (env : loc) (h h' : Heap) (v : value) :
  evaluate fuel program env h = Ok v h' →
  extends h h' ∧
  (canonical h →
   canonical h' ∧
   ∀ l o, v = Ref l → objects h' !! l = Some o →
     match o with
     | MBoolean b => v = toMonkey b
     | MNull => v = Ref NULL
     | _ => True
     end).
Proof.
  intros Heval. pose proof (anb_evaluate fuel program env _ _ _ Heval) as Hext.
  split; [done|]. intros Hc.
  pose proof (extends_canonical _ _ Hext Hc) as Hc'. split; [done|].
  intros l o -> Hl. specialize (Hc' l o Hl). destruct o; try done. by subst.
Qed.

Lemma booleans_and_null_are_canonical_witness :
  ∃ h',
    evaluate (H := ascii_host) 3 example_program 0 heap_with_environment
      = Ok (Ref TRUE) h' ∧
    extends heap_with_environment h' ∧ canonical h'.
Proof.
  eexists. split; [reflexivity|].
  destruct (booleans_and_null_are_canonical (H := ascii_host) 3 example_program 0
              heap_with_environment _ (Ref TRUE) eq_refl) as [Hext Hc].
  split; [exact Hext|]. apply Hc. exact initial_heap_canonical.
Defined.

(** ** Integers as binary64 numbers

    The integers of at most 53 bits are numbers; on them the subtraction of
    one is exact, and the order of numbers is the order of integers. *)

Section Binary64.
Local Open Scope Z_scope.

Lemma iter_pos_Pos_iter {A} (f : A → A) p : ∀ x, SpecFloat.iter_pos f p x = Pos.iter f x p.
Proof.
  induction p as [p IH|p IH|]; intros x; simpl.
  - rewrite !IH. by rewrite <- !Pos.iter_swap.
  - by rewrite !IH.
  - done.
Qed.

Lemma Zpos_iter_xO p k : Zpos (Pos.iter xO p k) = Zpos p * 2 ^ Zpos k.
Proof.
  revert p. induction k as [|k IH] using Pos.peano_ind; intros p.
  - simpl. lia.
  - rewrite Pos.iter_succ, Pos2Z.inj_xO, IH, Pos2Z.inj_succ, Z.pow_succ_r by lia. lia.
Qed.

Lemma digits2_pos_iter_xO p k :
  digits2_pos (Pos.iter xO p k) = (digits2_pos p + k)%positive.
Proof.
  induction k as [|k IH] using Pos.peano_ind.
  - simpl. lia.
  - rewrite Pos.iter_succ. simpl. rewrite IH. lia.
Qed.

Lemma digits2_pos_bounds p :
  2 ^ (Zpos (digits2_pos p) - 1) ≤ Zpos p < 2 ^ Zpos (digits2_pos p).
Proof.
  induction p as [p IH|p IH|]; simpl digits2_pos.
  - rewrite Pos2Z.inj_succ.
    replace (Z.succ (Zpos (digits2_pos p)) - 1) with (Z.succ (Zpos (digits2_pos p) - 1)) by lia.
    rewrite !Z.pow_succ_r by lia. lia.
  - rewrite Pos2Z.inj_succ.
    replace (Z.succ (Zpos (digits2_pos p)) - 1) with (Z.succ (Zpos (digits2_pos p) - 1)) by lia.
    rewrite !Z.pow_succ_r by lia. lia.
  - simpl. lia.
Qed.

(** shifting right a mantissa that ends in enough zeros is exact *)
Lemma shr_1_xO p :
  shr_1 (Build_shr_record (Zpos (xO p)) false false) = Build_shr_record (Zpos p) false false.
Proof. reflexivity. Qed.

Lemma iter_shr_1_exact k : ∀ p,
  SpecFloat.iter_pos shr_1 k (Build_shr_record (Zpos (Pos.iter xO p k)) false false)
  = Build_shr_record (Zpos p) false false.
Proof.
  intros p. rewrite iter_pos_Pos_iter. revert p.
  induction k as [|k IH] using Pos.peano_ind; intros p.
  - reflexivity.
  - rewrite (Pos.iter_succ_r k _ shr_1), (Pos.iter_succ k _ xO), shr_1_xO. apply IH.
Qed.

Lemma fexp_normal d e : -1074 ≤ e → d + e - 53 = e → fexp prec emax (d + e) = e.
Proof. intros. unfold fexp, emin, prec, emax. lia. Qed.

(** rounding a canonical normal mantissa changes nothing *)
Lemma binary_round_aux_normal s m e :
  Zpos (digits2_pos m) = 53 → -1074 ≤ e ≤ 971 →
  binary_round_aux prec emax s (Zpos m) e loc_Exact = S754_finite s m e.
Proof.
  intros Hd He. unfold binary_round_aux, shr_fexp. cbn [Zdigits2 shr_record_of_loc].
  rewrite fexp_normal by lia. rewrite Z.sub_diag. cbn [shr shr_m loc_of_shr_record round_nearest_even Zdigits2 shr_record_of_loc].
  rewrite fexp_normal by lia. rewrite Z.sub_diag. cbn [shr shr_m].
  unfold emax, prec. destruct (Z.leb_spec e (1024 - 53)); [done | lia].
Qed.




Lemma normal_mantissa_digits p :
  Zpos (digits2_pos p) ≤ 53 → Zpos (digits2_pos (normal_mantissa p)) = 53.
Proof.
  intros Hd. unfold normal_mantissa.
  destruct (53 - Zpos (digits2_pos p)) as [|k|k] eqn:E; try lia.
  rewrite digits2_pos_iter_xO. lia.
Qed.

Lemma number_of_Z_pos p :
  Zpos (digits2_pos p) ≤ 53 →
  number_of_Z (Zpos p) = S754_finite false (normal_mantissa p) (normal_exponent p).
Proof.
  intros Hd. unfold number_of_Z, binary_normalize, binary_round.
  rewrite Z.add_0_r.
  assert (Hf : fexp prec emax (Zpos (digits2_pos p)) = Zpos (digits2_pos p) - 53).
  { unfold fexp, emin, prec, emax. lia. }
  rewrite Hf. unfold shl_align, normal_mantissa, normal_exponent.
  rewrite Z.sub_0_r.
  destruct (Zpos (digits2_pos p) - 53) as [|k|k] eqn:E; try lia.
  - replace (53 - Zpos (digits2_pos p)) with 0 by lia.
    apply binary_round_aux_normal; lia.
  - replace (53 - Zpos (digits2_pos p)) with (Zpos k) by lia.
    apply binary_round_aux_normal; [|lia].
    rewrite digits2_pos_iter_xO. lia.
Qed.

Lemma binary_round_aux_shifted s m e k :
  Zpos (digits2_pos m) = 53 → -1074 ≤ e ≤ 971 →
  binary_round_aux prec emax s (Zpos (Pos.iter xO m k)) (e - Zpos k) loc_Exact
  = S754_finite s m e.
Proof.
  intros Hd He. unfold binary_round_aux, shr_fexp.
  cbn [Zdigits2 shr_record_of_loc]. rewrite digits2_pos_iter_xO.
  replace (Zpos (digits2_pos m + k) + (e - Zpos k)) with (Zpos (digits2_pos m) + e) by lia.
  rewrite fexp_normal by lia.
  replace (e - (e - Zpos k)) with (Zpos k) by lia.
  cbn [shr]. rewrite iter_shr_1_exact.
  cbn [shr_m loc_of_shr_record round_nearest_even Zdigits2 shr_record_of_loc].
  replace (e - Zpos k + Zpos k) with e by lia.
  rewrite fexp_normal by lia. rewrite Z.sub_diag. cbn [shr shr_m].
  unfold emax, prec. destruct (Z.leb_spec e (1024 - 53)); [done | lia].
Qed.

Lemma digits2_pos_1 p : Zpos (digits2_pos p) = 1 → p = 1%positive.
Proof. destruct p; simpl; lia. Qed.

(** rounding [q * 2^52] at exponent -52 gives the number of [q] *)
Lemma binary_round_scaled q :
  Zpos (digits2_pos q) ≤ 53 →
  binary_round prec emax false (Pos.iter xO q 52) (-52)
  = S754_finite false (normal_mantissa q) (normal_exponent q).
Proof.
  intros Hd. unfold binary_round. rewrite digits2_pos_iter_xO.
  assert (Hf : fexp prec emax (Zpos (digits2_pos q + 52) + -52) = Zpos (digits2_pos q) - 53).
  { unfold fexp, emin, prec, emax. lia. }
  rewrite Hf. unfold shl_align.
  destruct (Zpos (digits2_pos q) - 53 - -52) as [|k|k] eqn:E; try lia.
  - (* one digit *)
    assert (q = 1%positive) as -> by (apply digits2_pos_1; lia).
    reflexivity.
  - assert (Hk : (k < 53)%positive) by lia.
    unfold normal_mantissa, normal_exponent.
    destruct (53 - Zpos (digits2_pos q)) as [|j|j] eqn:Ej; try lia.
    + (* 53 digits: k = 52 *)
      assert (k = 52%positive) as -> by lia.
      replace (-52) with (Zpos (digits2_pos q) - 53 - 52) at 1 by lia.
      apply binary_round_aux_shifted; lia.
    + assert (Hjk : (k + j = 52)%positive) by lia.
      rewrite <- Hjk at 1. rewrite Pos.iter_add.
      replace (-52) with (Zpos (digits2_pos q) - 53 - Zpos k) at 1 by lia.
      apply binary_round_aux_shifted; [|lia].
      rewrite digits2_pos_iter_xO. lia.
Qed.

Lemma normal_mantissa_value p :
  Zpos (digits2_pos p) ≤ 53 →
  Zpos (normal_mantissa p) = Zpos p * 2 ^ (53 - Zpos (digits2_pos p)).
Proof.
  intros Hd. unfold normal_mantissa.
  destruct (53 - Zpos (digits2_pos p)) as [|k|k] eqn:E; try lia.
  apply Zpos_iter_xO.
Qed.

(** [n - 1] on the numbers of integers is exact *)
Lemma SFsub_one N :
  (1 < N)%positive → Zpos (digits2_pos N) ≤ 53 →
  SFsub prec emax (number_of_Z (Zpos N)) (number_of_Z 1)
  = number_of_Z (Zpos N - 1).
Proof.
  intros HN Hd.
  assert (Hq : ∃ q, Zpos N - 1 = Zpos q ∧ Zpos (digits2_pos q) ≤ 53).
  { exists (Pos.pred N). split; [lia|].
    pose proof (digits2_pos_bounds N). pose proof (digits2_pos_bounds (Pos.pred N)).
    destruct (Z.le_gt_cases (Zpos (digits2_pos (Pos.pred N))) 53); [done|].
    assert (2 ^ 53 ≤ 2 ^ (Zpos (digits2_pos (Pos.pred N)) - 1)) by (apply Z.pow_le_mono_r; lia).
    assert (2 ^ Zpos (digits2_pos N) ≤ 2 ^ 53) by (apply Z.pow_le_mono_r; lia).
    lia. }
  destruct Hq as (q & Hq & Hdq).
  rewrite Hq, (number_of_Z_pos q Hdq), (number_of_Z_pos N Hd).
  change (number_of_Z 1) with (S754_finite false 4503599627370496 (-52)).
  unfold SFsub.
  assert (Hez : Z.min (normal_exponent N) (-52) = -52) by (unfold normal_exponent; lia).
  rewrite Hez.
  assert (H1 : Zpos (fst (shl_align (normal_mantissa N) (normal_exponent N) (-52)))
               = Zpos N * 2 ^ 52).
  { unfold shl_align, normal_exponent.
    destruct (-52 - (Zpos (digits2_pos N) - 53)) as [|k|k] eqn:E; try lia; cbn [fst].
    - rewrite normal_mantissa_value by done.
      replace (53 - Zpos (digits2_pos N)) with 52 by lia. done.
    - rewrite Zpos_iter_xO, normal_mantissa_value by done.
      rewrite <- Z.mul_assoc, <- Z.pow_add_r by lia.
      do 2 f_equal. lia. }
  rewrite H1.
  change (shl_align 4503599627370496 (-52) (-52)) with (4503599627370496%positive, -52).
  cbn [cond_Zopp fst].
  replace (Zpos N * 2 ^ 52 - 4503599627370496) with (Zpos (Pos.iter xO q 52)).
  2:{ rewrite Zpos_iter_xO. change (2 ^ 52) with 4503599627370496. lia. }
  cbn [binary_normalize]. by apply binary_round_scaled.
Qed.





Lemma canonical_mantissa_inv m e :
  canonical_mantissa prec emax m e = true →
  -1074 ≤ e ∧ Zpos (digits2_pos m) ≤ 53 ∧ (-1074 < e → Zpos (digits2_pos m) = 53).
Proof.
  unfold canonical_mantissa, fexp, emin, prec, emax. intros Hc.
  apply Z.eqb_eq in Hc. lia.
Qed.

Lemma scaled_lt mA eA mB eB :
  canonical_mantissa prec emax mA eA = true →
  canonical_mantissa prec emax mB eB = true →
  eA < eB → scaled mA eA < scaled mB eB.
Proof.
  intros HA HB Hlt.
  apply canonical_mantissa_inv in HA as (HeA & HdA & _).
  apply canonical_mantissa_inv in HB as (HeB & _ & HdB).
  specialize (HdB ltac:(lia)).
  pose proof (digits2_pos_bounds mA) as [_ HmA].
  pose proof (digits2_pos_bounds mB) as [HmB _]. rewrite HdB in HmB.
  unfold scaled.
  assert (H1 : Zpos mA * 2 ^ (eA + 1074) < 2 ^ 53 * 2 ^ (eA + 1074)).
  { apply Z.mul_lt_mono_pos_r; [apply Z.pow_pos_nonneg; lia|].
    eapply Z.lt_le_trans; [exact HmA|]. apply Z.pow_le_mono_r; lia. }
  assert (H2 : 2 ^ 53 * 2 ^ (eA + 1074) ≤ 2 ^ (53 - 1) * 2 ^ (eB + 1074)).
  { rewrite <- !Z.pow_add_r by lia. apply Z.pow_le_mono_r; lia. }
  assert (H3 : 2 ^ (53 - 1) * 2 ^ (eB + 1074) ≤ Zpos mB * 2 ^ (eB + 1074)).
  { apply Z.mul_le_mono_nonneg_r; [apply Z.pow_nonneg; lia | done]. }
  lia.
Qed.

Lemma SFcompare_scaled mA eA mB eB :
  canonical_mantissa prec emax mA eA = true →
  canonical_mantissa prec emax mB eB = true →
  SFcompare (S754_finite false mA eA) (S754_finite false mB eB)
  = Some (scaled mA eA ?= scaled mB eB).
Proof.
  intros HA HB. cbn [SFcompare]. f_equal.
  destruct (Z.compare_spec eA eB) as [-> | Hlt | Hgt].
  - unfold scaled. pose proof (canonical_mantissa_inv _ _ HB) as (He & _).
    rewrite <- Zmult_compare_compat_r by (apply Z.lt_gt, Z.pow_pos_nonneg; lia).
    reflexivity.
  - symmetry. apply Z.compare_lt_iff. by apply scaled_lt.
  - symmetry. apply Z.compare_gt_iff. by apply scaled_lt.
Qed.

Lemma integer_value_scaled s m e z :
  -1074 ≤ e → integer_value (S754_finite s m e) = Some z →
  scaled m e = Z.abs z * 2 ^ 1074 ∧ (z < 0 ↔ s = true) ∧ z ≠ 0.
Proof.
  intros He Hz. unfold scaled, integer_value in *.
  assert (Hsign : ∀ a, 0 < a → (cond_Zopp s a < 0 ↔ s = true) ∧ cond_Zopp s a ≠ 0
                       ∧ Z.abs (cond_Zopp s a) = a).
  { intros a Ha. destruct s; simpl; repeat split; intros; try lia; try done. }
  destruct e as [|k|k].
  - injection Hz as <-. rewrite Z.mul_1_r.
    destruct (Hsign (Zpos m)) as (? & ? & ->); [lia|]. done.
  - injection Hz as <-.
    assert (0 < Zpos m * 2 ^ Zpos k) by (apply Z.mul_pos_pos; [lia | apply Z.pow_pos_nonneg; lia]).
    destruct (Hsign (Zpos m * 2 ^ Zpos k)) as (? & ? & ->); [lia|].
    rewrite Z.pow_add_r by lia. split; [lia | done].
  - destruct (Z.eqb_spec (Zpos m mod 2 ^ Zpos k) 0) as [Hmod|]; [|done].
    injection Hz as <-.
    assert (Hpow : 0 < 2 ^ Zpos k) by (apply Z.pow_pos_nonneg; lia).
    assert (Hm : Zpos m = 2 ^ Zpos k * (Zpos m / 2 ^ Zpos k)).
    { pose proof (Z.div_mod (Zpos m) (2 ^ Zpos k)). lia. }
    assert (0 < Zpos m / 2 ^ Zpos k) by nia.
    destruct (Hsign (Zpos m / 2 ^ Zpos k)) as (? & ? & ->); [lia|].
    split; [|done].
    rewrite Hm at 1. rewrite <- Z.mul_assoc, (Z.mul_comm (2 ^ Zpos k)), <- Z.mul_assoc.
    f_equal. rewrite <- Z.pow_add_r by lia. f_equal. lia.
Qed.

Lemma number_of_Z_pos_canonical q :
  Zpos (digits2_pos q) ≤ 53 →
  canonical_mantissa prec emax (normal_mantissa q) (normal_exponent q) = true ∧
  scaled (normal_mantissa q) (normal_exponent q) = Zpos q * 2 ^ 1074.
Proof.
  intros Hd. split.
  - unfold canonical_mantissa. apply Z.eqb_eq.
    rewrite normal_mantissa_digits by done. apply fexp_normal; unfold normal_exponent; lia.
  - unfold scaled. rewrite normal_mantissa_value by done. unfold normal_exponent.
    rewrite <- Z.mul_assoc, <- Z.pow_add_r by lia. do 2 f_equal. lia.
Qed.

(** comparison of the number of a positive integer with an integral number *)
Lemma SFltb_number_of_Z_pos q i z :
  Zpos (digits2_pos q) ≤ 53 →
  valid_binary prec emax i = true → integer_value i = Some z →
  SFltb (number_of_Z (Zpos q)) i = (Zpos q <? z).
Proof.
  intros Hd Hv Hz. rewrite number_of_Z_pos by done.
  destruct (number_of_Z_pos_canonical q Hd) as [Hcq Hsq].
  destruct i as [s| |  |s m e]; try done.
  - injection Hz as <-. unfold SFltb. cbn [SFcompare]. symmetry. apply Z.ltb_ge. lia.
  - cbn [valid_binary] in Hv. unfold bounded in Hv. apply andb_true_iff in Hv as [Hc _].
    pose proof (canonical_mantissa_inv _ _ Hc) as (He & _).
    destruct (integer_value_scaled _ _ _ _ He Hz) as (Hsc & Hsign & Hnz).
    destruct s.
    + unfold SFltb. cbn [SFcompare]. symmetry. apply Z.ltb_ge.
      assert (z < 0) by by apply Hsign. lia.
    + unfold SFltb. rewrite (SFcompare_scaled _ _ _ _ Hcq Hc), Hsq, Hsc.
      assert (Hzpos : 0 < z).
      { destruct (Z.lt_trichotomy z 0) as [Hneg | [? | ?]]; [|done|done].
        apply Hsign in Hneg. done. }
      rewrite Z.abs_eq by lia.
      rewrite <- Zmult_compare_compat_r by (apply Z.lt_gt, Z.pow_pos_nonneg; lia).
      unfold Z.ltb. by destruct (Zpos q ?= z).
Qed.

Lemma SFltb_zero_r i z :
  valid_binary prec emax i = true → integer_value i = Some z →
  SFltb i (S754_zero false) = (z <? 0).
Proof.
  intros Hv Hz. destruct i as [s| |  |s m e]; try done.
  - injection Hz as <-. reflexivity.
  - cbn [valid_binary] in Hv. unfold bounded in Hv. apply andb_true_iff in Hv as [Hc _].
    pose proof (canonical_mantissa_inv _ _ Hc) as (He & _).
    destruct (integer_value_scaled _ _ _ _ He Hz) as (_ & Hsign & _).
    unfold SFltb. cbn [SFcompare]. destruct s.
    + symmetry. apply Z.ltb_lt. by apply Hsign.
    + symmetry. apply Z.ltb_ge.
      destruct (Z.lt_ge_cases z 0) as [Hneg|]; [|done]. by apply Hsign in Hneg.
Qed.

End Binary64.

(** ** Array index expressions *)

Section ArrayIndex.
Local Open Scope Z_scope.

Lemma digits2_pos_le_53 p : Zpos p < 2 ^ 53 → Zpos (digits2_pos p) ≤ 53.
Proof.
  intros Hp. pose proof (digits2_pos_bounds p) as [Hlo _].
  destruct (Z.le_gt_cases (Zpos (digits2_pos p)) 53); [done|].
  assert (2 ^ 53 ≤ 2 ^ (Zpos (digits2_pos p) - 1)) by (apply Z.pow_le_mono_r; lia).
  lia.
Qed.

Lemma integer_value_sign i z :
  valid_binary prec emax i = true → integer_value i = Some z →
  match i with
  | S754_zero _ => z = 0
  | S754_finite s _ _ => if s then z < 0 else 0 < z
  | _ => False
  end.
Proof.
  intros Hv Hz. destruct i as [s| |  |s m e]; try done.
  - by injection Hz as <-.
  - cbn [valid_binary] in Hv. unfold bounded in Hv. apply andb_true_iff in Hv as [Hc _].
    pose proof (canonical_mantissa_inv _ _ Hc) as (He & _).
    destruct (integer_value_scaled _ _ _ _ He Hz) as (_ & Hsign & Hnz).
    destruct s; [by apply Hsign|].
    destruct (Z.lt_trichotomy z 0) as [Hneg | [? | ?]]; [|done|done].
    by apply Hsign in Hneg.
Qed.

Lemma array_index_integer i z :
  valid_binary prec emax i = true → integer_value i = Some z → 0 ≤ z →
  array_index i = Some (Z.to_nat z).
Proof.
  intros Hv Hz Hpos. pose proof (integer_value_sign i z Hv Hz) as Hs.
  destruct i as [s| |  |[] m e]; try done; try lia.
  - by subst.
  - unfold integer_value in Hz. unfold array_index.
    destruct e as [|k|k]; try (by injection Hz as <-).
    destruct (Zpos m mod 2 ^ Zpos k =? 0); [by injection Hz as <- | done].
Qed.

(** [elements.length - 1] against an integral index *)
Lemma SFltb_max (n : nat) i z :
  Z.of_nat n < 2 ^ 53 →
  valid_binary prec emax i = true → integer_value i = Some z → 0 ≤ z →
  SFltb (SFsub prec emax (number_of_nat n) (number_of_Z 1)) i = (Z.of_nat n - 1 <? z).
Proof.
  intros Hn Hv Hz Hpos. pose proof (integer_value_sign i z Hv Hz) as Hs.
  unfold number_of_nat.
  destruct (Z.of_nat n) as [|N|N] eqn:EN; try lia.
  - (* the empty array: max is -1 *)
    change (SFsub prec emax (number_of_Z 0) (number_of_Z 1))
      with (S754_finite true 4503599627370496 (-52)).
    destruct (Z.ltb_spec (0 - 1) z); [|lia].
    destruct i as [s| |  |[] m e]; try done; lia.
  - destruct (Pos.eq_dec N 1%positive) as [-> | HN1].
    + (* one element: max is 0 *)
      change (SFsub prec emax (number_of_Z 1) (number_of_Z 1)) with (S754_zero false).
      destruct i as [s| |  |[] m e]; try done.
      * subst. reflexivity.
      * lia.
      * unfold SFltb. cbn [SFcompare]. symmetry. apply Z.ltb_lt. lia.
    + rewrite SFsub_one by (try apply digits2_pos_le_53; lia).
      assert (Hq : ∃ q, Zpos N - 1 = Zpos q) by (exists (Pos.pred N); lia).
      destruct Hq as [q Hq]. rewrite Hq.
      apply SFltb_number_of_Z_pos; try done.
      apply digits2_pos_le_53. lia.
Qed.

Lemma evalArrayIndexExpression_integer h a elements i z :
  arrays h !! a = Some elements →
  Z.of_nat (length elements) < 2 ^ 53 →
  valid_binary prec emax i = true → integer_value i = Some z →
  evalArrayIndexExpression a i h
  = Ok (if (0 <=? z) && (z <? Z.of_nat (length elements))
        then nth_value elements (Z.to_nat z) else Ref NULL) h.
Proof.
  intros Ha Hn Hv Hz. unfold evalArrayIndexExpression.
  rewrite (bind_Ok _ _ _ _ _ (array_at_Ok _ _ _ Ha)).
  change (number_of_Z 0) with (S754_zero false).
  rewrite (SFltb_zero_r i z Hv Hz).
  destruct (Z.ltb_spec z 0) as [Hneg | Hpos]; cbn [orb].
  - destruct (Z.leb_spec 0 z); [lia | done].
  - rewrite (SFltb_max _ i z Hn Hv Hz Hpos).
    destruct (Z.leb_spec 0 z); [|lia]. cbn [andb].
    destruct (Z.ltb_spec (Z.of_nat (length elements) - 1) z),
             (Z.ltb_spec z (Z.of_nat (length elements))); try lia; try done.
    unfold array_get. by rewrite (array_index_integer i z Hv Hz Hpos).
Qed.

End ArrayIndex.

Lemma extends_lookup h h' l o :
  extends h h' → objects h !! l = Some o → objects h' !! l = Some o.
Proof.
  intros (fresh & E & _) Hl. rewrite E. apply lookup_app_l_Some. done.
Qed.

(** C8.  Let the left operand of an index expression evaluate to an [Array]
    object whose elements array holds [elements], and the index to an
    [Integer] object whose value [i] is a number that is the integer [z].
    Then the index expression evaluates, without an exception, to the
    element at position [z] when [0 <= z <= n - 1], and to [NULL] when
    [z < 0] or [z > n - 1], where [n] is the number of elements; no [Error]
    is made.  (A JavaScript array has fewer than 2^32 elements; the bound
    assumed is 2^53.) *)
Theorem array_index_expression `{Host} (fuel : nat) (token : Token)
    (lhs index : option Node) (env : loc) (h0 h1 h2 : Heap) (la li a : loc)
    (elements : list value) (i : number) (z : Z) :
  evaluateNode fuel lhs env h0 = Ok (Ref la) h1 →
  objects h1 !! la = Some (MArray a) →
  evaluateNode fuel index env h1 = Ok (Ref li) h2 →
  objects h2 !! li = Some (MInteger i) →
  arrays h2 !! a = Some elements →
  (Z.of_nat (length elements) < 2 ^ 53)%Z →
  valid_binary prec emax i = true →
  integer_value i = Some z →
  ((0 ≤ z ≤ Z.of_nat (length elements) - 1)%Z →
   ∃ v, elements !! Z.to_nat z = Some v ∧
        evaluateNode (S fuel) (Some (IndexExpression token lhs index)) env h0
        = Ok v h2) ∧
  ((z < 0 ∨ z > Z.of_nat (length elements) - 1)%Z →
   evaluateNode (S fuel) (Some (IndexExpression token lhs index)) env h0
   = Ok (Ref NULL) h2).
Proof.
  intros Hl Hla Hi Hli Ha Hn Hv Hz.
  assert (Hla2 : objects h2 !! la = Some (MArray a)).
  { eapply extends_lookup; [|exact Hla]. eapply anb_evaluateNode, Hi. }
  assert (Heval : evaluateNode (S fuel) (Some (IndexExpression token lhs index)) env h0
                  = evalArrayIndexExpression a i h2).
  { change (evaluateNode (S fuel)) with (evaluateNode_body (evaluateNode fuel)).
    cbn [evaluateNode_body].
    rewrite (bind_Ok _ _ _ _ _ Hl).
    rewrite (bind_Ok _ _ _ _ _ (isError_Ok_false _ _ _ Hla ltac:(done))).
    rewrite (bind_Ok _ _ _ _ _ Hi).
    rewrite (bind_Ok _ _ _ _ _ (isError_Ok_false _ _ _ Hli ltac:(done))).
    rewrite (bind_Ok _ _ _ _ _ (deref_Ok _ _ _ Hla2)).
    by rewrite (bind_Ok _ _ _ _ _ (deref_Ok _ _ _ Hli)). }
  rewrite Heval, (evalArrayIndexExpression_integer _ _ _ _ _ Ha Hn Hv Hz).
  split.
  - intros [Hlo Hhi].
    destruct (Z.leb_spec 0 z); [|lia].
    destruct (Z.ltb_spec z (Z.of_nat (length elements))); [|lia]. cbn [andb].
    destruct (lookup_lt_is_Some_2 elements (Z.to_nat z)) as [v Hv']; [lia|].
    exists v. split; [done|]. unfold nth_value. by rewrite Hv'.
  - intros Hout.
    destruct (Z.leb_spec 0 z), (Z.ltb_spec z (Z.of_nat (length elements)));
      try done; lia.
Qed.

Lemma array_index_expression_witness :
  ∃ h2,
    evaluateNode (H := ascii_host) 3
      (Some (IndexExpression (mkToken LBRACKET "[") (Some example_array)
               (Some example_one))) 0 heap_with_environment
    = Ok (Ref 9) h2 ∧
    objects h2 !! 9 = Some (MInteger (number_of_Z 2)).
Proof.
  destruct (array_index_expression (H := ascii_host) 2 (mkToken LBRACKET "[")
              (Some example_array) (Some example_one) 0 heap_with_environment
              (mkHeap (objects initial_heap
                         ++ [MInteger (number_of_Z 1); MInteger (number_of_Z 2); MArray 0])
                 [[Ref 8; Ref 9]] [ {| store := ∅; outer := None |} ])
              (mkHeap (objects initial_heap
                         ++ [MInteger (number_of_Z 1); MInteger (number_of_Z 2); MArray 0;
                             MInteger (number_of_Z 1)])
                 [[Ref 8; Ref 9]] [ {| store := ∅; outer := None |} ])
              10 11 0 [Ref 8; Ref 9] (number_of_Z 1) 1%Z
              eq_refl eq_refl eq_refl eq_refl eq_refl eq_refl eq_refl eq_refl)
    as [Hin _].
  destruct Hin as (v & Hv & Heval); [simpl; lia|].
  injection Hv as <-. eexists. split; [exact Heval | reflexivity].
Defined.

(** * Further properties of the lexer *)

Section LexerBranches.
Context `{Host}.

Lemma while_readChar_stops predicate fuel :
  ∀ l l', while_readChar fuel predicate l = Some l' → predicate (ch l') = false.
Proof.
  induction fuel as [|fuel IH]; intros l l'; simpl;
    destruct (predicate (ch l)) eqn:Hp; try done.
  - by intros [= <-].
  - apply IH.
  - by intros [= <-].
Qed.

(** The result of a loop does not depend on the bound it was given. *)
Lemma while_readChar_fuel predicate fuel :
  ∀ fuel' l a b,
  while_readChar fuel predicate l = Some a →
  while_readChar fuel' predicate l = Some b → a = b.
Proof.
  induction fuel as [|fuel IH]; intros [|fuel'] l a b; simpl;
    destruct (predicate (ch l)); try done; try congruence.
  apply IH.
Qed.

Lemma while_readChar_skip predicate l :
  predicate (ch l) = false → ∀ fuel, while_readChar fuel predicate l = Some l.
Proof. intros Hp [|fuel]; simpl; by rewrite Hp. Qed.

Lemma while_readChar_position predicate fuel :
  ∀ l l', lexer_wf l → while_readChar fuel predicate l = Some l' →
    position l ≤ position l' ∧ input l' = input l.
Proof.
  induction fuel as [|fuel IH]; intros l l' Hwf; simpl;
    destruct (predicate (ch l)); try done; try (by intros [= <-]).
  intros Heq. apply IH in Heq as [Hle Hin]; [|apply readChar_wf].
  destruct Hwf as [Hrp _]. simpl in *. split; [lia | done].
Qed.

Lemma lookupIdent_cases s : lookupIdent s ≠ ILLEGAL ∧ lookupIdent s ≠ INT.
Proof.
  unfold lookupIdent, KEYWORDS. cbn [assoc].
  repeat (destruct (String.eqb _ s); [done|]). done.
Qed.

Lemma single_char_token_cases c t :
  single_char_token c = Some t → t ≠ ILLEGAL ∧ t ≠ INT.
Proof.
  unfold single_char_token.
  repeat (destruct (String.eqb c _); [by intros [= <-]|]). done.
Qed.

(** The branches of [nextToken] after the white space: an [INT] token comes
    from [readNumber] on a digit, an [ILLEGAL] token leaves the lexer where
    it is, and no other branch returns either type. *)
Lemma nextToken_inv l t l' :
  nextToken l = Some (t, l') →
  ∃ l1, skipWhitespace l = Some l1 ∧
    ((tokenType t ≠ ILLEGAL ∧ tokenType t ≠ INT) ∨
     (isDigit (ch l1) = true ∧ ∃ s, readNumber l1 = Some (s, l') ∧ t = mkToken INT s) ∨
     (t = mkToken ILLEGAL (ch l1) ∧ l' = l1 ∧ nextToken l1 = Some (t, l1))).
Proof.
  unfold nextToken at 1.
  destruct (skipWhitespace l) as [l1|] eqn:Hskip; [|done]. cbn [mbind option_bind].
  intros Hnext. exists l1. split; [done|].
  assert (Hskip1 : skipWhitespace l1 = Some l1).
  { apply while_readChar_skip. eapply while_readChar_stops, Hskip. }
  revert Hnext. unfold nextToken. rewrite Hskip1. cbn [mbind option_bind].
  destruct (String.eqb (ch l1) "=").
  { unfold endsWithEqual. destruct (String.eqb (peakChar l1) "=");
      intros [= <- <-]; by left. }
  destruct (String.eqb (ch l1) "!").
  { unfold endsWithEqual. destruct (String.eqb (peakChar l1) "=");
      intros [= <- <-]; by left. }
  destruct (single_char_token (ch l1)) as [tt|] eqn:Hs.
  { intros [= <- <-]. left. by apply single_char_token_cases in Hs. }
  destruct (String.eqb (ch l1) DQUOTE).
  { destruct (readString l1) as [[s l2]|]; [|done]. intros [= <- <-]. by left. }
  destruct (String.eqb (ch l1) ZERO).
  { intros [= <- <-]. by left. }
  destruct (isIdentifier (ch l1)).
  { destruct (readIdentifier l1) as [[s l2]|]; [|done]. intros [= <- <-]. left.
    apply lookupIdent_cases. }
  destruct (isDigit (ch l1)) eqn:Hd.
  { destruct (readNumber l1) as [[s l2]|] eqn:Hn; [|done]. intros [= <- <-].
    right; left. eauto. }
  intros [= <- <-]. right; right. done.
Qed.

Lemma nextToken_ILLEGAL_stuck l t l' :
  nextToken l = Some (t, l') → tokenType t = ILLEGAL → nextToken l' = Some (t, l').
Proof.
  intros Hnext Ht.
  destruct (nextToken_inv _ _ _ Hnext)
    as (l1 & Hskip & [[Hne _] | [(_ & s & _ & ->) | (_ & -> & Hstuck)]]); done.
Qed.

Lemma skipWhitespace_readChar l :
  includes WHITE_SPACES (ch l) = true →
  skipWhitespace l = skipWhitespace (readChar l).
Proof.
  intros Hws.
  destruct (skipWhitespace_total (readChar l)) as (b & Hb & _).
  rewrite Hb. unfold skipWhitespace in *. cbn [while_readChar]. rewrite Hws.
  destruct (while_readChar_total (includes WHITE_SPACES) eq_refl
              (remaining l) (readChar l)) as (a & Ha & _).
  { destruct (Nat.le_gt_cases (String.length (input l)) (readPosition l)) as [Hle | Hlt].
    - right. by apply readChar_past_end.
    - left. pose proof (remaining_readChar l Hlt). lia. }
  rewrite Ha. f_equal. eapply while_readChar_fuel; eassumption.
Qed.

End LexerBranches.

(** X1.  A character that starts no token is never consumed: when
    [Lexer.nextToken()] returns an [ILLEGAL] token, it leaves the lexer on
    that character, and every further call returns the same token from the
    same state. *)
Theorem illegal_character_is_never_consumed `{Host} (l l' : Lexer) (t : Token) :
  nextToken l = Some (t, l') → tokenType t = ILLEGAL →
  literal t = ch l' ∧ ∀ k, nextTokens k l' = Some (repeat t k, l').
Proof.
  intros Hnext Ht. split.
  - destruct (nextToken_inv _ _ _ Hnext)
      as (l1 & Hskip & [[Hne _] | [(_ & s & _ & ->) | (-> & -> & _)]]); done.
  - pose proof (nextToken_ILLEGAL_stuck _ _ _ Hnext Ht) as Hstuck.
    intros k. induction k as [|k IH]; [done|].
    cbn [nextTokens]. rewrite Hstuck. cbn [mbind option_bind]. by rewrite IH.
Qed.

Lemma illegal_character_is_never_consumed_witness :
  literal (mkToken ILLEGAL "@") = ch (readChar (readChar (newLexer "  @ 1"))) ∧
  ∀ k, nextTokens (H := ascii_host) k (readChar (readChar (newLexer "  @ 1")))
       = Some (repeat (mkToken ILLEGAL "@") k, readChar (readChar (newLexer "  @ 1"))).
Proof.
  apply (illegal_character_is_never_consumed (H := ascii_host) (newLexer "  @ 1")
           (readChar (readChar (newLexer "  @ 1"))) (mkToken ILLEGAL "@"));
    reflexivity.
Defined.

(** X2.  White space before a token is insignificant: with a space, tab,
    line feed or carriage return under the cursor, [Lexer.nextToken()]
    returns the token and the state that it returns after one [readChar()]. *)
Theorem leading_white_space_is_skipped `{Host} (l : Lexer) :
  includes WHITE_SPACES (ch l) = true → nextToken l = nextToken (readChar l).
Proof.
  intros Hws. unfold nextToken. by rewrite (skipWhitespace_readChar l Hws).
Qed.

Lemma leading_white_space_is_skipped_witness :
  nextToken (H := ascii_host) (newLexer " let")
  = nextToken (H := ascii_host) (readChar (newLexer " let")).
Proof.
  apply (leading_white_space_is_skipped (H := ascii_host) (newLexer " let")).
  reflexivity.
Defined.

(** ** Integer literals *)

Section NotNaN.
Local Open Scope Z_scope.

Lemma iter_pos_invariant {A} (P : A → Prop) (f : A → A) :
  (∀ x, P x → P (f x)) → ∀ n x, P x → P (SpecFloat.iter_pos f n x).
Proof.
  intros Hf. induction n as [n IH | n IH |]; intros x Hx; simpl; auto.
Qed.

Lemma shr_1_nonneg mrs : 0 ≤ shr_m mrs → 0 ≤ shr_m (shr_1 mrs).
Proof.
  destruct mrs as [m r s]. simpl. destruct m as [|[p|p|]|p]; simpl; lia.
Qed.

Lemma shr_fexp_nonneg m e l :
  0 ≤ m → 0 ≤ shr_m (fst (shr_fexp prec emax m e l)).
Proof.
  intros Hm. unfold shr_fexp, shr.
  assert (H0 : 0 ≤ shr_m (shr_record_of_loc m l)) by (by destruct l as [|[]]).
  destruct (_ - e); simpl; [done | | done].
  by apply (iter_pos_invariant (λ mrs, 0 ≤ shr_m mrs)), H0; apply shr_1_nonneg.
Qed.

Lemma round_nearest_even_nonneg m l : 0 ≤ m → 0 ≤ round_nearest_even m l.
Proof.
  intros Hm. destruct l as [|[]]; simpl; try lia. destruct (Z.even m); lia.
Qed.

Lemma binary_round_aux_not_NaN sx mx ex lx :
  0 ≤ mx → isNaN (binary_round_aux prec emax sx mx ex lx) = false.
Proof.
  intros Hm. unfold binary_round_aux.
  pose proof (shr_fexp_nonneg mx ex lx Hm) as H1.
  destruct (shr_fexp prec emax mx ex lx) as [mrs' e']. simpl in H1.
  pose proof (shr_fexp_nonneg _ e' loc_Exact
                (round_nearest_even_nonneg _ (loc_of_shr_record mrs') H1)) as H2.
  destruct (shr_fexp prec emax _ e' loc_Exact) as [mrs'' e'']. simpl in H2.
  destruct (shr_m mrs''); [done | | lia].
  by destruct (_ <=? _).
Qed.

(** The [number] nearest to an integer is a number. *)
Lemma number_of_Z_not_NaN z : isNaN (number_of_Z z) = false.
Proof.
  unfold number_of_Z, binary_normalize, binary_round.
  destruct z as [|p|p]; [done | |];
    destruct (shl_align _ _ _); by apply binary_round_aux_not_NaN.
Qed.

End NotNaN.

Lemma substring_first s : ∀ p k c,
  String.get p s = Some c →
  String.substring p (S k) s = String c (String.substring (S p) k s).
Proof.
  induction s as [|a s IH]; intros [|p] k c; simpl; try done.
  - by intros [= ->].
  - apply IH.
Qed.

Lemma digits_prefix_Some s : ∀ z, ∃ z', digits_prefix s (Some z) = Some z'.
Proof.
  induction s as [|c s IH]; intros z; cbn [digits_prefix]; [eauto|].
  destruct (isDigit (String c "")); eauto.
Qed.

(** [parseInt] reads a number off every text that starts with a digit. *)
Lemma parseInt_digit c rest :
  isDigit (String c "") = true → isNaN (parseInt (String c rest)) = false.
Proof.
  intros Hd.
  assert (Hws : includes WHITE_SPACES (String c "") = false).
  { revert Hd. destruct c as [[] [] [] [] [] [] [] []]; by vm_compute. }
  assert (Hsign : c ≠ "-"%char ∧ c ≠ "+"%char).
  { split; intros ->; by vm_compute in Hd. }
  unfold parseInt. cbn [trimStart]. rewrite Hws.
  assert (Hnum : ∃ z, digits_prefix (String c rest) None = Some z).
  { cbn [digits_prefix]. rewrite Hd. apply digits_prefix_Some. }
  destruct Hnum as [z Hz].
  destruct c as [[] [] [] [] [] [] [] []]; try (by destruct Hsign);
    rewrite Hz; apply number_of_Z_not_NaN.
Qed.

(** The text that [readValue] returns starts with the character it was
    called on. *)
Lemma readValue_first `{Host} predicate l s l' :
  lexer_wf l → predicate (ch l) = true → ch l ≠ ZERO →
  readValue predicate l = Some (s, l') →
  ∃ c rest, ch l = String c "" ∧ s = String c rest.
Proof.
  intros Hwf Hp Hne. unfold readValue. cbn [while_readChar]. rewrite Hp.
  destruct (while_readChar _ _ _) as [l1|] eqn:Hloop; [|done].
  cbn [mbind option_bind]. intros [= <- <-].
  apply while_readChar_position in Hloop as [Hle Hin]; [|apply readChar_wf].
  destruct Hwf as [Hrp Hch]. simpl in Hle. rewrite Hin. simpl.
  destruct (Nat.leb_spec (String.length (input l)) (position l)) as [|Hlt]; [done|].
  unfold charAt in Hch.
  destruct (String.get (position l) (input l)) as [c|] eqn:Hget; [|done].
  exists c. unfold js_substring.
  replace (Nat.min (position l) (String.length (input l))) with (position l) by lia.
  set (b := Nat.min (position l1) (String.length (input l))).
  replace (Nat.min (position l) b) with (position l) by lia.
  replace (Nat.max (position l) b - position l) with (S (b - S (position l))) by lia.
  erewrite substring_first by done. eauto.
Qed.

(** X3.  The literal of every [INT] token that the lexer returns reads as a
    number: [parseInt] of it is not [NaN], so [parseIntegerLiteral] on such
    a token returns the [IntegerLiteral] and reports no
    [could not parse ... as integer] error. *)
Theorem INT_token_is_a_number `{Host} (l l' : Lexer) (t : Token) :
  lexer_wf l → nextToken l = Some (t, l') → tokenType t = INT →
  isNaN (parseInt (literal t)) = false ∧
  ∀ p, curToken p = t →
    parseIntegerLiteral p = Ok (Some (IntegerLiteral t (parseInt (literal t)))) p.
Proof.
  intros Hwf Hnext Ht.
  assert (Hnum : isNaN (parseInt (literal t)) = false).
  { destruct (nextToken_inv _ _ _ Hnext)
      as (l1 & Hskip & [[_ Hne] | [(Hd & s & Hread & ->) | (-> & _)]]); try done.
    destruct (skipWhitespace_total l) as (l1' & Hskip' & _ & Hwf1).
    rewrite Hskip in Hskip'. injection Hskip' as <-.
    destruct (readValue_first isDigit l1 s l' (Hwf1 Hwf) Hd) as (c & rest & Hc & ->);
      [by intros E; rewrite E in Hd | done |].
    simpl. apply parseInt_digit. by rewrite <- Hc. }
  split; [done|].
  intros p Hp. unfold parseIntegerLiteral, getCurToken.
  unfold mbind, M_bind. rewrite Hp, Hnum. done.
Qed.

Lemma INT_token_is_a_number_witness :
  isNaN (parseInt (literal (mkToken INT "12"))) = false ∧
  ∀ p, curToken p = mkToken INT "12" →
    parseIntegerLiteral p
    = Ok (Some (IntegerLiteral (mkToken INT "12") (parseInt (literal (mkToken INT "12"))))) p.
Proof.
  apply (INT_token_is_a_number (H := ascii_host) (newLexer " 12a")
           (readChar (readChar (readChar (newLexer " 12a")))) (mkToken INT "12")).
  - apply newLexer_wf.
  - reflexivity.
  - reflexivity.
Defined.

(** ** The parser on an illegal character *)

Section StuckParser.
Context `{Host}.

Lemma parseStatement_stuck fuel t p :
  stuck_parser t p → tokenType t = ILLEGAL →
  parseStatement fuel p = Timeout ∨
  ∃ st p', parseStatement fuel p = Ok st p' ∧ stuck_parser t p'.
Proof.
  intros (Hcur & Hpeek & Hnext) Ht.
  destruct fuel as [|[|fuel]]; [by left | left | right];
    unfold parseStatement; cbn [parser_at self_parseStatement];
    unfold parseStatement_body, mbind at 1, M_bind at 1, get;
    rewrite Hcur, Ht;
    unfold parseExpressionStatement, getCurToken, mbind, M_bind;
    cbn [self_parseExpression]; [done|].
  unfold parseExpression_body, mbind, M_bind, get. rewrite Hcur, Ht.
  cbn [prefixParsers]. unfold noPrefixParserError, pushError, peekTokenIs.
  unfold mret, M_ret. cbn [peekToken]. rewrite Hpeek, Ht. cbn.
  eexists _, _. split; [reflexivity|]. done.
Qed.

Lemma parseProgram_while_stuck fuel t n :
  tokenType t = ILLEGAL →
  ∀ statements p, stuck_parser t p →
    parseProgram_while fuel n statements p = Timeout.
Proof.
  intros Ht. induction n as [|n IH]; intros statements p Hp;
    cbn [parseProgram_while]; unfold mbind at 1, M_bind at 1;
    unfold curTokenIs at 1; destruct Hp as (Hcur & Hpeek & Hnext);
    rewrite Hcur, Ht; cbn [bool_decide decide_rel]; [done|].
  rewrite bool_decide_eq_false_2 by done.
  destruct (parseStatement_stuck fuel t p) as [Hst | (st & p' & Hst & Hp')];
    [done | done | |]; unfold mbind at 1, M_bind at 1; rewrite Hst; [done|].
  destruct Hp' as (Hcur' & Hpeek' & Hnext').
  unfold mbind at 1, M_bind at 1. unfold Parser_nextToken at 1. rewrite Hnext'.
  apply IH. split; [|split]; simpl; congruence.
Qed.

End StuckParser.

(** X4.  The parser does not return on a source whose first token is
    [ILLEGAL]: the lexer never moves past the character, the loop of
    [parseProgram] never sees [EOF], and whatever the fuel the outcome of
    [parse] is [Timeout]. *)
Theorem parse_loops_on_illegal_character `{Host} (source : string) (t : Token)
    (l : Lexer) :
  nextToken (newLexer source) = Some (t, l) → tokenType t = ILLEGAL →
  ∀ fuel, parse fuel source = Timeout.
Proof.
  intros Hnext Ht fuel.
  pose proof (nextToken_ILLEGAL_stuck _ _ _ Hnext Ht) as Hstuck.
  unfold parse, newParser. unfold mbind, M_bind, Parser_nextToken. cbn [lexer].
  rewrite Hnext. cbn [lexer]. rewrite Hstuck. cbn [peekToken _errors].
  unfold parseProgram. unfold mbind, M_bind.
  by rewrite (parseProgram_while_stuck fuel t fuel Ht).
Qed.

Lemma parse_loops_on_illegal_character_witness :
  parse (H := ascii_host) 10 "@ let x = 1;" = Timeout ∧
  parse (H := ascii_host) 1000 "@ let x = 1;" = Timeout.
Proof.
  split;
    apply (parse_loops_on_illegal_character (H := ascii_host) "@ let x = 1;"
             (mkToken ILLEGAL "@") (newLexer "@ let x = 1;")); reflexivity.
Defined.

(** ** Progress of the lexer *)

Section LexerProgress.
Context `{Host}.

Lemma readString_loop_position fuel :
  ∀ l l', readString_loop fuel l = Some l' → readPosition l ≤ position l'.
Proof.
  induction fuel as [|fuel IH]; intros l l'; cbn [readString_loop];
    destruct (String.eqb (ch (readChar l)) DQUOTE || String.eqb (ch (readChar l)) ZERO);
    try done; try (by intros [= <-]).
  intros Hloop. apply IH in Hloop. simpl in Hloop. lia.
Qed.

Lemma readValue_position predicate l s l' :
  lexer_wf l → predicate (ch l) = true → readValue predicate l = Some (s, l') →
  position l < position l'.
Proof.
  intros Hwf Hp. unfold readValue. cbn [while_readChar]. rewrite Hp.
  destruct (while_readChar _ _ _) as [l1|] eqn:Hloop; [|done].
  cbn [mbind option_bind]. intros [= <- <-].
  apply while_readChar_position in Hloop as [Hle _]; [|apply readChar_wf].
  destruct Hwf as [Hrp _]. simpl in Hle. lia.
Qed.

(** Every call of [nextToken] that returns another token than [ILLEGAL]
    moves the cursor forward. *)
Lemma nextToken_progress l t l' :
  lexer_wf l → nextToken l = Some (t, l') → tokenType t ≠ ILLEGAL →
  position l < position l'.
Proof.
  intros Hwf. unfold nextToken.
  destruct (skipWhitespace l) as [l1|] eqn:Hskip; [|done]. cbn [mbind option_bind].
  destruct (skipWhitespace_total l) as (l1' & Hskip' & _ & Hwf1).
  rewrite Hskip in Hskip'. injection Hskip' as <-. specialize (Hwf1 Hwf).
  apply while_readChar_position in Hskip as [Hle _]; [|done].
  destruct Hwf1 as [Hrp1 Hch1].
  destruct (String.eqb (ch l1) "=").
  { unfold endsWithEqual. destruct (String.eqb (peakChar l1) "=");
      intros [= <- <-] _; simpl; lia. }
  destruct (String.eqb (ch l1) "!").
  { unfold endsWithEqual. destruct (String.eqb (peakChar l1) "=");
      intros [= <- <-] _; simpl; lia. }
  destruct (single_char_token (ch l1)) as [tt|].
  { intros [= <- <-] _. simpl. lia. }
  destruct (String.eqb (ch l1) DQUOTE).
  { unfold readString.
    destruct (readString_loop (remaining l1) l1) as [l2|] eqn:Hloop; [|done].
    cbn [mbind option_bind]. intros [= <- <-] _.
    destruct (readString_loop_total (remaining l1) l1) as (l2' & Hloop' & _ & Hwf2); [lia|].
    rewrite Hloop in Hloop'. injection Hloop' as <-.
    apply readString_loop_position in Hloop. destruct Hwf2 as [Hrp2 _]. simpl. lia. }
  destruct (String.eqb (ch l1) ZERO).
  { intros [= <- <-] _. simpl. lia. }
  destruct (isIdentifier (ch l1)) eqn:Hid.
  { unfold readIdentifier.
    destruct (readValue isIdentifier l1) as [[s l2]|] eqn:Hread; [|done].
    cbn [mbind option_bind]. intros [= <- <-] _.
    apply readValue_position in Hread; [lia | done | done]. }
  destruct (isDigit (ch l1)) eqn:Hd.
  { unfold readNumber.
    destruct (readValue isDigit l1) as [[s l2]|] eqn:Hread; [|done].
    cbn [mbind option_bind]. intros [= <- <-] _.
    apply readValue_position in Hread; [lia | done | done]. }
  by intros [= <- <-] Hne.
Qed.

Lemma nextTokens_progress n :
  ∀ l ts l', lexer_wf l → nextTokens n l = Some (ts, l') →
  Forall (λ t, tokenType t ≠ ILLEGAL) ts →
  position l + n ≤ position l' ∧ lexer_wf l' ∧ input l' = input l.
Proof.
  induction n as [|n IH]; intros l ts l' Hwf; cbn [nextTokens].
  - intros [= <- <-] _. split; [lia | done].
  - destruct (nextToken l) as [[t l1]|] eqn:Hnext; [|done]. cbn [mbind option_bind].
    destruct (nextTokens n l1) as [[ts1 l2]|] eqn:Hrest; [|done].
    cbn [mbind option_bind]. intros [= <- <-] Hall.
    apply Forall_cons in Hall as [Ht Hts].
    destruct (nextToken_returns l) as (t' & l1' & Hnext' & Hin & Hwf1).
    rewrite Hnext in Hnext'. injection Hnext' as <- <-.
    pose proof (nextToken_progress _ _ _ Hwf Hnext Ht) as Hlt.
    destruct (IH _ _ _ (Hwf1 Hwf) Hrest Hts) as (Hle & Hwf2 & Hin2).
    split; [lia|]. split; [done | congruence].
Qed.

End LexerProgress.

(** X29.  A token other than [ILLEGAL] consumes input: every call of
    [nextToken()] from a well-formed state that returns another token moves
    the position forward, so a source is exhausted by as many calls as it
    has characters: when the first [n] tokens of a source of at most [n]
    characters are not [ILLEGAL], every further token is [(EOF, "")]. *)
Theorem tokens_consume_the_source `{Host} (source : string) (n : nat)
    (ts : list Token) (l : Lexer) :
  nextTokens n (newLexer source) = Some (ts, l) →
  Forall (λ t, tokenType t ≠ ILLEGAL) ts →
  n ≤ position l ∧
  (String.length source ≤ n →
   ∀ k, ∃ l', nextTokens k l = Some (repeat (mkToken EOF "") k, l')).
Proof.
  intros Hn Hts.
  destruct (nextTokens_progress n _ _ _ (newLexer_wf source) Hn Hts)
    as (Hle & Hwf & Hin).
  split; [lia|]. intros Hlen k.
  apply nextTokens_at_end; [done|]. rewrite Hin. simpl in *. lia.
Qed.

Lemma tokens_consume_the_source_witness :
  2 ≤ position (readChar (readChar (newLexer "1;"))) ∧
  ∀ k, ∃ l', nextTokens (H := ascii_host) k (readChar (readChar (newLexer "1;")))
             = Some (repeat (mkToken EOF "") k, l').
Proof.
  refine ((λ W, conj (proj1 W) (proj2 W _))
            (tokens_consume_the_source (H := ascii_host) "1;" 2
               [mkToken INT "1"; mkToken SEMICOLON ";"]
               (readChar (readChar (newLexer "1;"))) _ _)).
  - simpl. lia.
  - reflexivity.
  - repeat constructor; discriminate.
Defined.

(** * Further properties of the evaluator *)

(** ** Environments *)

Lemma environment_at_Ok h env e :
  environments h !! env = Some e → environment_at env h = Ok e h.
Proof. intros He. unfold environment_at. by rewrite He. Qed.

Lemma Environment_get_chain_eq n env name h e :
  environments h !! env = Some e →
  Environment_get_chain n env name h =
    match default JSundefined (store e !! name), outer e with
    | JSundefined, Some o =>
        match n with
        | O => Timeout
        | S n' => Environment_get_chain n' o name h
        end
    | JSundefined, None => Ok JSnull h
    | v, _ => Ok v h
    end.
Proof.
  intros He. destruct n; cbn [Environment_get_chain];
    rewrite (bind_Ok _ _ _ _ _ (environment_at_Ok _ _ _ He));
    by destruct (default JSundefined (store e !! name)), (outer e).
Qed.

Lemma Environment_get_bound env name h e v :
  environments h !! env = Some e → store e !! name = Some v → v ≠ JSundefined →
  Environment_get env name h = Ok v h.
Proof.
  intros He Hv Hne. unfold Environment_get, get, mbind, M_bind.
  rewrite (Environment_get_chain_eq _ _ _ _ _ He), Hv. simpl.
  by destruct v, (outer e).
Qed.

Lemma Environment_set_Ok env name v h e :
  environments h !! env = Some e →
  Environment_set env name v h
  = Ok tt {| objects := objects h; arrays := arrays h;
             environments :=
               <[env := {| store := <[name := v]> (store e); outer := outer e |}]>
                 (environments h) |}.
Proof. intros He. unfold Environment_set. by rewrite He. Qed.

(** With well-founded scopes the chain of a scope is shorter than its
    address: the bound of the lookup is never reached. *)
Lemma Environment_get_chain_wf h name :
  scopes_wf h →
  ∀ env n, env < n → env < length (environments h) →
  ∃ v, Environment_get_chain n env name h = Ok v h ∧
       ∀ m, env < m → Environment_get_chain m env name h = Ok v h.
Proof.
  intros Hwf env. induction env as [env IH] using lt_wf_ind.
  intros n Hn Hlen.
  destruct (lookup_lt_is_Some_2 _ _ Hlen) as [e He].
  assert (Hstep : ∀ m, env < m →
    Environment_get_chain m env name h =
      match default JSundefined (store e !! name), outer e with
      | JSundefined, Some o => Environment_get_chain (m - 1) o name h
      | JSundefined, None => Ok JSnull h
      | v, _ => Ok v h
      end).
  { intros m Hm. rewrite (Environment_get_chain_eq _ _ _ _ _ He).
    destruct m as [|m]; [lia|]. by rewrite Nat.sub_1_r. }
  destruct (default JSundefined (store e !! name)) eqn:Hv;
    try (eexists; split; [by rewrite Hstep | intros m Hm; by rewrite Hstep]).
  destruct (outer e) as [o|] eqn:Ho;
    [| eexists; split; [by rewrite Hstep | intros m Hm; by rewrite Hstep]].
  pose proof (Hwf _ _ _ He Ho) as Hlt.
  destruct (IH o Hlt (n - 1)) as (v & Hv1 & Hv2); [lia | lia |].
  exists v. split; [by rewrite Hstep | intros m Hm; rewrite Hstep by done; apply Hv2; lia].
Qed.

(** X5.  A binding is read back: after [env.set(name, value)],
    [env.get(name)] returns that very value, whatever [name] was bound to
    before in this scope or in the enclosing ones.  The objects, the arrays
    and every other scope are left as they were, and so is every other name
    of this scope. *)
Theorem environment_set_then_get (h : Heap) (env : loc) (e : Environment)
    (name : string) (v : value) :
  environments h !! env = Some e → v ≠ JSundefined →
  ∃ h' e',
    Environment_set env name v h = Ok tt h' ∧
    Environment_get env name h' = Ok v h' ∧
    objects h' = objects h ∧ arrays h' = arrays h ∧
    (∀ other, other ≠ env → environments h' !! other = environments h !! other) ∧
    environments h' !! env = Some e' ∧ outer e' = outer e ∧
    (∀ other, other ≠ name → store e' !! other = store e !! other).
Proof.
  intros He Hv.
  eexists _, {| store := <[name := v]> (store e); outer := outer e |}.
  split; [by apply Environment_set_Ok|].
  assert (Hlt : env < length (environments h)) by (by eapply lookup_lt_Some).
  split; [|split; [done|split; [done|split; [|split; [|split; [done|]]]]]].
  - eapply Environment_get_bound; [| |done].
    + cbn [environments]. by apply list_lookup_insert_eq.
    + cbn [store]. apply lookup_insert_eq.
  - intros other Hne. cbn [environments]. by apply list_lookup_insert_ne.
  - cbn [environments]. by apply list_lookup_insert_eq.
  - intros other Hne. cbn [store]. by apply lookup_insert_ne.
Qed.

Lemma environment_set_then_get_witness :
  ∃ h' e',
    Environment_set 1 "x" (Ref 9) heap_with_scopes = Ok tt h' ∧
    Environment_get 1 "x" h' = Ok (Ref 9) h' ∧
    objects h' = objects heap_with_scopes ∧ arrays h' = arrays heap_with_scopes ∧
    (∀ other, other ≠ 1 →
       environments h' !! other = environments heap_with_scopes !! other) ∧
    environments h' !! 1 = Some e' ∧ outer e' = outer inner_scope ∧
    (∀ other, other ≠ "x" → store e' !! other = store inner_scope !! other).
Proof.
  apply (environment_set_then_get heap_with_scopes 1 inner_scope "x" (Ref 9));
    [reflexivity | discriminate].
Defined.

(** X6.  Lookup follows the chain of scopes: provided every [outer] scope
    is older than the scope it encloses, [env.get(name)] returns a value
    from every scope (the chain ends); where the scope has no defined
    binding of [name], the value is that of the lookup in the [outer] scope,
    and [null] when there is no [outer] scope. *)
Theorem environment_get_follows_outer (h : Heap) (env : loc) (e : Environment)
    (name : string) :
  scopes_wf h → environments h !! env = Some e →
  (∃ v, Environment_get env name h = Ok v h) ∧
  (default JSundefined (store e !! name) = JSundefined →
   Environment_get env name h =
     match outer e with
     | Some o => Environment_get o name h
     | None => Ok JSnull h
     end).
Proof.
  intros Hwf He.
  assert (Hlt : env < length (environments h)) by (by eapply lookup_lt_Some).
  destruct (Environment_get_chain_wf h name Hwf env _ Hlt Hlt) as (v & Hv & Hall).
  split.
  - exists v. by unfold Environment_get, get, mbind, M_bind.
  - intros Hundef. unfold Environment_get, get, mbind, M_bind.
    rewrite (Environment_get_chain_eq _ _ _ _ _ He), Hundef.
    destruct (outer e) as [o|] eqn:Ho; [|done].
    pose proof (Hwf _ _ _ He Ho) as Hlto.
    destruct (length (environments h)) as [|n] eqn:Hn; [lia|].
    destruct (Environment_get_chain_wf h name Hwf o n) as (w & Hw & Hwall); [lia | lia|].
    rewrite Hw. symmetry. apply Hwall. lia.
Qed.

Lemma environment_get_follows_outer_witness :
  (∃ v, Environment_get 1 "x" heap_with_scopes = Ok v heap_with_scopes) ∧
  Environment_get 1 "x" heap_with_scopes = Environment_get 0 "x" heap_with_scopes.
Proof.
  refine ((λ W, conj (proj1 W) (proj2 W eq_refl))
            (environment_get_follows_outer heap_with_scopes 1 inner_scope "x" _ _)).
  - intros env e o Henv Ho.
    destruct env as [|[|env]]; simpl in Henv; [| |done];
      injection Henv as <-; simpl in Ho; [done | injection Ho as <-; lia].
  - reflexivity.
Defined.

(** ** Bindings and identifiers *)

(** X7.  A [let] is read back by the identifier: when the initialiser
    evaluates to an object that is no error, the [LetStatement] returns that
    object and allocates nothing, and from then on the identifier evaluates
    in this scope to the very same object (the same address), also when the
    name is that of a builtin. *)
Theorem let_then_identifier `{Host} (fuel : nat) (token : Token) (name : Identifier)
    (initialiser : option Node) (env : loc) (h h1 : Heap) (l : loc) (o : MObject)
    (e : Environment) :
  evaluateNode fuel initialiser env h = Ok (Ref l) h1 →
  objects h1 !! l = Some o → (∀ m, o ≠ MError m) →
  environments h1 !! env = Some e →
  ∃ h2,
    evaluateNode (S fuel) (Some (LetStatement token name initialiser)) env h
      = Ok (Ref l) h2 ∧
    objects h2 = objects h1 ∧
    ∀ fuel' token',
      evaluateNode (S fuel') (Some (Ident (mkIdentifier token' (id_value name)))) env h2
        = Ok (Ref l) h2.
Proof.
  intros Hv Ho Hne He.
  eexists. split; [|split].
  - cbn [evaluateNode evaluateNode_body].
    rewrite (bind_Ok _ _ _ _ _ Hv), (ifNotError_Ok _ _ _ _ Ho Hne).
    unfold Environment_put.
    rewrite (bind_Ok _ _ _ _ _ (Environment_set_Ok _ _ _ _ _ He)). reflexivity.
  - done.
  - intros fuel' token'. cbn [evaluateNode evaluateNode_body id_value].
    match goal with |- (_ ≫= _) ?s = _ =>
      assert (Hget : Environment_get env (id_value name) s = Ok (Ref l) s)
    end.
    { eapply Environment_get_bound; [| |done].
      + cbn [environments]. apply list_lookup_insert_eq. by eapply lookup_lt_Some.
      + cbn [store]. apply lookup_insert_eq. }
    by rewrite (bind_Ok _ _ _ _ _ Hget).
Qed.

Lemma let_then_identifier_witness :
  ∃ h2,
    evaluateNode (H := ascii_host) 2
      (Some (LetStatement (mkToken LET "let") (mkIdentifier (mkToken IDENT "len") "len")
               (Some example_two))) 1 heap_with_scopes
      = Ok (Ref 10) h2 ∧
    objects h2 = objects heap_with_scopes ++ [MInteger (number_of_Z 2)] ∧
    ∀ fuel' token',
      evaluateNode (H := ascii_host) (S fuel')
        (Some (Ident (mkIdentifier token' "len"))) 1 h2
        = Ok (Ref 10) h2.
Proof.
  apply (let_then_identifier (H := ascii_host) 1 (mkToken LET "let")
           (mkIdentifier (mkToken IDENT "len") "len") (Some example_two) 1
           heap_with_scopes
           (mkHeap (objects heap_with_scopes ++ [MInteger (number_of_Z 2)]) []
              [global_scope; inner_scope])
           10 (MInteger (number_of_Z 2)) inner_scope).
  - reflexivity.
  - reflexivity.
  - intros m. discriminate.
  - reflexivity.
Defined.

(** ** Errors end the evaluation of a node *)

(** X8.  An [Error] in the first operand is the result of the node: when
    the operand of a prefix expression, the left operand of an infix or
    index expression, the initialiser of a [let], the value of a [return],
    the expression of an expression statement, the condition of an [if] or
    the callee of a call evaluates to an [MError], the node evaluates to
    that same object and leaves the heap as the operand left it; nothing
    else of the node is evaluated. *)
Theorem error_in_first_operand `{Host} (fuel : nat) (operand : option Node)
    (env : loc) (h h1 : Heap) (l : loc) (message : string) :
  evaluateNode fuel operand env h = Ok (Ref l) h1 →
  objects h1 !! l = Some (MError message) →
  ∀ (token : Token) (other : option Node),
    (∀ operator, evaluateNode (S fuel)
       (Some (PrefixExpression token operator operand)) env h = Ok (Ref l) h1) ∧
    (∀ operator, evaluateNode (S fuel)
       (Some (InfixExpression token operand operator other)) env h = Ok (Ref l) h1) ∧
    evaluateNode (S fuel) (Some (IndexExpression token operand other)) env h
      = Ok (Ref l) h1 ∧
    (∀ name, evaluateNode (S fuel) (Some (LetStatement token name operand)) env h
      = Ok (Ref l) h1) ∧
    evaluateNode (S fuel) (Some (ReturnStatement token operand)) env h
      = Ok (Ref l) h1 ∧
    evaluateNode (S fuel) (Some (ExpressionStatement token operand)) env h
      = Ok (Ref l) h1 ∧
    (∀ consequence alternative, evaluateNode (S fuel)
       (Some (IfExpression token operand consequence alternative)) env h
      = Ok (Ref l) h1) ∧
    (∀ args, evaluateNode (S fuel) (Some (CallExpression token operand args)) env h
      = Ok (Ref l) h1).
Proof.
  intros Hv Ho token other.
  assert (Hif : ∀ body, ifNotError (Ref l) body h1 = Ok (Ref l) h1).
  { intros body. unfold ifNotError.
    by rewrite (bind_Ok _ _ _ _ _ (object_at_Ok _ _ _ Ho)). }
  assert (He : isError (Ref l) h1 = Ok true h1).
  { unfold isError. by rewrite (bind_Ok _ _ _ _ _ (deref_Ok _ _ _ Ho)). }
  repeat split; intros; cbn [evaluateNode evaluateNode_body];
    try (by rewrite (bind_Ok _ _ _ _ _ Hv), Hif); try done.
  rewrite (bind_Ok _ _ _ _ _ Hv). by rewrite (bind_Ok _ _ _ _ _ He).
Qed.

Lemma error_in_first_operand_witness :
  ∃ h1,
    evaluateNode (H := ascii_host) 2
      (Some (InfixExpression (mkToken PLUS "+") (Some example_unbound) "+"
               (Some example_one))) 0 heap_with_environment
    = Ok (Ref 8) h1 ∧
    objects h1 !! 8 = Some (MError "identifier not found: nope").
Proof.
  eexists. split.
  - refine (proj1 (proj2 (error_in_first_operand (H := ascii_host) 1
              (Some example_unbound) 0 heap_with_environment _ 8
              "identifier not found: nope" _ _ _ _)) _); reflexivity.
  - reflexivity.
Defined.

(** X9.  An [Error] in the second operand: when the left operand of an
    infix or index expression evaluates to an object that is no error and
    the right operand (the index) then evaluates to an [MError], the node
    evaluates to that error; the operator is not applied. *)
Theorem error_in_second_operand `{Host} (fuel : nat) (first second : option Node)
    (env : loc) (h h1 h2 : Heap) (l r : loc) (o : MObject) (message : string) :
  evaluateNode fuel first env h = Ok (Ref l) h1 →
  objects h1 !! l = Some o → (∀ m, o ≠ MError m) →
  evaluateNode fuel second env h1 = Ok (Ref r) h2 →
  objects h2 !! r = Some (MError message) →
  ∀ token : Token,
    (∀ operator, evaluateNode (S fuel)
       (Some (InfixExpression token first operator second)) env h = Ok (Ref r) h2) ∧
    evaluateNode (S fuel) (Some (IndexExpression token first second)) env h
      = Ok (Ref r) h2.
Proof.
  intros Hl Ho Hne Hr Hm token.
  assert (He : isError (Ref r) h2 = Ok true h2).
  { unfold isError. by rewrite (bind_Ok _ _ _ _ _ (deref_Ok _ _ _ Hm)). }
  split; [intros operator|]; cbn [evaluateNode evaluateNode_body];
    rewrite (bind_Ok _ _ _ _ _ Hl).
  - rewrite (ifNotError_Ok _ _ _ _ Ho Hne), (bind_Ok _ _ _ _ _ Hr).
    unfold ifNotError. by rewrite (bind_Ok _ _ _ _ _ (object_at_Ok _ _ _ Hm)).
  - rewrite (bind_Ok _ _ _ _ _ (isError_Ok_false _ _ _ Ho Hne)).
    rewrite (bind_Ok _ _ _ _ _ Hr). by rewrite (bind_Ok _ _ _ _ _ He).
Qed.

Lemma error_in_second_operand_witness :
  ∃ h2,
    evaluateNode (H := ascii_host) 2
      (Some (IndexExpression (mkToken LBRACKET "[") (Some example_one)
               (Some example_unbound))) 0 heap_with_environment
    = Ok (Ref 9) h2 ∧
    objects h2 !! 9 = Some (MError "identifier not found: nope").
Proof.
  eexists. split.
  - refine (proj2 (error_in_second_operand (H := ascii_host) 1 (Some example_one)
              (Some example_unbound) 0 heap_with_environment _ _ 8 9
              (MInteger (number_of_Z 1)) "identifier not found: nope" _ _ _ _ _ _));
      try reflexivity.
    intros m. discriminate.
  - reflexivity.
Defined.

(** ** Blocks and programs *)

Section Statements.
Context `{Host}.
Variable ev : option Node → loc → M Heap value.

Lemma goes_on_deref v h :
  goes_on v h →
  ∃ o, deref v h = Ok o h ∧
       match o with Some (MReturnValue _) | Some (MError _) => False | _ => True end.
Proof.
  destruct v as [| |l]; simpl; [by exists None | by exists None |].
  intros (o & Ho & Hgo). exists (Some o). split; [by apply deref_Ok | done].
Qed.

Lemma evalStatements_go_on pre :
  ∀ rest env result h h' result',
  statements_go_on ev env pre h result h' result' →
  evalStatements ev (pre ++ rest) env result h = evalStatements ev rest env result' h'.
Proof.
  induction pre as [|st pre IH]; intros rest env result h h' result' Hpre.
  - by destruct Hpre as [-> ->].
  - destruct Hpre as (v & h1 & Hst & Hgo & Hrest).
    cbn [app evalStatements]. rewrite (bind_Ok _ _ _ _ _ Hst).
    destruct (goes_on_deref _ _ Hgo) as (o & Ho & Hcase).
    rewrite (bind_Ok _ _ _ _ _ Ho).
    destruct o as [[]|]; try done; by apply IH.
Qed.

End Statements.

Lemma evaluate_for_go_on `{Host} fuel pre :
  ∀ rest env result h h' result',
  statements_go_on (evaluateNode fuel) env (map Some pre) h result h' result' →
  evaluate_for fuel (pre ++ rest) env result h = evaluate_for fuel rest env result' h'.
Proof.
  induction pre as [|st pre IH]; intros rest env result h h' result' Hpre.
  - by destruct Hpre as [-> ->].
  - destruct Hpre as (v & h1 & Hst & Hgo & Hrest).
    cbn [app evaluate_for]. rewrite (bind_Ok _ _ _ _ _ Hst).
    destruct (goes_on_deref _ _ Hgo) as (o & Ho & Hcase).
    rewrite (bind_Ok _ _ _ _ _ Ho).
    destruct o as [[]|]; try done; by apply IH.
Qed.

(** X10.  A block ends at its first [return] or error: when the statements
    [pre] go on and the next statement evaluates to an [MReturnValue] or an
    [MError], the block evaluates to that very object, the [MReturnValue]
    still wrapped, and leaves the heap as that statement left it; the
    statements [post] are not evaluated. *)
Theorem block_ends_at_return_or_error `{Host} (fuel : nat) (token : Token)
    (pre : list (option Node)) (statement : option Node) (env : loc)
    (h h1 h2 : Heap) (result : value) (l : loc) (o : MObject) :
  statements_go_on (evaluateNode fuel) env pre h JSnull h1 result →
  evaluateNode fuel statement env h1 = Ok (Ref l) h2 →
  objects h2 !! l = Some o →
  match o with MReturnValue _ | MError _ => True | _ => False end →
  ∀ post : list (option Node),
    evaluateNode (S fuel)
      (Some (Block (mkBlockStatement token (Some (pre ++ statement :: post))))) env h
    = Ok (Ref l) h2.
Proof.
  intros Hpre Hst Ho Hcase post.
  cbn [evaluateNode evaluateNode_body evalBlockStatement].
  rewrite (evalStatements_go_on _ _ _ _ _ _ _ _ Hpre). cbn [evalStatements].
  rewrite (bind_Ok _ _ _ _ _ Hst), (bind_Ok _ _ _ _ _ (deref_Ok _ _ _ Ho)).
  by destruct o.
Qed.

Lemma block_ends_at_return_or_error_witness :
  ∃ h2,
    evaluateNode (H := ascii_host) 4
      (Some (Block (mkBlockStatement (mkToken LBRACE "{")
         (Some ([Some example_statement] ++ Some example_return
                  :: [Some example_failure]))))) 0 heap_with_environment
    = Ok (Ref 10) h2 ∧
    objects h2 !! 10 = Some (MReturnValue 9).
Proof.
  eexists. split.
  - eapply (block_ends_at_return_or_error (H := ascii_host) 3 (mkToken LBRACE "{")
              [Some example_statement] (Some example_return) 0
              heap_with_environment _ _ (Ref 8) 10 (MReturnValue 9)).
    + eexists _, _. split; [reflexivity|]. split; [|split; reflexivity].
      eexists. split; [reflexivity | exact I].
    + reflexivity.
    + reflexivity.
    + exact I.
  - reflexivity.
Defined.

(** X11.  A program ends at its first [return] or error: when the
    statements [pre] go on and the next statement evaluates to an [MError],
    [evaluate] returns that error; when it evaluates to an [MReturnValue],
    [evaluate] returns the value inside it.  Either way the heap is as that
    statement left it and the statements [post] are not evaluated. *)
Theorem program_ends_at_return_or_error `{Host} (fuel : nat) (pre : list Node)
    (statement : Node) (env : loc) (h h1 h2 : Heap) (result : value) (l : loc)
    (o : MObject) :
  statements_go_on (evaluateNode fuel) env (map Some pre) h JSnull h1 result →
  evaluateNode fuel (Some statement) env h1 = Ok (Ref l) h2 →
  objects h2 !! l = Some o →
  ∀ post : list Node,
    match o with
    | MError _ =>
        evaluate fuel (mkProgram (pre ++ statement :: post)) env h = Ok (Ref l) h2
    | MReturnValue v =>
        evaluate fuel (mkProgram (pre ++ statement :: post)) env h = Ok (Ref v) h2
    | _ => True
    end.
Proof.
  intros Hpre Hst Ho post.
  unfold evaluate. cbn [program_statements].
  rewrite (evaluate_for_go_on _ _ _ _ _ _ _ _ Hpre). cbn [evaluate_for].
  rewrite (bind_Ok _ _ _ _ _ Hst), (bind_Ok _ _ _ _ _ (deref_Ok _ _ _ Ho)).
  by destruct o.
Qed.

Lemma program_ends_at_return_or_error_witness :
  ∃ h2,
    evaluate (H := ascii_host) 3
      (mkProgram ([example_statement] ++ example_failure :: [example_return]))
      0 heap_with_environment
    = Ok (Ref 9) h2 ∧
    objects h2 !! 9 = Some (MError "identifier not found: nope").
Proof.
  eexists. split.
  - refine (program_ends_at_return_or_error (H := ascii_host) 3 [example_statement]
              example_failure 0 heap_with_environment _ _ (Ref 8) 9
              (MError "identifier not found: nope") _ _ _ [example_return]).
    + eexists _, _. split; [reflexivity|]. split; [|split; reflexivity].
      eexists. split; [reflexivity | exact I].
    + reflexivity.
    + reflexivity.
  - reflexivity.
Defined.

(** ** The builtin functions *)

Lemma new_object_Ok o h : new_object o h = Ok (Ref (length (objects h))) (with_object h o).
Proof. reflexivity. Qed.

Lemma typeDesc_Ok h l o : objects h !! l = Some o → typeDesc (Ref l) h = Ok (className o) h.
Proof. intros Ho. unfold typeDesc. by rewrite (bind_Ok _ _ _ _ _ (deref_Ok _ _ _ Ho)). Qed.

(** [arrayCheck] on an array runs the body on its elements. *)
Lemma arrayCheck_Ok name args body h l a els :
  nth_value args 0 = Ref l → objects h !! l = Some (MArray a) →
  arrays h !! a = Some els →
  arrayCheck name args body h = body a (length els) h.
Proof.
  intros Hfirst Ho Ha. unfold arrayCheck. rewrite Hfirst.
  rewrite (bind_Ok _ _ _ _ _ (deref_Ok _ _ _ Ho)).
  by rewrite (bind_Ok _ _ _ _ _ (array_at_Ok _ _ _ Ha)).
Qed.

Lemma call_push_Ok h l a els x :
  objects h !! l = Some (MArray a) → arrays h !! a = Some els →
  call_builtin PUSH [Ref l; x] h
  = Ok (Ref (length (objects h)))
       {| objects := objects h ++ [MArray a];
          arrays := <[a := els ++ [x]]> (arrays h);
          environments := environments h |}.
Proof.
  intros Ho Ha. unfold call_builtin, builtin_push, argSizeCheck.
  cbn [length Nat.eqb negb]. erewrite arrayCheck_Ok; [| reflexivity | exact Ho | exact Ha].
  unfold mbind, M_bind, array_push, new_object. by rewrite Ha.
Qed.

Lemma call_last_Ok h l a els :
  objects h !! l = Some (MArray a) → arrays h !! a = Some els →
  call_builtin LAST [Ref l] h = Ok (default (Ref NULL) (last els)) h.
Proof.
  intros Ho Ha. unfold call_builtin, builtin_last, argSizeCheck.
  cbn [length Nat.eqb negb]. erewrite arrayCheck_Ok; [| reflexivity | exact Ho | exact Ha].
  destruct els as [|x els _] using rev_ind; [done|].
  rewrite length_app, last_snoc. cbn [length].
  replace (0 <? length els + 1) with true by (symmetry; apply Nat.ltb_lt; lia).
  rewrite (bind_Ok _ _ _ _ _ (array_at_Ok _ _ _ Ha)).
  unfold nth_value. rewrite lookup_app_r by lia.
  by replace (length els + 1 - 1 - length els) with 0 by lia.
Qed.

Lemma call_len_array_Ok h l a els :
  objects h !! l = Some (MArray a) → arrays h !! a = Some els →
  call_builtin LEN [Ref l] h
  = Ok (Ref (length (objects h)))
       (with_object h (MInteger (number_of_nat (length els)))).
Proof.
  intros Ho Ha. unfold call_builtin, builtin_len, argSizeCheck.
  cbn [length Nat.eqb negb nth_value lookup list_lookup default].
  rewrite (bind_Ok _ _ _ _ _ (deref_Ok _ _ _ Ho)).
  by rewrite (bind_Ok _ _ _ _ _ (array_at_Ok _ _ _ Ha)).
Qed.

(** X12.  Every builtin checks the number of its arguments first: called
    with another number than it takes (2 for [push], 1 for the others), it
    returns a new [MError] with the message
    [wrong number of arguments. got=N, want=M] and touches nothing else: no
    array is read or changed. *)
Theorem builtin_wrong_number_of_arguments (fn : BuiltinFunction)
    (args : list value) (h : Heap) :
  length args ≠ builtin_arity fn →
  call_builtin fn args h
  = Ok (Ref (length (objects h)))
       (with_object h
          (MError ("wrong number of arguments. got=" ++ length_toString (length args)
                   ++ ", want=" ++ length_toString (builtin_arity fn)))).
Proof.
  intros Hne.
  destruct fn; unfold call_builtin, builtin_len, builtin_push, builtin_first,
    builtin_last, builtin_rest, argSizeCheck; cbn [builtin_arity] in *;
    by rewrite (proj2 (Nat.eqb_neq _ _) Hne).
Qed.

Lemma builtin_wrong_number_of_arguments_witness :
  call_builtin PUSH [Ref 9] heap_with_array
  = Ok (Ref (length (objects heap_with_array)))
       (with_object heap_with_array
          (MError ("wrong number of arguments. got=" ++ length_toString (length [Ref 9])
                   ++ ", want=" ++ length_toString (builtin_arity PUSH)))).
Proof.
  apply (builtin_wrong_number_of_arguments PUSH [Ref 9] heap_with_array).
  simpl. lia.
Defined.

(** X13.  [push], [first], [last] and [rest] accept only an array as first
    argument: called with the right number of arguments, the first of which
    is an object of another class, each returns a new [MError] with the
    message [argument to 'NAME' must be ARRAY, got CLASS] and changes no
    array, [push] included. *)
Theorem array_builtin_rejects_other_objects (fn : BuiltinFunction)
    (args : list value) (h : Heap) (l : loc) (o : MObject) :
  fn ≠ LEN → length args = builtin_arity fn →
  nth_value args 0 = Ref l → objects h !! l = Some o → (∀ a, o ≠ MArray a) →
  call_builtin fn args h
  = Ok (Ref (length (objects h)))
       (with_object h
          (MError ("argument to '" ++ builtin_name fn ++ "' must be ARRAY, got "
                   ++ className o))).
Proof.
  intros Hfn Hlen Hfirst Ho Hne.
  assert (Hcheck : ∀ name body,
    arrayCheck name args body h
    = Ok (Ref (length (objects h)))
         (with_object h
            (MError ("argument to '" ++ name ++ "' must be ARRAY, got " ++ className o)))).
  { intros name body. unfold arrayCheck. rewrite Hfirst.
    rewrite (bind_Ok _ _ _ _ _ (deref_Ok _ _ _ Ho)).
    destruct o; try (by rewrite (bind_Ok _ _ _ _ _ (typeDesc_Ok _ _ _ Ho))).
    by destruct (Hne elements). }
  destruct fn; [done | | | |];
    unfold call_builtin, builtin_push, builtin_first, builtin_last, builtin_rest,
      argSizeCheck; rewrite Hlen; cbn [builtin_arity Nat.eqb negb]; apply Hcheck.
Qed.

Lemma array_builtin_rejects_other_objects_witness :
  call_builtin PUSH [Ref 8; Ref 8] heap_with_array
  = Ok (Ref (length (objects heap_with_array)))
       (with_object heap_with_array
          (MError ("argument to '" ++ builtin_name PUSH ++ "' must be ARRAY, got "
                   ++ className (MInteger (number_of_Z 1))))).
Proof.
  apply (array_builtin_rejects_other_objects PUSH [Ref 8; Ref 8] heap_with_array 8
           (MInteger (number_of_Z 1))); try reflexivity; discriminate.
Defined.

(** X14.  [first] and [last] read an array without changing the heap:
    [first] returns the first element and [last] the last one, and both
    return [NULL] for the empty array. *)
Theorem first_and_last_of_array (h : Heap) (l a : loc) (els : list value) :
  objects h !! l = Some (MArray a) → arrays h !! a = Some els →
  call_builtin FIRST [Ref l] h = Ok (default (Ref NULL) (head els)) h ∧
  call_builtin LAST [Ref l] h = Ok (default (Ref NULL) (last els)) h.
Proof.
  intros Ho Ha. split; [|by eapply call_last_Ok].
  unfold call_builtin, builtin_first, argSizeCheck.
  cbn [length Nat.eqb negb]. erewrite arrayCheck_Ok; [| reflexivity | exact Ho | exact Ha].
  destruct els as [|x els]; [done|]. cbn [length Nat.ltb Nat.leb].
  by rewrite (bind_Ok _ _ _ _ _ (array_at_Ok _ _ _ Ha)).
Qed.

Lemma first_and_last_of_array_witness :
  call_builtin FIRST [Ref 9] heap_with_array
    = Ok (default (Ref NULL) (head [Ref 8])) heap_with_array ∧
  call_builtin LAST [Ref 9] heap_with_array
    = Ok (default (Ref NULL) (last [Ref 8])) heap_with_array.
Proof.
  apply (first_and_last_of_array heap_with_array 9 0 [Ref 8]); reflexivity.
Defined.

(** X15.  [rest] copies: on an array that is not empty it returns a new
    [MArray] over a new elements array that holds the elements but the
    first, and leaves the elements of its argument as they were; the two
    arrays are not aliased, so a later [push] onto the result does not show
    in the argument.  On the empty array it returns [NULL] and changes
    nothing. *)
Theorem rest_copies_the_elements (h : Heap) (l a : loc) (els : list value) :
  objects h !! l = Some (MArray a) → arrays h !! a = Some els →
  match els with
  | [] => call_builtin REST [Ref l] h = Ok (Ref NULL) h
  | _ :: tail =>
      ∃ (r a' : loc) (h1 : Heap),
        call_builtin REST [Ref l] h = Ok (Ref r) h1 ∧
        objects h1 = objects h ++ [MArray a'] ∧ r = length (objects h) ∧
        a' ≠ a ∧ arrays h1 !! a' = Some tail ∧ arrays h1 !! a = Some els ∧
        ∀ x, ∃ (p : loc) (h2 : Heap),
          call_builtin PUSH [Ref r; x] h1 = Ok (Ref p) h2 ∧
          arrays h2 !! a' = Some (tail ++ [x]) ∧ arrays h2 !! a = Some els
  end.
Proof.
  intros Ho Ha.
  assert (Hcall : call_builtin REST [Ref l] h =
    (if 0 <? length els
     then els ← array_at a; sliced ← new_array (drop 1 els); new_object (MArray sliced)
     else mret (Ref M_NULL)) h).
  { unfold call_builtin, builtin_rest, argSizeCheck. cbn [length Nat.eqb negb].
    by erewrite arrayCheck_Ok; [| reflexivity | exact Ho | exact Ha]. }
  destruct els as [|x0 tail]; [done|].
  pose proof (lookup_lt_Some _ _ _ Ha) as Hlta.
  pose proof (lookup_lt_Some _ _ _ Ho) as Hlt.
  set (h1 := {| objects := objects h ++ [MArray (length (arrays h))];
                arrays := arrays h ++ [tail];
                environments := environments h |}).
  assert (Hnew : arrays h1 !! length (arrays h) = Some tail).
  { cbn [arrays h1]. by rewrite lookup_app_r, Nat.sub_diag by lia. }
  assert (Hold : arrays h1 !! a = Some (x0 :: tail)).
  { cbn [arrays h1]. by rewrite lookup_app_l. }
  exists (length (objects h)), (length (arrays h)), h1.
  split.
  { rewrite Hcall. cbn [length Nat.ltb Nat.leb].
    by rewrite (bind_Ok _ _ _ _ _ (array_at_Ok _ _ _ Ha)). }
  split; [done|]. split; [done|]. split; [lia|]. split; [done|]. split; [done|].
  intros x. eexists _, _. split.
  - apply call_push_Ok; [|exact Hnew].
    cbn [objects h1]. by rewrite lookup_app_r, Nat.sub_diag by lia.
  - cbn [arrays]. split.
    + apply list_lookup_insert_eq. by eapply lookup_lt_Some.
    + rewrite list_lookup_insert_ne by lia. done.
Qed.

Lemma rest_copies_the_elements_witness :
  ∃ (r a' : loc) (h1 : Heap),
    call_builtin REST [Ref 9] heap_with_array = Ok (Ref r) h1 ∧
    objects h1 = objects heap_with_array ++ [MArray a'] ∧
    r = length (objects heap_with_array) ∧
    a' ≠ 0 ∧ arrays h1 !! a' = Some [] ∧ arrays h1 !! 0 = Some [Ref 8] ∧
    ∀ x, ∃ (p : loc) (h2 : Heap),
      call_builtin PUSH [Ref r; x] h1 = Ok (Ref p) h2 ∧
      arrays h2 !! a' = Some ([] ++ [x]) ∧ arrays h2 !! 0 = Some [Ref 8].
Proof.
  apply (rest_copies_the_elements heap_with_array 9 0 [Ref 8]); reflexivity.
Defined.

(** X16.  What [push] appends is what [last] and [len] then see: after
    [push(arr, x)], [last] returns [x] and [len] returns the old length plus
    one, on the object that [push] returned as on [arr] itself. *)
Theorem push_then_last_and_len (h : Heap) (arr a : loc) (x : value)
    (els : list value) :
  objects h !! arr = Some (MArray a) → arrays h !! a = Some els →
  ∃ (r : loc) (h1 : Heap),
    call_builtin PUSH [Ref arr; x] h = Ok (Ref r) h1 ∧
    ∀ array, array = r ∨ array = arr →
      call_builtin LAST [Ref array] h1 = Ok x h1 ∧
      call_builtin LEN [Ref array] h1
      = Ok (Ref (length (objects h1)))
           (with_object h1 (MInteger (number_of_nat (S (length els))))).
Proof.
  intros Ho Ha. eexists _, _. split; [by apply call_push_Ok|].
  pose proof (lookup_lt_Some _ _ _ Ha) as Hlta.
  pose proof (lookup_lt_Some _ _ _ Ho) as Hlt.
  intros array Harray.
  match goal with |- call_builtin LAST _ ?s = _ ∧ _ =>
    assert (Hobj : objects s !! array = Some (MArray a));
    [| assert (Harr : arrays s !! a = Some (els ++ [x]))]
  end.
  { cbn [objects]. destruct Harray as [-> | ->].
    - by rewrite lookup_app_r, Nat.sub_diag by lia.
    - by rewrite lookup_app_l. }
  { cbn [arrays]. by apply list_lookup_insert_eq. }
  split.
  - rewrite (call_last_Ok _ _ _ _ Hobj Harr). by rewrite last_snoc.
  - rewrite (call_len_array_Ok _ _ _ _ Hobj Harr).
    rewrite length_app. cbn [length]. by rewrite Nat.add_1_r.
Qed.

Lemma push_then_last_and_len_witness :
  ∃ (r : loc) (h1 : Heap),
    call_builtin PUSH [Ref 9; Ref TRUE] heap_with_array = Ok (Ref r) h1 ∧
    ∀ array, array = r ∨ array = 9 →
      call_builtin LAST [Ref array] h1 = Ok (Ref TRUE) h1 ∧
      call_builtin LEN [Ref array] h1
      = Ok (Ref (length (objects h1)))
           (with_object h1 (MInteger (number_of_nat (S (length [Ref 8]))))).
Proof.
  apply (push_then_last_and_len heap_with_array 9 0 (Ref TRUE) [Ref 8]); reflexivity.
Defined.

(** ** Operators *)

(** X17.  The [!] operator and the test of an [if] agree on truthiness:
    [!c] is [FALSE] exactly when [c] is truthy for [isTruthy].  [NULL] and
    [FALSE] are the only objects that are not truthy; every other object,
    the integer 0 and the empty string included, is. *)
Theorem bang_negates_isTruthy (c : loc) :
  evalBangOperatorExpression c = toMonkey (negb (isTruthy c)) ∧
  (isTruthy c = false ↔ c = NULL ∨ c = FALSE).
Proof.
  unfold evalBangOperatorExpression, isTruthy, toMonkey, TRUE, FALSE, NULL.
  repeat case_decide; subst; try done; cbn; split; try done;
    try (split; [done | intros [|]; done]);
    try (split; [intros _; auto | done]).
Qed.

(** X18.  [==] and [!=] never produce an error: on any two objects they
    return [TRUE] or [FALSE], and [!=] returns the opposite of [==].  Two
    integers are compared by value; any other two operands, of the same
    class or not, are equal exactly when they are the same object. *)
Theorem equality_never_fails (h : Heap) (lhs rhs : loc) (l r : MObject) :
  objects h !! lhs = Some l → objects h !! rhs = Some r →
  ∃ b : bool,
    evalInfixExpression "==" lhs rhs h = Ok (toMonkey b) h ∧
    evalInfixExpression "!=" lhs rhs h = Ok (toMonkey (negb b)) h ∧
    b = match l, r with
        | MInteger x, MInteger y => SFeqb x y
        | _, _ => bool_decide (lhs = rhs)
        end.
Proof.
  intros Hl Hr.
  eexists. split; [|split; [|reflexivity]];
    unfold evalInfixExpression;
    rewrite (bind_Ok _ _ _ _ _ (object_at_Ok _ _ _ Hl));
    rewrite (bind_Ok _ _ _ _ _ (object_at_Ok _ _ _ Hr));
    by destruct l, r.
Qed.

Lemma equality_never_fails_witness :
  ∃ b : bool,
    evalInfixExpression "==" 8 TRUE heap_with_array = Ok (toMonkey b) heap_with_array ∧
    evalInfixExpression "!=" 8 TRUE heap_with_array
      = Ok (toMonkey (negb b)) heap_with_array ∧
    b = bool_decide (8 = TRUE).
Proof.
  apply (equality_never_fails heap_with_array 8 TRUE (MInteger (number_of_Z 1))
           (MBoolean true)); reflexivity.
Defined.

(** X19.  No other operator is defined off the integers, but [+] on two
    strings: for an operator other than [==] and [!=] and operands that are
    not two integers, and not two strings under [+], the result is a new
    [MError].  Its message is [type mismatch: L OP R] when the classes [L]
    and [R] of the operands differ and [unknown operator: L OP R] when they
    are the same. *)
Theorem operator_undefined_off_the_integers (h : Heap) (operator : string)
    (lhs rhs : loc) (l r : MObject) :
  objects h !! lhs = Some l → objects h !! rhs = Some r →
  operator ≠ "==" → operator ≠ "!=" →
  match l, r with
  | MInteger _, MInteger _ => False
  | MString _, MString _ => operator ≠ "+"
  | _, _ => True
  end →
  evalInfixExpression operator lhs rhs h
  = Ok (Ref (length (objects h)))
       (with_object h
          (MError ((if String.eqb (className l) (className r)
                    then "unknown operator: " else "type mismatch: ")
                   ++ className l ++ " " ++ operator ++ " " ++ className r))).
Proof.
  intros Hl Hr Heq Hne Hcase.
  unfold evalInfixExpression.
  rewrite (bind_Ok _ _ _ _ _ (object_at_Ok _ _ _ Hl)).
  rewrite (bind_Ok _ _ _ _ _ (object_at_Ok _ _ _ Hr)).
  apply String.eqb_neq in Heq, Hne.
  destruct l, r; try done; rewrite ?Heq, ?Hne; try reflexivity.
  apply String.eqb_neq in Hcase. cbn [className String.eqb Ascii.eqb Bool.eqb negb].
  by rewrite Hcase.
Qed.

Lemma operator_undefined_off_the_integers_witness :
  evalInfixExpression "+" 8 TRUE heap_with_array
  = Ok (Ref (length (objects heap_with_array)))
       (with_object heap_with_array
          (MError ((if String.eqb (className (MInteger (number_of_Z 1)))
                         (className (MBoolean true))
                    then "unknown operator: " else "type mismatch: ")
                   ++ className (MInteger (number_of_Z 1)) ++ " " ++ "+" ++ " "
                   ++ className (MBoolean true)))).
Proof.
  apply (operator_undefined_off_the_integers heap_with_array "+" 8 TRUE
           (MInteger (number_of_Z 1)) (MBoolean true)); try reflexivity;
    try discriminate; exact I.
Defined.

(** ** Hashes *)

Lemma string_app_length (a b : string) :
  String.length (a ++ b) = String.length a + String.length b.
Proof. induction a as [|c a IH]; simpl; [done | by rewrite IH]. Qed.

Lemma string_app_inj_l (a b c : string) : (a ++ c = b ++ c)%string → a = b.
Proof.
  revert b. induction a as [|x a IH]; intros [|y b]; simpl; intros Heq; try done.
  - apply (f_equal String.length) in Heq.
    rewrite !string_app_length in Heq. cbn [String.length] in Heq. lia.
  - apply (f_equal String.length) in Heq.
    rewrite !string_app_length in Heq. cbn [String.length] in Heq. lia.
  - injection Heq as -> Heq. f_equal. by apply IH.
Qed.

(** X20.  Hash keys tell classes and values apart: two objects have the
    same [hashKey()] only if they are of the same class, and then two
    strings have the same text, two Booleans the same value, and two
    integers the same decimal rendering.  So the string [1] and the integer
    1 are different keys of a hash. *)
Theorem hashKey_separates_classes_and_values `{Host} (o1 o2 : MObject) (k : string) :
  hashKey o1 = Some k → hashKey o2 = Some k →
  match o1, o2 with
  | MString a, MString b => a = b
  | MBoolean a, MBoolean b => a = b
  | MInteger a, MInteger b => numberToString a = numberToString b
  | _, _ => False
  end.
Proof.
  unfold hashKey, MValue_toString.
  destruct o1 as [a|a|a| | | | | | |], o2 as [b|b|b| | | | | | |];
    try done; intros [= <-] [= Heq]; try done;
    match type of Heq with
    | String.append EmptyString ?x = String.append EmptyString ?y =>
        change (x = y) in Heq
    end.
  - by apply string_app_inj_l in Heq.
  - by destruct a, b.
  - by apply string_app_inj_l in Heq.
Qed.

Lemma hashKey_separates_classes_and_values_witness :
  hashKey (H := ascii_host) (MString "a") = Some "MString(value=a)" ∧
  match MString "a", MString "a" with
  | MString a, MString b => a = b
  | MBoolean a, MBoolean b => a = b
  | MInteger a, MInteger b => ascii_numberToString a = ascii_numberToString b
  | _, _ => False
  end.
Proof.
  split; [reflexivity|].
  apply (hashKey_separates_classes_and_values (H := ascii_host) (MString "a")
           (MString "a") "MString(value=a)"); reflexivity.
Defined.

(** X21.  A hash is indexed by the content of the key, not by its identity:
    when the key of the literal evaluates to an object with hash key [hk]
    and the value to [v], no error, the literal evaluates to a new [MHash],
    and indexing those pairs with any object whose hash key is [hk] (the
    key object itself or another one) returns [v], while indexing with an
    object of another hash key returns [NULL]; neither changes the heap. *)
Theorem hash_literal_then_index `{Host} (fuel : nat) (token : Token)
    (keyNode valueNode : Node) (env : loc) (h h1 h2 : Heap) (k : loc)
    (ko : MObject) (hk : string) (v : value) :
  evaluateNode fuel (Some keyNode) env h = Ok (Ref k) h1 →
  objects h1 !! k = Some ko → hashKey ko = Some hk →
  evaluateNode fuel (Some valueNode) env h1 = Ok v h2 →
  isError v h2 = Ok false h2 →
  ∃ (r : loc) (h3 : Heap) (pairs : gmap string HashPair),
    evaluateNode (S fuel) (Some (HashLiteral token [(keyNode, valueNode)])) env h
      = Ok (Ref r) h3 ∧
    h3 = with_object h2 (MHash pairs) ∧ r = length (objects h2) ∧
    ∀ (i : loc) (io : MObject) (hk' : string),
      objects h3 !! i = Some io → hashKey io = Some hk' →
      evalHashIndexExpression pairs (Ref i) h3
      = Ok (if decide (hk' = hk) then v else Ref NULL) h3.
Proof.
  intros Hkey Hko Hhk Hv Hne.
  exists (length (objects h2)), (with_object h2 (MHash {[ hk := mkHashPair k v ]})),
    {[ hk := mkHashPair k v ]}.
  split; [|split; [done|split; [done|]]].
  - cbn [evaluateNode evaluateNode_body evalHashLiteral_for].
    rewrite (bind_Ok _ _ _ _ _ Hkey).
    rewrite (bind_Ok _ _ _ _ _ (isError_Ok_false _ _ _ Hko
               ltac:(intros m ->; discriminate))).
    rewrite (bind_Ok _ _ _ _ _ (deref_Ok _ _ _ Hko)).
    cbn [mbind option_bind]. rewrite Hhk.
    rewrite (bind_Ok _ _ _ _ _ Hv). rewrite (bind_Ok _ _ _ _ _ Hne).
    by rewrite insert_empty.
  - intros i io hk' Hio Hhk'. unfold evalHashIndexExpression.
    rewrite (bind_Ok _ _ _ _ _ (deref_Ok _ _ _ Hio)).
    cbn [mbind option_bind]. rewrite Hhk'.
    destruct (decide (hk' = hk)) as [-> | Hdiff].
    + by rewrite lookup_singleton_eq.
    + by rewrite lookup_singleton_ne.
Qed.

Lemma hash_literal_then_index_witness :
  ∃ (r : loc) (h3 : Heap) (pairs : gmap string HashPair),
    evaluateNode (H := ascii_host) 2
      (Some (HashLiteral (mkToken LBRACE "{") [(example_string, example_one)]))
      0 heap_with_environment
      = Ok (Ref r) h3 ∧
    h3 = with_object
           (mkHeap (objects initial_heap ++ [MString "a"; MInteger (number_of_Z 1)]) []
              [ {| store := ∅; outer := None |} ])
           (MHash pairs) ∧
    r = 10 ∧
    ∀ (i : loc) (io : MObject) (hk' : string),
      objects h3 !! i = Some io → hashKey (H := ascii_host) io = Some hk' →
      evalHashIndexExpression (H := ascii_host) pairs (Ref i) h3
      = Ok (if decide (hk' = "MString(value=a)") then Ref 9 else Ref NULL) h3.
Proof.
  apply (hash_literal_then_index (H := ascii_host) 1 (mkToken LBRACE "{")
           example_string example_one 0 heap_with_environment
           (mkHeap (objects initial_heap ++ [MString "a"]) []
              [ {| store := ∅; outer := None |} ])
           (mkHeap (objects initial_heap ++ [MString "a"; MInteger (number_of_Z 1)]) []
              [ {| store := ∅; outer := None |} ])
           8 (MString "a") "MString(value=a)" (Ref 9)); reflexivity.
Defined.

(** ** Function calls and array literals *)

Lemma bound_store_lookup parameters :
  ∀ i args s,
  NoDup (map id_value parameters) →
  (∀ j p, parameters !! j = Some p →
     bound_store parameters i args s !! id_value p = Some (nth_value args (i + j))) ∧
  (∀ name, name ∉ map id_value parameters →
     bound_store parameters i args s !! name = s !! name).
Proof.
  induction parameters as [|q rest IH]; intros i args s Hnd.
  - split; [done | done].
  - apply NoDup_cons in Hnd as [Hq Hrest]. cbn [bound_store].
    destruct (IH (S i) args (<[id_value q := nth_value args i]> s) Hrest) as [IH1 IH2].
    split.
    + intros [|j] p Hp.
      * injection Hp as <-. rewrite (IH2 _ Hq), lookup_insert_eq.
        by rewrite Nat.add_0_r.
      * rewrite (IH1 j p Hp). f_equal. f_equal. lia.
    + intros name Hname. cbn [map] in Hname.
      apply not_elem_of_cons in Hname as [Hne Hname].
      rewrite (IH2 _ Hname). by apply lookup_insert_ne.
Qed.

Lemma bindParameters_Ok parameters :
  ∀ i args h env e,
  environments h !! env = Some e →
  bindParameters env parameters i args h
  = Ok tt {| objects := objects h; arrays := arrays h;
             environments :=
               <[env := {| store := bound_store parameters i args (store e);
                           outer := outer e |}]> (environments h) |}.
Proof.
  induction parameters as [|q rest IH]; intros i args h env e He.
  - cbn [bindParameters bound_store]. unfold mret, M_ret.
    rewrite list_insert_id; [by destruct h | by destruct e].
  - cbn [bindParameters bound_store].
    rewrite (bind_Ok _ _ _ _ _ (Environment_set_Ok _ _ _ _ _ He)).
    erewrite IH.
    2:{ cbn [environments]. apply list_lookup_insert_eq. by eapply lookup_lt_Some. }
    cbn [objects arrays environments store outer]. by rewrite list_insert_insert_eq.
Qed.

(** X22.  A call binds the parameters by position in a new scope: the scope
    that [extendFunctionEnv] returns is new, is enclosed by the environment
    of the function, and binds each of the (distinct) parameters to the
    argument at its position, [undefined] where the arguments run out, and
    nothing else; surplus arguments are dropped.  No object, array or
    existing scope is changed. *)
Theorem parameters_are_bound_by_position (fun_env : loc)
    (parameters : list Identifier) (args : list value) (h : Heap) :
  NoDup (map id_value parameters) →
  ∃ (h' : Heap) (e' : Environment),
    extendFunctionEnv fun_env (Some parameters) args h
      = Ok (length (environments h)) h' ∧
    objects h' = objects h ∧ arrays h' = arrays h ∧
    environments h' = environments h ++ [e'] ∧ outer e' = Some fun_env ∧
    (∀ i p, parameters !! i = Some p →
       store e' !! id_value p = Some (nth_value args i)) ∧
    (∀ name, name ∉ map id_value parameters → store e' !! name = None).
Proof.
  intros Hnd.
  destruct (bound_store_lookup parameters 0 args ∅ Hnd) as [Hbound Hfree].
  eexists _, {| store := bound_store parameters 0 args ∅; outer := Some fun_env |}.
  split.
  - unfold extendFunctionEnv, newEnclosedEnvironment.
    unfold mbind at 1, M_bind at 1, new_environment at 1.
    erewrite bind_Ok; [reflexivity|].
    apply bindParameters_Ok. cbn [environments].
    by rewrite lookup_app_r, Nat.sub_diag by lia.
  - cbn [objects arrays environments store outer].
    split; [done|]. split; [done|]. split.
    { rewrite <- (Nat.add_0_r (length (environments h))).
      by rewrite insert_app_r. }
    split; [done|]. split; [exact Hbound|].
    intros name Hname. by rewrite (Hfree name Hname).
Qed.

Lemma parameters_are_bound_by_position_witness :
  ∃ (h' : Heap) (e' : Environment),
    extendFunctionEnv 0 (Some example_parameters) [Ref 8] heap_with_environment
      = Ok (length (environments heap_with_environment)) h' ∧
    objects h' = objects heap_with_environment ∧
    arrays h' = arrays heap_with_environment ∧
    environments h' = environments heap_with_environment ++ [e'] ∧
    outer e' = Some 0 ∧
    (∀ i p, example_parameters !! i = Some p →
       store e' !! id_value p = Some (nth_value [Ref 8] i)) ∧
    (∀ name, name ∉ map id_value example_parameters → store e' !! name = None).
Proof.
  apply (parameters_are_bound_by_position 0 example_parameters [Ref 8]
           heap_with_environment).
  apply (bool_decide_unpack _). reflexivity.
Defined.

(** X23.  An array literal evaluates its elements from left to right into a
    new elements array: when none of them is an error, the result is a new
    [MArray] over a new array that holds their values in order; no existing
    array or object is changed after the last element has been evaluated. *)
Theorem array_literal_collects_the_elements `{Host} (fuel : nat) (token : Token)
    (elements : list (option Node)) (env : loc) (h h' : Heap) (vs : list value) :
  evaluated_in_order (evaluateNode fuel) env elements h vs h' →
  evaluateNode (S fuel) (Some (ArrayLiteral token (Some elements))) env h
  = Ok (Ref (length (objects h')))
       {| objects := objects h' ++ [MArray (length (arrays h'))];
          arrays := arrays h' ++ [vs];
          environments := environments h' |}.
Proof.
  intros Hin. cbn [evaluateNode evaluateNode_body].
  assert (Hargs : evalExpressions (evaluateNode fuel) (Some elements) env h = Ok vs h').
  { cbn [evalExpressions].
    rewrite <- (app_nil_r elements).
    by rewrite (evalExpressions_for_prefix _ _ _ _ _ _ _ _ Hin). }
  rewrite (bind_Ok _ _ _ _ _ Hargs).
  destruct vs as [|v [|v' vs]]; try reflexivity.
  destruct elements as [|e [|e' elements]]; try done.
  - destruct Hin as (h1 & He & Herr & ->). by rewrite (bind_Ok _ _ _ _ _ Herr).
  - by destruct Hin as (h1 & He & Herr & []).
Qed.

Lemma array_literal_collects_the_elements_witness :
  ∃ h',
    evaluateNode (H := ascii_host) 2 (Some example_array) 0 heap_with_environment
    = Ok (Ref (length (objects h')))
         {| objects := objects h' ++ [MArray (length (arrays h'))];
            arrays := arrays h' ++ [[Ref 8; Ref 9]];
            environments := environments h' |}.
Proof.
  eexists.
  apply (array_literal_collects_the_elements (H := ascii_host) 1 (mkToken LBRACKET "[")
           [Some example_one; Some example_two] 0 heap_with_environment
           (mkHeap (objects initial_heap
                    ++ [MInteger (number_of_Z 1); MInteger (number_of_Z 2)]) []
              [ {| store := ∅; outer := None |} ])
           [Ref 8; Ref 9]).
  eexists. split; [reflexivity|]. split; [reflexivity|].
  eexists. split; [reflexivity|]. split; reflexivity.
Defined.

(** ** The scope of a call *)





(** * Errors of the parser *)

Lemma reports_ret {A} (a : A) (P : A → Prop) : P a → reports (mret a) P.
Proof. intros Ha p a' p' [= <- <-]. exists []. by rewrite app_nil_r. Qed.

Lemma reports_timeout {A} (P : A → Prop) : reports timeout P.
Proof. intros p a p' [=]. Qed.

Lemma reports_throw {A} message (P : A → Prop) : reports (throw message) P.
Proof. intros p a p' [=]. Qed.

Lemma reports_bind {A B} (m : M Parser A) (k : A → M Parser B)
    (P1 : A → Prop) (P : B → Prop) :
  reports m P1 → (∀ a, reports (k a) (λ b, P1 a → P b)) → reports (m ≫= k) P.
Proof.
  intros Hm Hk p b p'. unfold mbind, M_bind.
  destruct (m p) as [a p1| |] eqn:Hmp; [|done|done].
  intros Hkp.
  destruct (Hm _ _ _ Hmp) as (more1 & H1 & HP1).
  destruct (Hk a _ _ _ Hkp) as (more2 & H2 & HP).
  exists (more1 ++ more2). split; [by rewrite H2, H1, app_assoc|].
  intros Hnil. apply app_eq_nil in Hnil as [-> ->]. auto.
Qed.

Lemma reports_weaken {A} (m : M Parser A) (P Q : A → Prop) :
  reports m P → (∀ a, P a → Q a) → reports m Q.
Proof.
  intros Hm HPQ p a p' Hmp. destruct (Hm _ _ _ Hmp) as (more & H1 & HP).
  exists more. auto.
Qed.

(** A parser that leaves the errors alone. *)
Lemma reports_pure {A} (m : M Parser A) (P : A → Prop) :
  (∀ p a p', m p = Ok a p' → _errors p' = _errors p ∧ P a) → reports m P.
Proof.
  intros Hm p a p' Hmp. destruct (Hm _ _ _ Hmp) as [He HP].
  exists []. by rewrite app_nil_r.
Qed.

Section ParserReports.
Context `{Host}.

Lemma reports_Parser_nextToken : reports Parser_nextToken (λ _, True).
Proof.
  apply reports_pure. intros p a p'. unfold Parser_nextToken.
  destruct (nextToken (lexer p)) as [[t l]|]; [|done]. by intros [= <- <-].
Qed.

Lemma reports_optional_nextToken (b : bool) :
  reports (if b then Parser_nextToken else mret ()) (λ _, True).
Proof. destruct b; [apply reports_Parser_nextToken | by apply reports_ret]. Qed.

Lemma reports_pushError message : reports (pushError message) (λ _, False).
Proof. intros p a p' [= <- <-]. exists [message]. done. Qed.

Lemma reports_peekError t : reports (peekError t) (λ _, False).
Proof.
  intros p a p' [= <- <-]. eexists [_]. done.
Qed.

Lemma reports_noPrefixParserError t : reports (noPrefixParserError t) (λ _, False).
Proof. apply reports_pushError. Qed.

Lemma reports_get : reports get (λ _ : Parser, True).
Proof. apply reports_pure. by intros p a p' [= <- <-]. Qed.

Lemma reports_getCurToken : reports getCurToken (λ _, True).
Proof. apply reports_pure. by intros p a p' [= <- <-]. Qed.

Lemma reports_peekTokenIs t : reports (peekTokenIs t) (λ _, True).
Proof. apply reports_pure. by intros p a p' [= <- <-]. Qed.

Lemma reports_curTokenIs t : reports (curTokenIs t) (λ _, True).
Proof. apply reports_pure. by intros p a p' [= <- <-]. Qed.

Lemma reports_peekPrecedence : reports peekPrecedence (λ _, True).
Proof. apply reports_pure. by intros p a p' [= <- <-]. Qed.

Lemma reports_curPrecedence : reports curPrecedence (λ _, True).
Proof. apply reports_pure. by intros p a p' [= <- <-]. Qed.

End ParserReports.

Create HintDb reports.

#[local] Hint Resolve reports_pushError reports_peekError reports_noPrefixParserError
  reports_Parser_nextToken reports_optional_nextToken reports_get reports_getCurToken
  reports_peekTokenIs reports_curTokenIs reports_peekPrecedence
  reports_curPrecedence : reports.

(** Structural steps of a proof of [reports]. *)
Ltac reports_step :=
  first
    [ apply reports_timeout
    | apply reports_throw
    | apply reports_ret
    | eapply reports_bind; [solve [eauto 3 with reports] | intros ?]
    | match goal with
      | |- reports (if negb ?b then _ else _) _ => destruct b; cbn [negb]
      | |- reports (if ?b then _ else _) _ => destruct b
      | |- reports (match ?x with _ => _ end) _ => destruct x
      end ].
Ltac reports_auto := repeat reports_step.

Section ParserReportsMore.
Context `{Host}.

(** [expectPeek] returns [false] only with an error. *)
Lemma reports_expectPeek t : reports (expectPeek t) (λ ok, ok = true).
Proof. unfold expectPeek. reports_auto; done. Qed.

End ParserReportsMore.

#[local] Hint Resolve reports_expectPeek : reports.

(** The pure side conditions: facts about [complete]. *)
Ltac complete_goal :=
  intros; cbn [present complete complete_block fst snd] in *; unfold present in *;
  repeat case_match; simplify_eq;
  rewrite ?forallb_app in *; cbn [forallb] in *; rewrite ?andb_true_iff in *;
  intuition (try congruence; auto).

Ltac reports_tail lemma := eapply reports_weaken; [apply lemma | complete_goal].

Section ParserComplete.
Context `{Host}.

Lemma reports_parseFunctionParameters_while n :
  ∀ parameters, reports (parseFunctionParameters_while n parameters) (λ _, True).
Proof.
  induction n as [|n IH]; intros parameters; cbn [parseFunctionParameters_while];
    reports_auto; try done.
  eapply reports_weaken; [apply IH | done].
Qed.

Lemma reports_parseFunctionParameters n :
  reports (parseFunctionParameters n) (λ r, r ≠ None).
Proof.
  pose proof reports_parseFunctionParameters_while.
  unfold parseFunctionParameters. reports_auto; try done.
Qed.

Lemma reports_skipSemicolons n : reports (skipSemicolons n) (λ _, True).
Proof.
  induction n as [|n IH]; cbn [skipSemicolons]; reports_auto; try done.
  eapply reports_weaken; [apply IH | done].
Qed.

Lemma reports_parseIntegerLiteral : reports parseIntegerLiteral (λ r, present r = true).
Proof. unfold parseIntegerLiteral. reports_auto; complete_goal. Qed.

Lemma reports_parseBooleanLiteral : reports parseBooleanLiteral (λ r, present r = true).
Proof. unfold parseBooleanLiteral. reports_auto; complete_goal. Qed.

Lemma reports_parseIdentifier : reports parseIdentifier (λ r, present r = true).
Proof. unfold parseIdentifier. reports_auto; complete_goal. Qed.

Lemma reports_parseStringLiteral : reports parseStringLiteral (λ r, present r = true).
Proof. unfold parseStringLiteral. reports_auto; complete_goal. Qed.

Section Step.
Variables (fuel : nat) (self : ParserFns).
Hypothesis Hself : fns_report self.

Lemma reports_self_parseExpression precedence :
  reports (self_parseExpression self precedence) (λ r, present r = true).
Proof. apply Hself. Qed.

Lemma reports_self_parseStatement :
  reports (self_parseStatement self) (λ r, present r = true).
Proof. apply Hself. Qed.

Hint Resolve reports_self_parseExpression reports_self_parseStatement
  reports_parseFunctionParameters reports_skipSemicolons : reports.

Lemma reports_parseExpressionList_while n :
  ∀ args, reports (parseExpressionList_while self n args)
            (λ r, forallb present args = true → forallb present r = true).
Proof.
  induction n as [|n IH]; intros args; cbn [parseExpressionList_while];
    reports_auto; try done.
  reports_tail IH.
Qed.

Lemma reports_parseExpressionList end_ :
  reports (parseExpressionList fuel self end_)
    (λ r, match r with Some l => forallb present l = true | None => False end).
Proof.
  unfold parseExpressionList. reports_auto; try done.
  eapply reports_bind; [apply reports_parseExpressionList_while | intros ?].
  reports_auto; complete_goal.
Qed.

Lemma reports_parseBlockStatement_while n :
  ∀ statements, reports (parseBlockStatement_while self n statements)
    (λ r, forallb present statements = true → forallb present r = true).
Proof.
  induction n as [|n IH]; intros statements; cbn [parseBlockStatement_while];
    reports_auto; try (complete_goal; fail); reports_tail IH.
Qed.

Lemma reports_parseBlockStatement :
  reports (parseBlockStatement fuel self) (λ b, complete_block b = true).
Proof.
  unfold parseBlockStatement. reports_auto.
  eapply reports_bind; [apply reports_parseBlockStatement_while | intros ?].
  reports_auto; complete_goal.
Qed.

Hint Resolve reports_parseExpressionList reports_parseBlockStatement : reports.

Lemma reports_parseHashLiteral_while n :
  ∀ token pairs, reports (parseHashLiteral_while self n token pairs)
    (λ r, forallb (λ kv, complete (fst kv) && complete (snd kv)) pairs = true →
          present r = true).
Proof.
  induction n as [|n IH]; intros token pairs; cbn [parseHashLiteral_while];
    reports_auto; try done; try (reports_tail IH); complete_goal.
Qed.

Lemma reports_applyPrefix prefix :
  reports (applyPrefix fuel self prefix) (λ r, present r = true).
Proof.
  destruct prefix; cbn [applyPrefix].
  - apply reports_parseIntegerLiteral.
  - apply reports_parseBooleanLiteral.
  - apply reports_parseIdentifier.
  - unfold parsePrefixExpression. reports_auto; complete_goal.
  - unfold parseGroupExpression. reports_auto; complete_goal.
  - unfold parseArrayLiteral. reports_auto; complete_goal.
  - unfold parseIfExpression. reports_auto; complete_goal.
  - unfold parseFunctionLiteral. reports_auto; complete_goal.
  - apply reports_parseStringLiteral.
  - unfold parseHashLiteral. reports_auto. reports_tail reports_parseHashLiteral_while.
Qed.

Lemma reports_applyInfix infix lhs :
  reports (applyInfix fuel self infix lhs)
    (λ r, present lhs = true → present r = true).
Proof.
  destruct infix; cbn [applyInfix].
  - unfold parseInfixExpression. reports_auto; complete_goal.
  - unfold parseCallExpression. reports_auto; complete_goal.
  - unfold parseIndexExpression. reports_auto; complete_goal.
Qed.

Lemma reports_parseExpression_while n :
  ∀ precedence lhs, reports (parseExpression_while fuel self n precedence lhs)
    (λ r, present lhs = true → present r = true).
Proof.
  induction n as [|n IH]; intros precedence lhs; cbn [parseExpression_while];
    reports_auto; try done;
    (eapply reports_bind; [apply reports_applyInfix | intros ?]);
    reports_tail IH.
Qed.

Lemma reports_parseExpression_body precedence :
  reports (parseExpression_body fuel self precedence) (λ r, present r = true).
Proof.
  unfold parseExpression_body. reports_auto; try done.
  eapply reports_bind; [apply reports_applyPrefix | intros ?].
  reports_tail reports_parseExpression_while.
Qed.

Lemma reports_parseLetStatement :
  reports (parseLetStatement self) (λ r, present r = true).
Proof. unfold parseLetStatement. reports_auto; complete_goal. Qed.

Lemma reports_parseExpressionStatement :
  reports (parseExpressionStatement self) (λ st, complete st = true).
Proof. unfold parseExpressionStatement. reports_auto; complete_goal. Qed.

Lemma reports_parseReturnStatement :
  reports (parseReturnStatement fuel self) (λ st, complete st = true).
Proof. unfold parseReturnStatement. reports_auto; complete_goal. Qed.

Hint Resolve reports_parseExpressionStatement reports_parseReturnStatement : reports.

Lemma reports_parseStatement_body :
  reports (parseStatement_body fuel self) (λ r, present r = true).
Proof.
  unfold parseStatement_body.
  eapply reports_bind; [apply reports_get | intros p].
  destruct (tokenType (curToken p));
    try (reports_tail reports_parseLetStatement);
    reports_auto; complete_goal.
Qed.

End Step.

Lemma reports_parser_at fuel : fns_report (parser_at fuel).
Proof.
  induction fuel as [|fuel IH].
  - split; intros; apply reports_timeout.
  - split; cbn [parser_at self_parseExpression self_parseStatement].
    + intros precedence. by apply reports_parseExpression_body.
    + by apply reports_parseStatement_body.
Qed.

Lemma reports_parseProgram_while fuel n :
  ∀ statements, reports (parseProgram_while fuel n statements)
    (λ r, forallb complete statements = true → forallb complete r = true).
Proof.
  pose proof (proj2 (reports_parser_at fuel)) as Hst.
  induction n as [|n IH]; intros statements; cbn [parseProgram_while];
    (eapply reports_bind; [apply reports_curTokenIs | intros eof]);
    destruct eof; try (by apply reports_ret); [apply reports_timeout|].
  eapply reports_bind; [apply Hst | intros statement].
  eapply reports_bind; [apply reports_Parser_nextToken | intros ?].
  reports_tail IH.
Qed.

Lemma reports_parseProgram fuel :
  reports (parseProgram fuel)
    (λ program, forallb complete (program_statements program) = true).
Proof.
  unfold parseProgram.
  eapply reports_bind; [apply reports_parseProgram_while | intros ?].
  reports_auto. complete_goal.
Qed.

End ParserComplete.

(** X24.  The parser never takes an error back: [parseExpression],
    [parseStatement] and [parseProgram] only append to the list that
    [errors()] returns, whatever the state they are called in. *)
Theorem parser_errors_are_only_appended `{Host} (fuel : nat) (p p' : Parser) :
  (∀ precedence r, parseExpression fuel precedence p = Ok r p' →
     ∃ more, _errors p' = _errors p ++ more) ∧
  (∀ r, parseStatement fuel p = Ok r p' → ∃ more, _errors p' = _errors p ++ more) ∧
  (∀ program, parseProgram fuel p = Ok program p' →
     ∃ more, _errors p' = _errors p ++ more).
Proof.
  destruct (reports_parser_at fuel) as [He Hs].
  split; [|split].
  - intros precedence r Hr. destruct (He precedence _ _ _ Hr) as (more & ? & _). eauto.
  - intros r Hr. destruct (Hs _ _ _ Hr) as (more & ? & _). eauto.
  - intros program Hr.
    destruct (reports_parseProgram fuel _ _ _ Hr) as (more & ? & _). eauto.
Qed.

(** X25.  A missing node comes with an error: when [parseExpression] or
    [parseStatement] returns [null], it has appended at least one message
    to the errors. *)
Theorem null_node_comes_with_an_error `{Host} (fuel : nat) (p p' : Parser) :
  (∀ precedence, parseExpression fuel precedence p = Ok None p' →
     length (_errors p) < length (_errors p')) ∧
  (parseStatement fuel p = Ok None p' → length (_errors p) < length (_errors p')).
Proof.
  destruct (reports_parser_at fuel) as [He Hs].
  assert (Hmore : ∀ more : list string,
    _errors p' = _errors p ++ more → (more = [] → present None = true) →
    length (_errors p) < length (_errors p')).
  { intros [|m more] -> Hp; [by discriminate Hp|]. rewrite length_app. simpl. lia. }
  split.
  - intros precedence Hr. destruct (He precedence _ _ _ Hr) as (more & ? & ?). eauto.
  - intros Hr. destruct (Hs _ _ _ Hr) as (more & ? & ?). eauto.
Qed.

Lemma null_node_comes_with_an_error_witness :
  length (_errors (mkParser (newLexer "") [] (mkToken RPAREN ")") (mkToken EOF "")))
  < length (_errors (mkParser (newLexer "") ["No prefix parser for ) function"]
                       (mkToken RPAREN ")") (mkToken EOF ""))).
Proof.
  apply (proj1 (null_node_comes_with_an_error (H := ascii_host) 1
                  (mkParser (newLexer "") [] (mkToken RPAREN ")") (mkToken EOF ""))
                  (mkParser (newLexer "") ["No prefix parser for ) function"]
                     (mkToken RPAREN ")") (mkToken EOF ""))) LOWEST).
  reflexivity.
Defined.

(** [parse] starts [parseProgram] from a parser without errors. *)
Lemma parse_inv `{Host} (fuel : nat) (source : string) (program : Program)
    (errors : list string) (p' : Parser) :
  parse fuel source = Ok (program, errors) p' →
  ∃ p0, _errors p0 = [] ∧ parseProgram fuel p0 = Ok program p' ∧ errors = _errors p'.
Proof.
  unfold parse, newParser.
  destruct ((Parser_nextToken;; Parser_nextToken) _) as [[] p0| |] eqn:Hnew; try done.
  assert (H0 : _errors p0 = []).
  { revert Hnew. unfold mbind, M_bind, Parser_nextToken. cbn [lexer _errors].
    destruct (nextToken _) as [[t l]|]; [|done]. cbn [lexer].
    destruct (nextToken l) as [[t' l']|]; [|done]. by intros [= <-]. }
  destruct (parseProgram fuel p0) as [prog p1| |] eqn:Hprog; try done.
  intros [= -> <- ->]. eauto.
Qed.

(** X26.  A parse without errors has no holes: when [parse] returns a
    program and an empty list of errors, every statement of the program is
    complete, that is, no node in it has a [null] child, but for the
    alternative of an [if] without [else]. *)
Theorem error_free_parse_is_complete `{Host} (fuel : nat) (source : string)
    (program : Program) (p' : Parser) :
  parse fuel source = Ok (program, []) p' →
  forallb complete (program_statements program) = true.
Proof.
  intros Hparse.
  destruct (parse_inv _ _ _ _ _ Hparse) as (p0 & H0 & Hprog & Herr).
  destruct (reports_parseProgram fuel _ _ _ Hprog) as (more & Hmore & Hcomplete).
  apply Hcomplete. rewrite H0, <- Herr in Hmore. by destruct more.
Qed.

Lemma error_free_parse_is_complete_witness :
  ∃ program p',
    parse (H := ascii_host) 10 "if (x < 1) { fn(y) { [y, 2][0] } }" = Ok (program, []) p' ∧
    forallb complete (program_statements program) = true.
Proof.
  destruct (parse (H := ascii_host) 10 "if (x < 1) { fn(y) { [y, 2][0] } }")
    as [[program [|e errs]] p'| |] eqn:Hp; try (vm_compute in Hp; discriminate).
  exists program, p'. split; [reflexivity|].
  exact (error_free_parse_is_complete (H := ascii_host) 10
           "if (x < 1) { fn(y) { [y, 2][0] } }" program p' Hp).
Defined.

(** * Evaluation does not throw *)

Lemma sizes_le_refl h : sizes_le h h.
Proof. unfold sizes_le. lia. Qed.

Lemma sizes_le_trans h1 h2 h3 : sizes_le h1 h2 → sizes_le h2 h3 → sizes_le h1 h3.
Proof. unfold sizes_le. lia. Qed.

Lemma valid_mono h h' v : sizes_le h h' → valid h v → valid h' v.
Proof. unfold sizes_le. destruct v; simpl; [done | done | lia]. Qed.

Lemma object_wf_mono h h' o : sizes_le h h' → object_wf h o → object_wf h' o.
Proof.
  intros Hle. destruct o; simpl; try done.
  - unfold sizes_le in Hle. lia.
  - unfold sizes_le in Hle. intros [? ?]. split; [lia | done].
  - unfold sizes_le in Hle. lia.
  - intros Hm. eapply map_Forall_impl; [exact Hm|]. intros k p. by apply valid_mono.
Qed.

Lemma heap_wf_object h l o : heap_wf h → objects h !! l = Some o → object_wf h o.
Proof. intros (_ & Ho & _) Hl. by eapply Forall_lookup_1 in Ho. Qed.

Lemma heap_wf_array h a els : heap_wf h → arrays h !! a = Some els → Forall (valid h) els.
Proof. intros (_ & _ & Ha & _) Hl. by eapply Forall_lookup_1 in Ha. Qed.

Lemma initial_heap_wf : heap_wf initial_heap.
Proof.
  split; [done|]. split; [|split; [by constructor | done]].
  repeat constructor.
Qed.

(** Well-formedness of a heap whose sizes only grew, given that of its
    new parts. *)
Lemma heap_wf_with_object h o : heap_wf h → object_wf h o → heap_wf (with_object h o).
Proof.
  intros (Hlen & Ho & Ha & He) Hwf.
  assert (Hle : sizes_le h (with_object h o)).
  { unfold sizes_le. cbn. rewrite length_app. simpl. lia. }
  split; [cbn [objects with_object]; rewrite length_app; lia|]. split; [|split].
  - cbn [objects with_object]. apply Forall_app. split.
    + eapply Forall_impl; [exact Ho|]. intros x. by apply object_wf_mono.
    + constructor; [|done]. by eapply object_wf_mono.
  - cbn [arrays with_object]. eapply Forall_impl; [exact Ha|].
    intros els Hels. eapply Forall_impl; [exact Hels|]. intros v. by apply valid_mono.
  - intros i e Hi. destruct (He i e Hi) as [Hs Hout]. split; [|done].
    eapply map_Forall_impl; [exact Hs|]. intros k v. by apply valid_mono.
Qed.

Lemma safe_at_ret {A} h (a : A) (Q : A → Heap → Prop) : Q a h → safe_at h (mret a) Q.
Proof. intros Ha Hwf. cbn. split; [done|]. split; [apply sizes_le_refl | done]. Qed.

Lemma safe_at_timeout {A} h (Q : A → Heap → Prop) : safe_at h timeout Q.
Proof. by intros Hwf. Qed.

Lemma safe_at_bind {A B} h (m : M Heap A) (k : A → M Heap B)
    (Q1 : A → Heap → Prop) (Q : B → Heap → Prop) :
  safe_at h m Q1 →
  (∀ a h1, sizes_le h h1 → Q1 a h1 → safe_at h1 (k a) Q) →
  safe_at h (m ≫= k) Q.
Proof.
  intros Hm Hk Hwf. specialize (Hm Hwf). unfold mbind, M_bind.
  destruct (m h) as [a h1| |]; [|done|done].
  destruct Hm as (Hwf1 & Hle1 & HQ1).
  specialize (Hk a h1 Hle1 HQ1 Hwf1).
  destruct (k a h1) as [b h2| |]; [|done|done].
  destruct Hk as (Hwf2 & Hle2 & HQ). split; [done|]. split; [|done].
  by eapply sizes_le_trans.
Qed.

Lemma safe_at_weaken {A} h (m : M Heap A) (Q Q' : A → Heap → Prop) :
  safe_at h m Q → (∀ a h', sizes_le h h' → Q a h' → Q' a h') → safe_at h m Q'.
Proof.
  intros Hm HQ Hwf. specialize (Hm Hwf).
  destruct (m h) as [a h1| |]; [|done|done].
  destruct Hm as (Hwf1 & Hle1 & HQ1). auto.
Qed.

(** Steps that read the heap. *)
Lemma safe_at_object_at h (l : loc) :
  l < length (objects h) →
  safe_at h (object_at l) (λ o h', h' = h ∧ objects h !! l = Some o ∧ object_wf h o).
Proof.
  intros Hl Hwf. unfold object_at.
  destruct (objects h !! l) as [o|] eqn:Ho; cbv beta iota.
  - split; [done|]. split; [apply sizes_le_refl|].
    split; [done|]. split; [done|]. by eapply heap_wf_object.
  - apply lookup_ge_None in Ho. lia.
Qed.

Lemma safe_at_deref h v :
  valid h v →
  safe_at h (deref v) (λ o h', h' = h ∧ ∀ ob, o = Some ob → object_wf h ob).
Proof.
  intros Hv. destruct v as [| |l]; cbn [deref].
  - apply safe_at_ret. by split.
  - apply safe_at_ret. by split.
  - eapply safe_at_bind; [by apply safe_at_object_at|].
    intros o h1 _ (-> & Ho & Hwf). apply safe_at_ret. split; [done|].
    by intros ob [= <-].
Qed.

Lemma safe_at_array_at h (a : loc) :
  a < length (arrays h) →
  safe_at h (array_at a) (λ els h', h' = h ∧ arrays h !! a = Some els ∧ Forall (valid h) els).
Proof.
  intros Ha Hwf. unfold array_at.
  destruct (arrays h !! a) as [els|] eqn:Hels; cbv beta iota.
  - split; [done|]. split; [apply sizes_le_refl|].
    split; [done|]. split; [done|]. by eapply heap_wf_array.
  - apply lookup_ge_None in Hels. lia.
Qed.

Lemma safe_at_typeDesc h v :
  valid h v → safe_at h (typeDesc v) (λ _ h', h' = h).
Proof.
  intros Hv. unfold typeDesc.
  eapply safe_at_bind; [by apply safe_at_deref|].
  intros o h1 _ [-> _]. destruct o; by apply safe_at_ret.
Qed.

Lemma safe_at_isError h v :
  valid h v → safe_at h (isError v) (λ _ h', h' = h).
Proof.
  intros Hv. unfold isError.
  eapply safe_at_bind; [by apply safe_at_deref|].
  intros o h1 _ [-> _]. destruct o as [[]|]; by apply safe_at_ret.
Qed.

(** Steps that allocate. *)
Lemma safe_at_new_object h o :
  object_wf h o →
  safe_at h (new_object o) (λ v h', valid h' v).
Proof.
  intros Ho Hwf. unfold new_object. cbv beta iota.
  split; [by apply (heap_wf_with_object h o)|]. split.
  - unfold sizes_le. cbn. rewrite length_app. simpl. lia.
  - cbn. rewrite length_app. simpl. lia.
Qed.

Lemma heap_wf_same_objects h h' :
  heap_wf h → sizes_le h h' → objects h' = objects h →
  Forall (Forall (valid h')) (arrays h') →
  (∀ i e, environments h' !! i = Some e →
     map_Forall (λ _ v, valid h' v) (store e) ∧ ∀ o, outer e = Some o → o < i) →
  heap_wf h'.
Proof.
  intros (Hlen & Ho & _) Hle Hobj Ha He.
  split; [by rewrite Hobj|]. split; [|done].
  rewrite Hobj. eapply Forall_impl; [exact Ho|]. intros x. by apply object_wf_mono.
Qed.

Lemma valid_same h h' v : length (objects h') = length (objects h) → valid h v → valid h' v.
Proof. intros Hlen. destruct v; simpl; [done | done | lia]. Qed.

Lemma safe_at_new_array h els :
  Forall (valid h) els →
  safe_at h (new_array els) (λ a h', a < length (arrays h')).
Proof.
  intros Hels Hwf. unfold new_array. cbv beta iota.
  assert (Hle : sizes_le h {| objects := objects h; arrays := arrays h ++ [els];
                              environments := environments h |}).
  { unfold sizes_le. cbn. rewrite length_app. simpl. lia. }
  split; [|split; [done|]].
  - eapply heap_wf_same_objects; [done | done | done | |].
    + cbn [arrays]. apply Forall_app. split.
      * destruct Hwf as (_ & _ & Ha & _). eapply Forall_impl; [exact Ha|].
        intros l Hl. eapply Forall_impl; [exact Hl|]. intros v. by apply valid_same.
      * constructor; [|done]. eapply Forall_impl; [exact Hels|].
        intros v. by apply valid_same.
    + destruct Hwf as (_ & _ & _ & He). intros i e Hi. destruct (He i e Hi) as [Hs Ho].
      split; [|done]. eapply map_Forall_impl; [exact Hs|]. intros k v. by apply valid_same.
  - cbn. rewrite length_app. simpl. lia.
Qed.

Lemma safe_at_new_environment h e :
  map_Forall (λ _ v, valid h v) (store e) →
  (∀ o, outer e = Some o → o < length (environments h)) →
  safe_at h (new_environment e) (λ env h', env < length (environments h')).
Proof.
  intros Hs Ho Hwf. unfold new_environment. cbv beta iota.
  assert (Hle : sizes_le h {| objects := objects h; arrays := arrays h;
                              environments := environments h ++ [e] |}).
  { unfold sizes_le. cbn. rewrite length_app. simpl. lia. }
  split; [|split; [done|]].
  - eapply heap_wf_same_objects; [done | done | done | |].
    + cbn [arrays]. destruct Hwf as (_ & _ & Ha & _). eapply Forall_impl; [exact Ha|].
      intros l Hl. eapply Forall_impl; [exact Hl|]. intros v. by apply valid_same.
    + destruct Hwf as (_ & _ & _ & He). cbn [environments]. intros i e' Hi.
      apply lookup_app_Some in Hi as [Hi | [Hge Hi]].
      * destruct (He i e' Hi) as [Hs' Ho']. split; [|done].
        eapply map_Forall_impl; [exact Hs'|]. intros k v. by apply valid_same.
      * apply list_lookup_singleton_Some in Hi as [Hi <-].
        split; [eapply map_Forall_impl; [exact Hs|]; intros k v; by apply valid_same|].
        intros o Hout. specialize (Ho o Hout). lia.
  - cbn. rewrite length_app. simpl. lia.
Qed.

Lemma safe_at_array_push h (a : loc) x :
  a < length (arrays h) → valid h x →
  safe_at h (array_push a x) (λ _ h', length (arrays h') = length (arrays h)).
Proof.
  intros Ha Hx Hwf. unfold array_push.
  destruct (arrays h !! a) as [els|] eqn:Hels; cbv beta iota.
  2:{ apply lookup_ge_None in Hels. lia. }
  assert (Hle : sizes_le h {| objects := objects h;
                              arrays := <[a := els ++ [x]]> (arrays h);
                              environments := environments h |}).
  { unfold sizes_le. cbn. rewrite length_insert. lia. }
  split; [|split; [done|]].
  - eapply heap_wf_same_objects; [done | done | done | |].
    + cbn [arrays]. destruct Hwf as (_ & _ & Harr & _).
      apply Forall_insert.
      * eapply Forall_impl; [exact Harr|]. intros l Hl.
        eapply Forall_impl; [exact Hl|]. intros v. by apply valid_same.
      * apply Forall_app. split.
        -- eapply Forall_lookup_1 in Harr; [|exact Hels].
           eapply Forall_impl; [exact Harr|]. intros v. by apply valid_same.
        -- constructor; [by eapply valid_same | done].
    + destruct Hwf as (_ & _ & _ & He). intros i e Hi. destruct (He i e Hi) as [Hs Ho].
      split; [|done]. eapply map_Forall_impl; [exact Hs|]. intros k v. by apply valid_same.
  - cbn. by rewrite length_insert.
Qed.

Lemma safe_at_Environment_set h (env : loc) name v :
  env < length (environments h) → valid h v →
  safe_at h (Environment_set env name v) (λ _ h', True).
Proof.
  intros Henv Hv Hwf. unfold Environment_set.
  destruct (environments h !! env) as [e|] eqn:He; cbv beta iota.
  2:{ apply lookup_ge_None in He. lia. }
  assert (Hle : sizes_le h
    {| objects := objects h; arrays := arrays h;
       environments := <[env := {| store := <[name := v]> (store e); outer := outer e |}]>
                         (environments h) |}).
  { unfold sizes_le. cbn. rewrite length_insert. lia. }
  split; [|split; [done|done]].
  eapply heap_wf_same_objects; [done | done | done | |].
  - cbn [arrays]. destruct Hwf as (_ & _ & Ha & _). eapply Forall_impl; [exact Ha|].
    intros l Hl. eapply Forall_impl; [exact Hl|]. intros w. by apply valid_same.
  - destruct Hwf as (_ & _ & _ & Henvs). cbn [environments]. intros i e' Hi.
    destruct (decide (i = env)) as [-> | Hne].
    + rewrite list_lookup_insert_eq in Hi by done. injection Hi as <-.
      destruct (Henvs env e He) as [Hs Ho]. cbn [store outer]. split; [|done].
      apply map_Forall_insert_2; [by eapply valid_same|].
      eapply map_Forall_impl; [exact Hs|]. intros k w. by apply valid_same.
    + rewrite list_lookup_insert_ne in Hi by done.
      destruct (Henvs i e' Hi) as [Hs Ho]. split; [|done].
      eapply map_Forall_impl; [exact Hs|]. intros k w. by apply valid_same.
Qed.

Lemma safe_at_environment_at h (env : loc) :
  env < length (environments h) →
  safe_at h (environment_at env)
    (λ e h', h' = h ∧ map_Forall (λ _ v, valid h v) (store e) ∧
             ∀ o, outer e = Some o → o < env).
Proof.
  intros Henv Hwf. unfold environment_at.
  destruct (environments h !! env) as [e|] eqn:He; cbv beta iota.
  - split; [done|]. split; [apply sizes_le_refl|]. split; [done|].
    destruct Hwf as (_ & _ & _ & Henvs). by apply Henvs.
  - apply lookup_ge_None in He. lia.
Qed.

Lemma safe_at_Environment_get_chain n :
  ∀ h (env : loc) name, env < length (environments h) →
  safe_at h (Environment_get_chain n env name) (λ v h', h' = h ∧ valid h v).
Proof.
  induction n as [|n IH]; intros h env name Henv; cbn [Environment_get_chain];
    (eapply safe_at_bind; [by apply safe_at_environment_at|]);
    intros e h1 _ (-> & Hs & Ho);
    destruct (store e !! name) as [v|] eqn:Hv; cbn [default];
    try (apply map_Forall_lookup_1 with (i := name) (x := v) in Hs; [|done]);
    try destruct v; destruct (outer e) as [o|] eqn:Hout;
    try (by apply safe_at_ret); try apply safe_at_timeout;
    apply IH; specialize (Ho o eq_refl); lia.
Qed.

Lemma safe_at_Environment_get h (env : loc) name :
  env < length (environments h) →
  safe_at h (Environment_get env name) (λ v h', h' = h ∧ valid h v).
Proof.
  intros Henv. unfold Environment_get.
  eapply safe_at_bind; [by apply (safe_at_ret h h (λ a h', a = h ∧ h' = h))|].
  intros a h1 _ [-> ->]. by apply safe_at_Environment_get_chain.
Qed.

Lemma safe_at_ifNotError h obj (body : loc → M Heap value) (Q : value → Heap → Prop) :
  valid h obj → Q obj h →
  (∀ l, obj = Ref l → l < length (objects h) → safe_at h (body l) Q) →
  safe_at h (ifNotError obj body) Q.
Proof.
  intros Hv HQ Hbody. destruct obj as [| |l]; cbn [ifNotError];
    try (by apply safe_at_ret).
  eapply safe_at_bind; [by apply safe_at_object_at|].
  intros o h1 _ (-> & Ho & Hwf).
  destruct o; try (by apply Hbody). by apply safe_at_ret.
Qed.

(** The canonical objects are valid in every well-formed heap. *)
Lemma safe_at_canonical {A} h (m : M Heap A) Q :
  (length (objects initial_heap) ≤ length (objects h) → safe_at h m Q) → safe_at h m Q.
Proof. intros Hm Hwf. apply Hm; [apply Hwf | done]. Qed.

Lemma valid_toMonkey h b :
  length (objects initial_heap) ≤ length (objects h) → valid h (toMonkey b).
Proof. cbn. intros Hlen. destruct b; cbn; unfold TRUE, FALSE; lia. Qed.

Lemma valid_NULL h :
  length (objects initial_heap) ≤ length (objects h) → valid h (Ref NULL).
Proof. cbn. unfold NULL. lia. Qed.

Lemma valid_evalBangOperatorExpression h r :
  length (objects initial_heap) ≤ length (objects h) →
  valid h (evalBangOperatorExpression r).
Proof.
  cbn. intros Hlen. unfold evalBangOperatorExpression.
  repeat case_decide; cbn; unfold TRUE, FALSE; lia.
Qed.

Lemma valid_nth_value h els i : Forall (valid h) els → valid h (nth_value els i).
Proof.
  intros Hels. unfold nth_value. destruct (els !! i) as [v|] eqn:Hv; [|done].
  by eapply Forall_lookup_1 in Hels.
Qed.

Lemma safe_at_evalMinusPrefixOperatorExpression h (r : loc) :
  r < length (objects h) →
  safe_at h (evalMinusPrefixOperatorExpression r) (λ v h', valid h' v).
Proof.
  intros Hr. unfold evalMinusPrefixOperatorExpression.
  eapply safe_at_bind; [by apply safe_at_object_at|].
  intros o h1 _ (-> & Ho & Hwf). destruct o; by apply safe_at_new_object.
Qed.

Lemma safe_at_evalIntegerInfixExpression h operator l r :
  safe_at h (evalIntegerInfixExpression operator l r) (λ v h', valid h' v).
Proof.
  apply safe_at_canonical. intros Hlen. unfold evalIntegerInfixExpression.
  repeat (destruct (String.eqb operator _);
          [first [by apply safe_at_new_object
                 | apply safe_at_ret; by apply valid_toMonkey]|]).
  by apply safe_at_new_object.
Qed.

Lemma safe_at_evalInfixExpression h operator (lhs rhs : loc) :
  lhs < length (objects h) → rhs < length (objects h) →
  safe_at h (evalInfixExpression operator lhs rhs) (λ v h', valid h' v).
Proof.
  intros Hl Hr. apply safe_at_canonical. intros Hlen. unfold evalInfixExpression.
  eapply safe_at_bind; [by apply safe_at_object_at|].
  intros l h1 _ (-> & _ & _).
  eapply safe_at_bind; [by apply safe_at_object_at|].
  intros r h1 _ (-> & _ & _).
  destruct l, r; try apply safe_at_evalIntegerInfixExpression;
    repeat (match goal with
            | |- safe_at _ (if ?b then _ else _) _ => destruct b
            end);
    first [by apply safe_at_new_object | apply safe_at_ret; by apply valid_toMonkey].
Qed.

Lemma safe_at_evalArrayIndexExpression h (a : loc) i :
  a < length (arrays h) →
  safe_at h (evalArrayIndexExpression a i) (λ v h', valid h' v).
Proof.
  intros Ha. apply safe_at_canonical. intros Hlen. unfold evalArrayIndexExpression.
  eapply safe_at_bind; [by apply safe_at_array_at|].
  intros els h1 _ (-> & _ & Hels).
  destruct (_ || _); apply safe_at_ret; [by apply valid_NULL|].
  unfold array_get. destruct (array_index i); [by apply valid_nth_value | done].
Qed.

Lemma safe_at_evalHashIndexExpression `{Host} h pairs index :
  map_Forall (λ _ p, valid h (pair_value p)) pairs → valid h index →
  safe_at h (evalHashIndexExpression pairs index) (λ v h', valid h' v).
Proof.
  intros Hpairs Hi. apply safe_at_canonical. intros Hlen.
  unfold evalHashIndexExpression.
  eapply safe_at_bind; [by apply safe_at_deref|].
  intros o h1 _ (-> & _).
  destruct (o ≫= hashKey) as [k|].
  - destruct (pairs !! k) as [p|] eqn:Hp; apply safe_at_ret; [|by apply valid_NULL].
    by apply (map_Forall_lookup_1 _ _ _ _ Hpairs Hp).
  - eapply safe_at_bind; [by apply safe_at_typeDesc|].
    intros t h1 _ ->. by apply safe_at_new_object.
Qed.

(** The builtins. *)
Lemma safe_at_argSizeCheck h n args body (Q : value → Heap → Prop) :
  (∀ v h', valid h' v → Q v h') →
  safe_at h (body args) Q → safe_at h (argSizeCheck n args body) Q.
Proof.
  intros HQ Hbody. unfold argSizeCheck. destruct (negb _); [|done].
  eapply safe_at_weaken; [by apply safe_at_new_object | auto].
Qed.

Lemma safe_at_arrayCheck h name args body :
  Forall (valid h) args →
  (∀ (a : loc) n, a < length (arrays h) → safe_at h (body a n) (λ v h', valid h' v)) →
  safe_at h (arrayCheck name args body) (λ v h', valid h' v).
Proof.
  intros Hargs Hbody. unfold arrayCheck.
  pose proof (valid_nth_value h args 0 Hargs) as Hfirst.
  eapply safe_at_bind; [by apply safe_at_deref|].
  intros o h1 _ (-> & Ho).
  assert (Herr : safe_at h
    (t ← typeDesc (nth_value args 0);
     new_object (MError ("argument to '" ++ name ++ "' must be ARRAY, got " ++ t)))
    (λ v h', valid h' v)).
  { eapply safe_at_bind; [by apply safe_at_typeDesc|].
    intros t h1 _ ->. by apply safe_at_new_object. }
  destruct o as [[]|]; try apply Herr.
  specialize (Ho _ eq_refl). cbn in Ho.
  eapply safe_at_bind; [by apply safe_at_array_at|].
  intros els h1 _ (-> & _ & _). by apply Hbody.
Qed.

Lemma safe_at_call_builtin h fn args :
  Forall (valid h) args →
  safe_at h (call_builtin fn args) (λ v h', valid h' v).
Proof.
  intros Hargs. apply safe_at_canonical. intros Hlen.
  destruct fn; cbn [call_builtin];
    unfold builtin_len, builtin_push, builtin_first, builtin_last, builtin_rest;
    (apply safe_at_argSizeCheck; [done|]).
  - pose proof (valid_nth_value h args 0 Hargs) as Hfirst.
    eapply safe_at_bind; [by apply safe_at_deref|].
    intros o h1 _ (-> & Ho).
    destruct o as [[]|];
      try (eapply safe_at_bind; [by apply safe_at_typeDesc|];
           intros t h1 _ ->; by apply safe_at_new_object);
      try (by apply safe_at_new_object).
    specialize (Ho _ eq_refl). cbn in Ho.
    eapply safe_at_bind; [by apply safe_at_array_at|].
    intros els h1 _ (-> & _ & _). by apply safe_at_new_object.
  - apply safe_at_arrayCheck; [done|]. intros a _ Ha.
    eapply safe_at_bind;
      [apply safe_at_array_push; [done | by apply valid_nth_value]|].
    intros [] h1 Hle Hlen1. apply safe_at_new_object. cbn. lia.
  - apply safe_at_arrayCheck; [done|]. intros a n Ha.
    destruct (0 <? n); [|apply safe_at_ret; by apply valid_NULL].
    eapply safe_at_bind; [by apply safe_at_array_at|].
    intros els h1 _ (-> & _ & Hels). apply safe_at_ret. by apply valid_nth_value.
  - apply safe_at_arrayCheck; [done|]. intros a n Ha.
    destruct (0 <? n); [|apply safe_at_ret; by apply valid_NULL].
    eapply safe_at_bind; [by apply safe_at_array_at|].
    intros els h1 _ (-> & _ & Hels). apply safe_at_ret. by apply valid_nth_value.
  - apply safe_at_arrayCheck; [done|]. intros a n Ha.
    destruct (0 <? n); [|apply safe_at_ret; by apply valid_NULL].
    eapply safe_at_bind; [by apply safe_at_array_at|].
    intros els h1 _ (-> & _ & Hels).
    eapply safe_at_bind; [apply safe_at_new_array; by apply Forall_drop|].
    intros sliced h1 Hle Hs. by apply safe_at_new_object.
Qed.

Lemma Forall_valid_mono h h' vs : sizes_le h h' → Forall (valid h) vs → Forall (valid h') vs.
Proof. intros Hle Hvs. eapply Forall_impl; [exact Hvs|]. intros v. by apply valid_mono. Qed.

Lemma pairs_valid_mono h h' (pairs : gmap string HashPair) :
  sizes_le h h' →
  map_Forall (λ _ p, valid h (pair_value p)) pairs →
  map_Forall (λ _ p, valid h' (pair_value p)) pairs.
Proof.
  intros Hle Hp. eapply map_Forall_impl; [exact Hp|]. intros k p. by apply valid_mono.
Qed.

(** Side conditions on addresses: an address of a heap is one of every
    heap that has grown from it. *)
Ltac grown :=
  repeat match goal with
  | H : valid _ (Ref _) |- _ => cbn [valid] in H
  end;
  unfold sizes_le in *; cbn [valid]; lia.

Section EvaluatorSafe.
Context `{Host}.
Variable ev : option Node → loc → M Heap value.
Hypothesis Hev : evaluator_safe ev.

Lemma safe_at_evalStatements statements :
  ∀ h (env : loc) result,
  forallb present statements = true → env < length (environments h) →
  valid h result →
  safe_at h (evalStatements ev statements env result) (λ v h', valid h' v).
Proof.
  induction statements as [|statement rest IH]; intros h env result Hall Henv Hres;
    cbn [evalStatements]; [by apply safe_at_ret|].
  cbn [forallb] in Hall. apply andb_true_iff in Hall as [Hst Hrest].
  eapply safe_at_bind; [by apply Hev|]. intros v h1 Hle1 Hv.
  eapply safe_at_bind; [by apply safe_at_deref|]. intros o h2 _ (-> & _).
  destruct o as [[]|]; try (by apply safe_at_ret); apply IH; try done; grown.
Qed.

Lemma safe_at_evalBlockStatement h node (env : loc) :
  complete_block node = true → env < length (environments h) →
  safe_at h (evalBlockStatement ev node env) (λ v h', valid h' v).
Proof.
  intros Hnode Henv. destruct node as [token [statements|]]; [|done].
  cbn [evalBlockStatement]. by apply safe_at_evalStatements.
Qed.

Lemma safe_at_evalExpressions_for args :
  ∀ h (env : loc) evalList,
  forallb present args = true → env < length (environments h) →
  Forall (valid h) evalList →
  safe_at h (evalExpressions_for ev args env evalList) (λ vs h', Forall (valid h') vs).
Proof.
  induction args as [|argument rest IH]; intros h env evalList Hall Henv Hlist;
    cbn [evalExpressions_for]; [by apply safe_at_ret|].
  cbn [forallb] in Hall. apply andb_true_iff in Hall as [Harg Hrest].
  eapply safe_at_bind; [by apply Hev|]. intros v h1 Hle1 Hv.
  eapply safe_at_bind; [by apply safe_at_isError|]. intros e h2 _ ->.
  destruct e; [apply safe_at_ret; by constructor|].
  apply IH; [done | grown |].
  apply Forall_app. split; [by eapply Forall_valid_mono | by constructor].
Qed.

Lemma safe_at_bindParameters parameters :
  ∀ h (env : loc) i args,
  env < length (environments h) → Forall (valid h) args →
  safe_at h (bindParameters env parameters i args) (λ _ h', True).
Proof.
  induction parameters as [|identifier rest IH]; intros h env i args Henv Hargs;
    cbn [bindParameters]; [by apply safe_at_ret|].
  eapply safe_at_bind;
    [apply safe_at_Environment_set; [done | by apply valid_nth_value]|].
  intros [] h1 Hle1 _. apply IH; [grown | by eapply Forall_valid_mono].
Qed.

Lemma safe_at_extendFunctionEnv h (fun_env : loc) parameters args :
  fun_env < length (environments h) → Forall (valid h) args →
  safe_at h (extendFunctionEnv fun_env parameters args)
    (λ env h', env < length (environments h')).
Proof.
  intros Henv Hargs. unfold extendFunctionEnv, newEnclosedEnvironment.
  eapply safe_at_bind.
  { apply safe_at_new_environment; cbn [store outer]; [apply map_Forall_empty|].
    by intros o [= <-]. }
  intros env h1 Hle1 Henv1.
  eapply safe_at_bind.
  { instantiate (1 := λ _ _, True). destruct parameters as [ps|].
    - apply safe_at_bindParameters; [done | by eapply Forall_valid_mono].
    - by apply safe_at_ret. }
  intros [] h2 Hle2 _. apply safe_at_ret. grown.
Qed.

Lemma safe_at_applyFunction h (fun_ : loc) args :
  fun_ < length (objects h) → Forall (valid h) args →
  safe_at h (applyFunction ev fun_ args) (λ v h', valid h' v).
Proof.
  intros Hfun Hargs. apply safe_at_canonical. intros Hlen. unfold applyFunction.
  eapply safe_at_bind; [by apply safe_at_object_at|].
  intros f h1 _ (-> & _ & Hwf).
  destruct f; try (by apply safe_at_new_object).
  - destruct Hwf as [Henv Hbody]. destruct body as [body|]; [|done].
    eapply safe_at_bind; [by apply safe_at_extendFunctionEnv|].
    intros extendEnv h1 Hle1 Hext.
    eapply safe_at_bind; [by apply Hev|]. intros evaluated h2 Hle2 Hv.
    eapply safe_at_bind; [by apply safe_at_deref|]. intros o h3 _ (-> & Ho).
    destruct o as [[]|]; try (by apply safe_at_ret).
    specialize (Ho _ eq_refl). cbn in Ho. by apply safe_at_ret.
  - eapply safe_at_bind; [by apply safe_at_call_builtin|].
    intros result h1 Hle1 Hres.
    destruct result; apply safe_at_ret; try done. apply valid_NULL. grown.
Qed.

Lemma safe_at_evalHashLiteral_for node_pairs :
  ∀ h (env : loc) pairs,
  forallb (λ kv, complete (fst kv) && complete (snd kv)) node_pairs = true →
  env < length (environments h) →
  map_Forall (λ _ p, valid h (pair_value p)) pairs →
  safe_at h (evalHashLiteral_for ev node_pairs env pairs) (λ v h', valid h' v).
Proof.
  induction node_pairs as [|[keyNode valueNode] rest IH]; intros h env pairs Hall Henv Hp;
    cbn [evalHashLiteral_for]; [by apply safe_at_new_object|].
  cbn [forallb fst snd] in Hall.
  apply andb_true_iff in Hall as [Hkv Hrest]. apply andb_true_iff in Hkv as [Hk Hv].
  eapply safe_at_bind; [by apply Hev|]. intros key h1 Hle1 Hkey.
  eapply safe_at_bind; [by apply safe_at_isError|]. intros e h2 _ ->.
  destruct e; [by apply safe_at_ret|].
  eapply safe_at_bind; [by apply safe_at_deref|]. intros o h2 _ (-> & _).
  assert (Herr : safe_at h1
    (t ← typeDesc key; new_object (MError ("unusable as hash key: " ++ t)))
    (λ v h', valid h' v)).
  { eapply safe_at_bind; [by apply safe_at_typeDesc|].
    intros t h2 _ ->. by apply safe_at_new_object. }
  destruct key as [| |k]; try apply Herr.
  destruct (o ≫= hashKey) as [hk|]; [|apply Herr].
  eapply safe_at_bind; [apply Hev; [done | grown]|]. intros v h2 Hle2 Hval.
  eapply safe_at_bind; [by apply safe_at_isError|]. intros e h3 _ ->.
  destruct e; [by apply safe_at_ret|].
  apply IH; [done | grown |].
  apply map_Forall_insert_2; [done|].
  eapply pairs_valid_mono; [|exact Hp]. by eapply sizes_le_trans.
Qed.

Lemma safe_at_evaluateNode_body node h (env : loc) :
  present node = true → env < length (environments h) →
  safe_at h (evaluateNode_body ev node env) (λ v h', valid h' v).
Proof.
  intros Hnode Henv. apply safe_at_canonical. intros Hlen.
  destruct node as [node|]; [|done]. cbn [present] in Hnode.
  destruct node; cbn [evaluateNode_body]; cbn [complete] in Hnode.
  - (* Identifier *)
    eapply safe_at_bind; [by apply safe_at_Environment_get|].
    intros v h1 _ (-> & Hv).
    destruct v; try (by apply safe_at_ret).
    destruct (lookup_builtin (id_value i)) as [builtin|] eqn:Hb;
      [|by apply safe_at_new_object].
    apply safe_at_ret. cbn.
    unfold lookup_builtin, builtins in Hb. cbn [assoc] in Hb.
    repeat (destruct (String.eqb _ _); [injection Hb as <-; cbn in Hlen; lia|]).
    done.
  - (* StringLiteral *) by apply safe_at_new_object.
  - (* LetStatement *)
    eapply safe_at_bind; [by apply Hev|]. intros v h1 Hle1 Hv.
    apply safe_at_ifNotError; [done | done |]. intros l -> Hl.
    unfold Environment_put.
    eapply safe_at_bind; [apply safe_at_Environment_set; [grown | done]|].
    intros [] h2 Hle2 _. apply safe_at_ret. grown.
  - (* ExpressionStatement *) by apply Hev.
  - (* ReturnStatement *)
    eapply safe_at_bind; [by apply Hev|]. intros v h1 Hle1 Hv.
    apply safe_at_ifNotError; [done | done |]. intros l -> Hl.
    by apply safe_at_new_object.
  - (* IntegerLiteral *) by apply safe_at_new_object.
  - (* BooleanLiteral *) apply safe_at_ret. by apply valid_toMonkey.
  - (* PrefixExpression *)
    eapply safe_at_bind; [by apply Hev|]. intros r h1 Hle1 Hr.
    apply safe_at_ifNotError; [done | done |]. intros l -> Hl.
    destruct (String.eqb operator "!").
    { apply safe_at_ret. apply valid_evalBangOperatorExpression. grown. }
    destruct (String.eqb operator "-").
    { by apply safe_at_evalMinusPrefixOperatorExpression. }
    eapply safe_at_bind; [by apply safe_at_typeDesc|].
    intros t h2 _ ->. by apply safe_at_new_object.
  - (* InfixExpression *)
    apply andb_true_iff in Hnode as [Hl Hr].
    eapply safe_at_bind; [by apply Hev|]. intros l h1 Hle1 Hvl.
    apply safe_at_ifNotError; [done | done |]. intros l' -> Hl'.
    eapply safe_at_bind; [apply Hev; [done | grown]|]. intros r h2 Hle2 Hvr.
    apply safe_at_ifNotError; [done | done |]. intros r' -> Hr'.
    apply safe_at_evalInfixExpression; grown.
  - (* CallExpression *)
    apply andb_true_iff in Hnode as [Hf Hargs].
    destruct args as [args|]; [|done].
    eapply safe_at_bind; [by apply Hev|]. intros f h1 Hle1 Hvf.
    apply safe_at_ifNotError; [done | done |]. intros f' -> Hf'.
    eapply safe_at_bind.
    { cbn [evalExpressions]. apply safe_at_evalExpressions_for; [done | grown | done]. }
    intros vs h2 Hle2 Hvs.
    assert (Happly : safe_at h2 (applyFunction ev f' vs) (λ v h', valid h' v))
      by (apply safe_at_applyFunction; [grown | done]).
    destruct vs as [|a [|b vs]]; try exact Happly.
    eapply safe_at_bind; [apply safe_at_isError; by inversion Hvs|].
    intros e h3 _ ->. destruct e; [apply safe_at_ret; by inversion Hvs | exact Happly].
  - (* ArrayLiteral *)
    destruct elements as [elements|]; [|done].
    eapply safe_at_bind.
    { cbn [evalExpressions]. by apply safe_at_evalExpressions_for. }
    intros vs h1 Hle1 Hvs.
    assert (Hnew : safe_at h1 (arr ← new_array vs; new_object (MArray arr))
                     (λ v h', valid h' v)).
    { eapply safe_at_bind; [by apply safe_at_new_array|].
      intros arr h2 Hle2 Harr. by apply safe_at_new_object. }
    destruct vs as [|a [|b vs]]; try exact Hnew.
    eapply safe_at_bind; [apply safe_at_isError; by inversion Hvs|].
    intros e h3 _ ->. destruct e; [apply safe_at_ret; by inversion Hvs | exact Hnew].
  - (* IndexExpression *)
    apply andb_true_iff in Hnode as [Hl Hi].
    eapply safe_at_bind; [by apply Hev|]. intros l h1 Hle1 Hvl.
    eapply safe_at_bind; [by apply safe_at_isError|]. intros e h2 _ ->.
    destruct e; [by apply safe_at_ret|].
    eapply safe_at_bind; [apply Hev; [done | grown]|]. intros i h2 Hle2 Hvi.
    eapply safe_at_bind; [by apply safe_at_isError|]. intros e h3 _ ->.
    destruct e; [by apply safe_at_ret|].
    assert (Hvl2 : valid h2 l) by (by eapply valid_mono).
    eapply safe_at_bind; [by apply safe_at_deref|]. intros lo h3 _ (-> & Hlo).
    eapply safe_at_bind; [by apply safe_at_deref|]. intros io h3 _ (-> & Hio).
    assert (Herr : safe_at h2
      (t ← typeDesc l; new_object (MError ("index operator not supported: " ++ t)))
      (λ v h', valid h' v)).
    { eapply safe_at_bind; [by apply safe_at_typeDesc|].
      intros t h3 _ ->. by apply safe_at_new_object. }
    destruct lo as [[]|]; try apply Herr.
    + specialize (Hlo _ eq_refl). cbn in Hlo.
      destruct io as [[]|]; try apply Herr.
      by apply safe_at_evalArrayIndexExpression.
    + specialize (Hlo _ eq_refl). cbn in Hlo.
      by apply safe_at_evalHashIndexExpression.
  - (* Block *) by apply safe_at_evalBlockStatement.
  - (* IfExpression *)
    apply andb_true_iff in Hnode as [Hnode Halt].
    apply andb_true_iff in Hnode as [Hc Hcons].
    eapply safe_at_bind; [by apply Hev|]. intros c h1 Hle1 Hvc.
    apply safe_at_ifNotError; [done | done |]. intros c' -> Hc'.
    destruct (isTruthy c').
    + destruct consequence as [b|]; [|done]. apply Hev; [done | grown].
    + destruct alternative as [a|].
      * apply safe_at_evalBlockStatement; [done | grown].
      * apply safe_at_ret. apply valid_NULL. grown.
  - (* FunctionLiteral *)
    apply andb_true_iff in Hnode as [Hp Hb].
    apply safe_at_new_object. cbn. split; [done|]. by destruct body.
  - (* HashLiteral *)
    apply safe_at_evalHashLiteral_for; [done | done | apply map_Forall_empty].
Qed.

End EvaluatorSafe.

Lemma evaluateNode_safe `{Host} fuel : evaluator_safe (evaluateNode fuel).
Proof.
  induction fuel as [|fuel IH]; intros node env h Hnode Henv.
  - apply safe_at_timeout.
  - cbn [evaluateNode]. by apply safe_at_evaluateNode_body.
Qed.

Lemma safe_at_evaluate_for `{Host} fuel statements :
  ∀ h (env : loc) result,
  forallb complete statements = true → env < length (environments h) →
  valid h result →
  safe_at h (evaluate_for fuel statements env result) (λ v h', valid h' v).
Proof.
  induction statements as [|statement rest IH]; intros h env result Hall Henv Hres;
    cbn [evaluate_for]; [by apply safe_at_ret|].
  cbn [forallb] in Hall. apply andb_true_iff in Hall as [Hst Hrest].
  eapply safe_at_bind; [by apply evaluateNode_safe|]. intros v h1 Hle1 Hv.
  eapply safe_at_bind; [by apply safe_at_deref|]. intros o h2 _ (-> & Ho).
  destruct o as [[]|]; try (by apply safe_at_ret); try (apply IH; try done; grown).
  specialize (Ho _ eq_refl). cbn in Ho. by apply safe_at_ret.
Qed.

Lemma heap_wf_scopes_wf h : heap_wf h → scopes_wf h.
Proof. intros (_ & _ & _ & He) env e o Henv Ho. by apply (He env e Henv). Qed.

Lemma heap_with_environment_wf : heap_wf heap_with_environment.
Proof.
  split; [done|]. split; [|split; [by constructor|]].
  - repeat constructor.
  - intros [|i] e Hi; [|done]. injection Hi as <-. split; [apply map_Forall_empty | done].
Qed.

(** X27.  Evaluation keeps the heap well formed and does not throw: from a
    well-formed heap, in an existing scope, the evaluation of a complete
    node never ends in an exception; when it returns, its value is no
    dangling reference, no address of the heap has been given up, and the
    heap is again well formed (no dangling reference in any object, array
    or scope, complete function bodies, every [outer] scope older than the
    scope it encloses). *)
Theorem evaluation_keeps_the_heap_well_formed `{Host} (fuel : nat) (node : Node)
    (env : loc) (h : Heap) :
  heap_wf h → env < length (environments h) → complete node = true →
  match evaluateNode fuel (Some node) env h with
  | Ok v h' => heap_wf h' ∧ scopes_wf h' ∧ sizes_le h h' ∧ valid h' v
  | Throw _ => False
  | Timeout => True
  end.
Proof.
  intros Hwf Henv Hnode.
  pose proof (evaluateNode_safe fuel (Some node) env h Hnode Henv Hwf) as Hsafe.
  destruct (evaluateNode fuel (Some node) env h) as [v h'| |]; [|done|done].
  destruct Hsafe as (Hwf' & Hle & Hv). split; [done|].
  split; [by apply heap_wf_scopes_wf | done].
Qed.

Lemma evaluation_keeps_the_heap_well_formed_witness :
  match evaluateNode (H := ascii_host) 3 (Some example_return) 0 heap_with_environment with
  | Ok v h' =>
      heap_wf h' ∧ scopes_wf h' ∧ sizes_le heap_with_environment h' ∧ valid h' v
  | Throw _ => False
  | Timeout => True
  end.
Proof.
  apply (evaluation_keeps_the_heap_well_formed (H := ascii_host) 3 example_return 0
           heap_with_environment).
  - apply heap_with_environment_wf.
  - simpl. lia.
  - reflexivity.
Defined.

(** X28.  A program that parses without errors evaluates without an
    exception: when [parse] returns a program and no error, evaluating the
    program in a new environment on the initial heap never throws, whatever
    the fuel; when it returns, the heap is well formed and the value is no
    dangling reference.  Every failure of such a program is an [MError]
    value. *)
Theorem error_free_program_never_throws `{Host} (fuel fuel' : nat) (source : string)
    (program : Program) (p' : Parser) :
  parse fuel source = Ok (program, []) p' →
  match (env ← newEnvironment; evaluate fuel' program env) initial_heap with
  | Ok v h' => heap_wf h' ∧ valid h' v
  | Throw _ => False
  | Timeout => True
  end.
Proof.
  intros Hparse.
  destruct (parse_inv _ _ _ _ _ Hparse) as (p0 & H0 & Hprog & Herr).
  destruct (reports_parseProgram fuel _ _ _ Hprog) as (more & Hmore & Hcomplete).
  assert (Hall : forallb complete (program_statements program) = true).
  { apply Hcomplete. rewrite H0, <- Herr in Hmore. by destruct more. }
  assert (Hsafe : safe_at initial_heap
    (env ← newEnvironment; evaluate fuel' program env) (λ v h', valid h' v)).
  { eapply safe_at_bind.
    - apply safe_at_new_environment; [apply map_Forall_empty | done].
    - intros env h1 Hle Henv. unfold evaluate.
      by apply safe_at_evaluate_for. }
  specialize (Hsafe initial_heap_wf).
  destruct ((env ← newEnvironment; evaluate fuel' program env) initial_heap)
    as [v h'| |]; [|done|done].
  by destruct Hsafe as (? & _ & ?).
Qed.

Lemma error_free_program_never_throws_witness :
  ∃ program p',
    parse (H := ascii_host) 10 "let f = fn(x) { x + 1 }; f(2)[0]" = Ok (program, []) p' ∧
    match (env ← newEnvironment; evaluate (H := ascii_host) 10 program env) initial_heap with
    | Ok v h' => heap_wf h' ∧ valid h' v
    | Throw _ => False
    | Timeout => True
    end.
Proof.
  destruct (parse (H := ascii_host) 10 "let f = fn(x) { x + 1 }; f(2)[0]")
    as [[program [|e errs]] p'| |] eqn:Hp; try (vm_compute in Hp; discriminate).
  exists program, p'. split; [reflexivity|].
  exact (error_free_program_never_throws (H := ascii_host) 10 10
           "let f = fn(x) { x + 1 }; f(2)[0]" program p' Hp).
Defined.
